(** * plow: Debian repository manager -- verification of the core

    A shallow embedding of the version comparator, the control-stanza
    parser and printer, the pool path resolver, the pool scanner and the
    pruner of [frostyard/plow], with the parts of the Go standard library
    they call ([strings], [strconv], [unicode], [bufio], [path/filepath],
    [sort]).

    Go values are modelled as follows: a Go [string] is a [string] of
    bytes ([ascii]), [int] and [int64] are [Z] with the range checks the
    code performs written out, a Go [map] is a [gmap], a slice is a [list],
    an [error] is a value of the type [error] below. *)

From Stdlib Require Import ZArith Ascii String List Bool Lia.
From stdpp Require Import base gmap strings list sorting.

#[local] Open Scope string_scope.
#[local] Open Scope Z_scope.
#[local] Arguments String.append !_ _ / : simpl nomatch.

(** ** Bytes and strings *)

(** [int(c)] for a byte [c]. *)
Definition byte_val (c : ascii) : Z := Z.of_N (N_of_ascii c).

(** [len(s)] *)
Definition len (s : string) : nat := String.length s.

(** [s[:i]] and [s[i:]], for [i <= len(s)] (Go panics otherwise; every call
    below is in range). *)
Fixpoint slice_to (i : nat) (s : string) : string :=
  match i, s with
  | S i', String c r => String c (slice_to i' r)
  | _, _ => EmptyString
  end.

Fixpoint slice_from (i : nat) (s : string) : string :=
  match i, s with
  | S i', String _ r => slice_from i' r
  | _, _ => s
  end.

(** The number of leading bytes of [s] that satisfy [p]: the value of [i]
    after [for i < len(s) && p(s[i]) { i++ }]. *)
Fixpoint scan_while (p : ascii -> bool) (s : string) : nat :=
  match s with
  | String c r => if p c then S (scan_while p r) else O
  | EmptyString => O
  end.

(** [forallb] on the bytes of a string. *)
Fixpoint all_bytes (p : ascii -> bool) (s : string) : bool :=
  match s with
  | String c r => p c && all_bytes p r
  | EmptyString => true
  end.

Fixpoint string_rev (s : string) : string :=
  match s with
  | String c r => string_rev r ++ String c EmptyString
  | EmptyString => EmptyString
  end.

Definition is_empty (s : string) : bool :=
  match s with EmptyString => true | _ => false end.

(** ** Package [unicode] *)

Module unicode.

(** [unicode.IsDigit(rune(c))] for a byte [c]: the rune is at most
    [MaxLatin1], where IsDigit is ['0' <= r && r <= '9']. *)
Definition IsDigit (c : ascii) : bool :=
  (48 <=? byte_val c) && (byte_val c <=? 57).

End unicode.

(** ** Package [strings] *)

Module strings.

(** [asciiSpace]: tab, newline, vertical tab, form feed, carriage return,
    space. *)
Definition asciiSpace (c : ascii) : bool :=
  let n := byte_val c in
  (n =? 9) || (n =? 10) || (n =? 11) || (n =? 12) || (n =? 13) || (n =? 32).

(** The white space runes above U+007F ([unicode.IsSpace]) are U+0085,
    U+00A0, U+1680, U+2000..U+200A, U+2028, U+2029, U+202F, U+205F and
    U+3000. [space2 b0 b1] and [space3 b0 b1 b2] recognise their UTF-8
    encodings; every other byte sequence decodes to a rune that is no
    space (an invalid encoding decodes to U+FFFD, width 1). *)
Definition space2 (b0 b1 : Z) : bool :=
  (b0 =? 194) && ((b1 =? 133) || (b1 =? 160)).

Definition space3 (b0 b1 b2 : Z) : bool :=
  ((b0 =? 225) && (b1 =? 154) && (b2 =? 128))
  || ((b0 =? 226) && (b1 =? 128)
      && (((128 <=? b2) && (b2 <=? 138)) || (b2 =? 168) || (b2 =? 169) || (b2 =? 175)))
  || ((b0 =? 226) && (b1 =? 129) && (b2 =? 159))
  || ((b0 =? 227) && (b1 =? 128) && (b2 =? 128)).

(** Width in bytes of the white space rune at the start of [s]
    ([utf8.DecodeRuneInString] followed by [unicode.IsSpace]); 0 when the
    first rune is no space or [s] is empty. *)
Definition space_width (s : string) : nat :=
  match s with
  | String c0 r0 =>
      if byte_val c0 <? 128 then (if asciiSpace c0 then 1%nat else 0%nat)
      else match r0 with
           | String c1 r1 =>
               if space2 (byte_val c0) (byte_val c1) then 2%nat
               else match r1 with
                    | String c2 _ =>
                        if space3 (byte_val c0) (byte_val c1) (byte_val c2)
                        then 3%nat else 0%nat
                    | EmptyString => 0%nat
                    end
           | EmptyString => 0%nat
           end
  | EmptyString => 0%nat
  end.

(** Width of the white space rune at the end of the string whose reversal
    is [r] ([utf8.DecodeLastRuneInString] followed by [unicode.IsSpace]):
    the last byte is [r]'s first. *)
Definition space_width_last (r : string) : nat :=
  match r with
  | String c0 r0 =>
      if byte_val c0 <? 128 then (if asciiSpace c0 then 1%nat else 0%nat)
      else match r0 with
           | String c1 r1 =>
               if space2 (byte_val c1) (byte_val c0) then 2%nat
               else match r1 with
                    | String c2 _ =>
                        if space3 (byte_val c2) (byte_val c1) (byte_val c0)
                        then 3%nat else 0%nat
                    | EmptyString => 0%nat
                    end
           | EmptyString => 0%nat
           end
  | EmptyString => 0%nat
  end.

(** [strings.TrimLeftFunc(s, unicode.IsSpace)]: white space runes are
    removed from the front while there is one; the loop runs at most
    [len s] times. *)
Fixpoint trim_loop (width : string -> nat) (fuel : nat) (s : string) : string :=
  match fuel with
  | O => s
  | S fuel' =>
      match width s with
      | O => s
      | w => trim_loop width fuel' (slice_from w s)
      end
  end.

Definition TrimLeftSpace (s : string) : string :=
  trim_loop space_width (len s) s.

(** [strings.TrimRightFunc(s, unicode.IsSpace)], on the reversed string. *)
Definition TrimRightSpace (s : string) : string :=
  string_rev (trim_loop space_width_last (len s) (string_rev s)).

(** [strings.TrimSpace]: its ASCII fast path and its fall-back to
    [TrimFunc] both remove the leading, then the trailing white space
    runes. *)
Definition TrimSpace (s : string) : string :=
  TrimRightSpace (TrimLeftSpace s).

(** [strings.TrimLeft(s, "0")] *)
Definition TrimLeft0 (s : string) : string :=
  slice_from (scan_while (fun c => byte_val c =? 48) s) s.

(** [strings.HasPrefix]: [len(s) >= len(prefix) && s[:len(prefix)] ==
    prefix] *)
Definition HasPrefix (s pre : string) : bool :=
  (len pre <=? len s)%nat && String.eqb (slice_to (len pre) s) pre.

(** [strings.HasSuffix]: [len(s) >= len(suffix) &&
    s[len(s)-len(suffix):] == suffix] *)
Definition HasSuffix (s suffix : string) : bool :=
  (len suffix <=? len s)%nat
  && String.eqb (slice_from (len s - len suffix) s) suffix.

(** [strings.TrimSuffix] and [strings.TrimPrefix] *)
Definition TrimSuffix (s suffix : string) : string :=
  if HasSuffix s suffix then slice_to (len s - len suffix) s else s.

Definition TrimPrefix (s pre : string) : string :=
  if HasPrefix s pre then slice_from (len pre) s else s.

(** [strings.IndexByte(s, c)]: the index of the first [c] in [s], [None]
    for Go's -1. *)
Fixpoint IndexByte (s : string) (c : ascii) : option nat :=
  match s with
  | String d r => if Ascii.eqb d c then Some O else S <$> IndexByte r c
  | EmptyString => None
  end.

End strings.

(** ** Package [strconv] *)

Module strconv.

(** The two causes of a [*strconv.NumError]. *)
Inductive NumError := ErrSyntax | ErrRange.

Definition maxUint64 : Z := 18446744073709551615.

(** The digit loop of [strconv.ParseUint(s, 10, 64)], with [n] the value
    read so far. A byte that is no decimal digit is a syntax error (value
    0); if [n * 10] or [n * 10 + d] does not fit 64 bits the loop stops at
    once with [maxUint64] and a range error. *)
Fixpoint ParseUint_loop (s : string) (n : Z) : Z * option NumError :=
  match s with
  | EmptyString => (n, None)
  | String c r =>
      if negb ((48 <=? byte_val c) && (byte_val c <=? 57)) then (0, Some ErrSyntax)
      else
        let d := byte_val c - 48 in
        let cutoff := maxUint64 / 10 + 1 in
        if cutoff <=? n then (maxUint64, Some ErrRange)
        else
          let n10 := n * 10 in
          let n1 := (n10 + d) mod 2 ^ 64 in
          if (n1 <? n10) || (maxUint64 <? n1) then (maxUint64, Some ErrRange)
          else ParseUint_loop r n1
  end.

Definition ParseUint (s : string) : Z * option NumError :=
  if is_empty s then (0, Some ErrSyntax) else ParseUint_loop s 0.

(** [strconv.ParseInt(s, 10, 64)]: the value and the error. On a range
    error the value is the nearest bound. *)
Definition ParseInt (s : string) : Z * option NumError :=
  match s with
  | EmptyString => (0, Some ErrSyntax)
  | String c0 r0 =>
      let neg := Ascii.eqb c0 "-" in
      let s' := if Ascii.eqb c0 "+" || neg then r0 else s in
      let '(un, err) := ParseUint s' in
      match err with
      | Some ErrSyntax => (0, Some ErrSyntax)
      | _ =>
          let cutoff := 2 ^ 63 in
          if negb neg && (cutoff <=? un) then (cutoff - 1, Some ErrRange)
          else if neg && (cutoff <? un) then (- cutoff, Some ErrRange)
          else (if neg then - un else un, None)
      end
  end.

(** The fast path of [strconv.Atoi] on a 64-bit platform, taken when
    [0 < len(s) < 19]: no overflow is possible. *)
Fixpoint Atoi_fast (s : string) (n : Z) : option Z :=
  match s with
  | EmptyString => Some n
  | String c r =>
      let ch := (byte_val c - 48) mod 256 in
      if 9 <? ch then None else Atoi_fast r (n * 10 + ch)
  end.

Definition Atoi (s : string) : Z * option NumError :=
  if ((0 <? len s) && (len s <? 19))%nat then
    match s with
    | EmptyString => (0, Some ErrSyntax)
    | String c0 r0 =>
        let signed := Ascii.eqb c0 "-" || Ascii.eqb c0 "+" in
        let s' := if signed then r0 else s in
        if signed && (len s' <? 1)%nat then (0, Some ErrSyntax)
        else match Atoi_fast s' 0 with
             | None => (0, Some ErrSyntax)
             | Some n => (if Ascii.eqb c0 "-" then - n else n, None)
             end
    end
  else ParseInt s.

(** [strconv.FormatInt(i, 10)]: the decimal digits of [u >= 0] are put in
    front of [acc], least significant first; a 64-bit value has at most 20
    digits. *)
Fixpoint formatBits (fuel : nat) (u : Z) (acc : string) : string :=
  match fuel with
  | O => acc
  | S fuel' =>
      let acc' := String (ascii_of_N (Z.to_N (48 + u mod 10))) acc in
      if u <? 10 then acc' else formatBits fuel' (u / 10) acc'
  end.

Definition FormatInt (i : Z) : string :=
  if i <? 0 then String "-" (formatBits 20 (- i) "") else formatBits 20 i "".

End strconv.

(** ** Errors *)

(** The error numbers with which the calls into [os] fail below, and
    their [syscall.Errno.Error()]. *)
Inductive Errno := ENOENT | ENOTDIR | ENOTEMPTY.

Definition Errno_Error (e : Errno) : string :=
  match e with
  | ENOENT => "no such file or directory"
  | ENOTDIR => "not a directory"
  | ENOTEMPTY => "directory not empty"
  end.

(** A Go [error] value: [errors.New] and [fmt.Errorf] without [%w] give an
    [errorString]; [fmt.Errorf("<msg>: %w", err)] gives a [wrapError]; a
    failed call into [os] gives a [*PathError] with the operation, the
    path and the error number. *)
Inductive error :=
| errorString (msg : string)
| wrapError (msg : string) (err : error)
| PathError (op path : string) (errno : Errno).

(** [err.Error()] *)
Fixpoint Error (e : error) : string :=
  match e with
  | errorString msg => msg
  | wrapError msg err => msg ++ ": " ++ Error err
  | PathError op path errno => op ++ " " ++ path ++ ": " ++ Errno_Error errno
  end.

(** [os.IsNotExist(err)]: it holds of a [*PathError] of [ENOENT], and
    does not look inside an error wrapped with [%w]. *)
Definition IsNotExist (e : error) : bool :=
  match e with
  | PathError _ _ ENOENT => true
  | _ => false
  end.

(** A result [(T, error)] of which one side is nil. *)
Inductive result (T : Type) :=
| Ok (x : T)
| Err (e : error).
Arguments Ok {T} x.
Arguments Err {T} e.

(** ** Package [bufio] *)

Module bufio.

(** [bufio.MaxScanTokenSize] *)
Definition MaxScanTokenSize : Z := 64 * 1024.

(** [dropCR]: a final carriage return is dropped. *)
Definition dropCR (data : string) : string :=
  if strings.HasSuffix data (String "013" "") then slice_to (len data - 1) data
  else data.

(** The tokens [Scanner.Scan] produces with the split function
    [ScanLines], for a scanner over the bytes [data] that are left. The
    line up to the next newline (or the rest of an input that does not end
    in one) is a token; a line of [MaxScanTokenSize] bytes or more fills
    the buffer before its end is seen, and [Scan] stops there for good
    ([ErrTooLong], which [parseControl] does not look at). Every token
    takes at least one byte. *)
Fixpoint Scan_loop (fuel : nat) (data : string) : list string :=
  match fuel with
  | O => []
  | S fuel' =>
      if is_empty data then []
      else match strings.IndexByte data "010" with
           | Some i =>
               if Z.of_nat i <? MaxScanTokenSize
               then dropCR (slice_to i data) :: Scan_loop fuel' (slice_from (S i) data)
               else []
           | None =>
               if Z.of_nat (len data) <? MaxScanTokenSize then [dropCR data] else []
           end
  end.

Definition ScanLines (data : string) : list string := Scan_loop (len data) data.

End bufio.

(** ** Package [path/filepath] (Unix) *)

Module filepath.

(** The elements of a path between its separators. *)
Fixpoint split_sep (s : string) (cur : string) : list string :=
  match s with
  | EmptyString => [cur]
  | String c r =>
      if Ascii.eqb c "/" then cur :: split_sep r ""
      else split_sep r (cur ++ String c "")
  end.

(** [strings.Join(elems, "/")] *)
Fixpoint join_sep (elems : list string) : string :=
  match elems with
  | [] => ""
  | [e] => e
  | e :: es => e ++ "/" ++ join_sep es
  end.

(** One element read by [Clean], with [out] the elements written so far,
    last first: an empty element and [.] are skipped; [..] removes the
    last element written, unless there is none or it is a [..] that was
    kept, in which case a path that is not rooted keeps the [..] and a
    rooted one drops it. *)
Definition clean_step (rooted : bool) (out : list string) (e : string) : list string :=
  if is_empty e || String.eqb e "." then out
  else if String.eqb e ".." then
    match out with
    | top :: out' =>
        if String.eqb top ".." then (if rooted then out else e :: out) else out'
    | [] => if rooted then out else [e]
    end
  else e :: out.

(** [filepath.Clean] *)
Definition Clean (path : string) : string :=
  if is_empty path then "."
  else
    let rooted := strings.HasPrefix path "/" in
    let out := foldl (clean_step rooted) [] (split_sep path "") in
    let body := join_sep (rev out) in
    if rooted then "/" ++ body
    else if is_empty body then "." else body.

(** [filepath.Join]: the elements from the first one that is not empty are
    joined with the separator, and the result is cleaned. *)
Fixpoint Join (elem : list string) : string :=
  match elem with
  | [] => ""
  | e :: es => if is_empty e then Join es else Clean (join_sep elem)
  end.

End filepath.

(** ** Package [fmt] and the conversion to [float64] *)

Module fmt.

(** The integer nearest to [n / d], for [d > 0]; of two integers that are
    equally near, the even one. *)
Definition round_half_even (n d : Z) : Z :=
  let q := n / d in
  let r := n mod d in
  if 2 * r <? d then q
  else if d <? 2 * r then q + 1
  else if Z.even q then q else q + 1.

(** [float64(n)] for an [int64] [n >= 0]: a float64 has 53 bits of
    precision, so an integer of more bits is rounded to the nearest
    multiple of the power of two that leaves 53, ties to even. The value
    is an integer. *)
Definition float64_of_int (n : Z) : Z :=
  let e := Z.log2 n - 52 in
  if e <=? 0 then n else round_half_even n (2 ^ e) * 2 ^ e.

(** [fmt.Sprintf("%.1f", x)] for the float64 [x = num / den] with
    [num >= 0] and [den > 0]: the decimal expansion of [x] is exact and is
    rounded to one digit behind the point, ties to even. *)
Definition Sprintf_1f (num den : Z) : string :=
  let tenths := round_half_even (num * 10) den in
  strconv.FormatInt (tenths / 10) ++ "." ++ strconv.FormatInt (tenths mod 10).

End fmt.

(** * Package [deb] *)

Module deb.

(** ** Version comparison *)

(** [charOrder]: [~] sorts before everything, letters before the other
    bytes. *)
Definition charOrder (c : ascii) : Z :=
  if Ascii.eqb c "~" then -1
  else if (byte_val "A" <=? byte_val c) && (byte_val c <=? byte_val "Z") then byte_val c
  else if (byte_val "a" <=? byte_val c) && (byte_val c <=? byte_val "z") then byte_val c
  else byte_val c + 256.

(** One round of the loop of [compareNonDigits] on the orders [ca] and
    [cb]; [None] when the loop goes on. *)
Definition order_cmp (ca cb : Z) : option Z :=
  if negb (ca =? cb) then Some (if ca <? cb then -1 else 1) else None.

(** [compareNonDigits]: the loop [for i := 0; i < len(a) || i < len(b);
    i++] reads [a] and [b] in step; an exhausted side has order 0. *)
Fixpoint compareNonDigits (a b : string) {struct a} : Z :=
  match a with
  | String xa a' =>
      match b with
      | String xb b' =>
          match order_cmp (charOrder xa) (charOrder xb) with
          | Some r => r
          | None => compareNonDigits a' b'
          end
      | EmptyString =>
          match order_cmp (charOrder xa) 0 with
          | Some r => r
          | None => compareNonDigits a' EmptyString
          end
      end
  | EmptyString =>
      (fix only_b (b : string) : Z :=
         match b with
         | String xb b' =>
             match order_cmp 0 (charOrder xb) with
             | Some r => r
             | None => only_b b'
             end
         | EmptyString => 0
         end) b
  end.

Definition extractNonDigits (s : string) : string * string :=
  let i := scan_while (fun c => negb (unicode.IsDigit c)) s in
  (slice_to i s, slice_from i s).

Definition extractDigits (s : string) : string * string :=
  let i := scan_while unicode.IsDigit s in
  (slice_to i s, slice_from i s).

(** [compareDigits]: leading zeros are trimmed, the empty run becomes
    ["0"], and the values [strconv.ParseInt] returns are compared; its
    error is dropped. *)
Definition compareDigits (a b : string) : Z :=
  let a := strings.TrimLeft0 a in
  let b := strings.TrimLeft0 b in
  let a := if is_empty a then "0" else a in
  let b := if is_empty b then "0" else b in
  let numA := fst (strconv.ParseInt a) in
  let numB := fst (strconv.ParseInt b) in
  if numA <? numB then -1
  else if numB <? numA then 1
  else 0.

(** [compareVersionPart]: each round of [for len(a) > 0 || len(b) > 0]
    takes a non-digit run and a digit run from both strings, so it removes
    at least one byte from a string that is not empty: [len a + len b]
    rounds are enough (see [compareVersionPart_loop_fuel]). *)
Fixpoint compareVersionPart_loop (fuel : nat) (a b : string) : Z :=
  match fuel with
  | O => 0
  | S fuel' =>
      if (0 <? len a)%nat || (0 <? len b)%nat then
        let '(nonDigitA, restA) := extractNonDigits a in
        let '(nonDigitB, restB) := extractNonDigits b in
        let cmp := compareNonDigits nonDigitA nonDigitB in
        if negb (cmp =? 0) then cmp
        else
          let '(digitA, restA) := extractDigits restA in
          let '(digitB, restB) := extractDigits restB in
          let cmp := compareDigits digitA digitB in
          if negb (cmp =? 0) then cmp
          else compareVersionPart_loop fuel' restA restB
      else 0
  end.

Definition compareVersionPart (a b : string) : Z :=
  compareVersionPart_loop (len a + len b) a b.

(** [versionRegex = ^(?:(\d+):)?([^-]+)(?:-(.+))?$], matched as Go's
    [regexp] does (leftmost, preferring the first alternative and the
    longest repetition, [.] not matching a newline).

    [match_tail s] matches [([^-]+)(?:-(.+))?$] against the whole of [s]:
    the class [[^-]+] takes the bytes before the first hyphen and cannot
    give any back (the next byte would have to be a hyphen or the end);
    if a hyphen follows, [.+] must take the rest, which is then not empty
    and holds no newline. It returns the groups 2 and 3. *)
Definition match_tail (s : string) : option (string * string) :=
  let i := scan_while (fun c => negb (Ascii.eqb c "-")) s in
  let upstream := slice_to i s in
  let rest := slice_from i s in
  if is_empty upstream then None
  else match rest with
       | EmptyString => Some (upstream, "")
       | String _ revision =>
           if negb (is_empty revision)
              && all_bytes (fun c => negb (byte_val c =? 10)) revision
           then Some (upstream, revision)
           else None
       end.

(** [versionRegex.FindStringSubmatch]: the groups 1, 2 and 3, an unmatched
    group being [""]. The epoch group [(\d+):] is tried first: it takes the
    leading digits and needs a colon after them; when the tail does not
    match behind it, the match is tried again without an epoch. *)
Definition versionRegex (s : string) : option (string * string * string) :=
  let i := scan_while unicode.IsDigit s in
  let without_epoch :=
    match match_tail s with
    | Some (u, r) => Some ("", u, r)
    | None => None
    end in
  match slice_from i s with
  | String c tail =>
      if (0 <? i)%nat && Ascii.eqb c ":" then
        match match_tail tail with
        | Some (u, r) => Some (slice_to i s, u, r)
        | None => without_epoch
        end
      else without_epoch
  | EmptyString => without_epoch
  end.

(** [ParseVersion]: epoch, upstream and revision. *)
Definition ParseVersion (version : string) : Z * string * string :=
  match versionRegex version with
  | None => (0, version, "")
  | Some (m1, m2, m3) =>
      let epoch := if negb (is_empty m1) then fst (strconv.Atoi m1) else 0 in
      (epoch, m2, m3)
  end.

(** [Compare] *)
Definition Compare (a b : string) : Z :=
  let '(epochA, upstreamA, revisionA) := ParseVersion a in
  let '(epochB, upstreamB, revisionB) := ParseVersion b in
  if negb (epochA =? epochB) then
    if epochA <? epochB then -1 else 1
  else
    let cmp := compareVersionPart upstreamA upstreamB in
    if negb (cmp =? 0) then cmp
    else compareVersionPart revisionA revisionB.

(** The body of the inner loop of [SortVersions]: the versions at [i] and
    [j] change places when the one at [i] is the older one. Both indices
    are within the slice when the loops call it. *)
Definition swap_if_less (versions : list string) (i j : nat) : list string :=
  match versions !! i, versions !! j with
  | Some vi, Some vj =>
      if Compare vi vj <? 0 then <[i := vj]> (<[j := vi]> versions) else versions
  | _, _ => versions
  end.

(** [SortVersions]: [for i := 0; i < len(versions)-1; i++ { for j := i + 1;
    j < len(versions); j++ {...} }], on the slice as a value. *)
Definition SortVersions (versions : list string) : list string :=
  let n := length versions in
  foldl (fun versions i =>
           foldl (fun versions j => swap_if_less versions i j) versions
                 (seq (i + 1) (n - (i + 1))))
        versions (seq 0 (n - 1)).

(** ** Control stanzas *)

(** [Package]: the metadata of one archive. [Section_] is the Go field
    [Section]. *)
Record Package := mkPackage {
  Name : string;
  Version : string;
  Architecture : string;
  Maintainer : string;
  Description : string;
  Depends : string;
  PreDepends : string;
  Recommends : string;
  Suggests : string;
  Conflicts : string;
  Provides : string;
  Replaces : string;
  Section_ : string;
  Priority : string;
  Homepage : string;
  Size : Z;
  InstalledSize : Z;
  Filename : string;
  MD5sum : string;
  SHA1 : string;
  SHA256 : string
}.

(** [&Package{}]: every string empty, every number 0. *)
Definition emptyPackage : Package :=
  mkPackage "" "" "" "" "" "" "" "" "" "" "" "" "" "" "" 0 0 "" "" "" "".

(** Assignments [pkg.F = v]. *)
Definition set_Name (v : string) (p : Package) : Package :=
  mkPackage v p.(Version) p.(Architecture) p.(Maintainer) p.(Description)
    p.(Depends) p.(PreDepends) p.(Recommends) p.(Suggests) p.(Conflicts)
    p.(Provides) p.(Replaces) p.(Section_) p.(Priority) p.(Homepage)
    p.(Size) p.(InstalledSize) p.(Filename) p.(MD5sum) p.(SHA1) p.(SHA256).
Definition set_Version (v : string) (p : Package) : Package :=
  mkPackage p.(Name) v p.(Architecture) p.(Maintainer) p.(Description)
    p.(Depends) p.(PreDepends) p.(Recommends) p.(Suggests) p.(Conflicts)
    p.(Provides) p.(Replaces) p.(Section_) p.(Priority) p.(Homepage)
    p.(Size) p.(InstalledSize) p.(Filename) p.(MD5sum) p.(SHA1) p.(SHA256).
Definition set_Architecture (v : string) (p : Package) : Package :=
  mkPackage p.(Name) p.(Version) v p.(Maintainer) p.(Description)
    p.(Depends) p.(PreDepends) p.(Recommends) p.(Suggests) p.(Conflicts)
    p.(Provides) p.(Replaces) p.(Section_) p.(Priority) p.(Homepage)
    p.(Size) p.(InstalledSize) p.(Filename) p.(MD5sum) p.(SHA1) p.(SHA256).
Definition set_Maintainer (v : string) (p : Package) : Package :=
  mkPackage p.(Name) p.(Version) p.(Architecture) v p.(Description)
    p.(Depends) p.(PreDepends) p.(Recommends) p.(Suggests) p.(Conflicts)
    p.(Provides) p.(Replaces) p.(Section_) p.(Priority) p.(Homepage)
    p.(Size) p.(InstalledSize) p.(Filename) p.(MD5sum) p.(SHA1) p.(SHA256).
Definition set_Description (v : string) (p : Package) : Package :=
  mkPackage p.(Name) p.(Version) p.(Architecture) p.(Maintainer) v
    p.(Depends) p.(PreDepends) p.(Recommends) p.(Suggests) p.(Conflicts)
    p.(Provides) p.(Replaces) p.(Section_) p.(Priority) p.(Homepage)
    p.(Size) p.(InstalledSize) p.(Filename) p.(MD5sum) p.(SHA1) p.(SHA256).
Definition set_Depends (v : string) (p : Package) : Package :=
  mkPackage p.(Name) p.(Version) p.(Architecture) p.(Maintainer)
    p.(Description) v p.(PreDepends) p.(Recommends) p.(Suggests)
    p.(Conflicts) p.(Provides) p.(Replaces) p.(Section_) p.(Priority)
    p.(Homepage) p.(Size) p.(InstalledSize) p.(Filename) p.(MD5sum) p.(SHA1)
    p.(SHA256).
Definition set_PreDepends (v : string) (p : Package) : Package :=
  mkPackage p.(Name) p.(Version) p.(Architecture) p.(Maintainer)
    p.(Description) p.(Depends) v p.(Recommends) p.(Suggests) p.(Conflicts)
    p.(Provides) p.(Replaces) p.(Section_) p.(Priority) p.(Homepage)
    p.(Size) p.(InstalledSize) p.(Filename) p.(MD5sum) p.(SHA1) p.(SHA256).
Definition set_Recommends (v : string) (p : Package) : Package :=
  mkPackage p.(Name) p.(Version) p.(Architecture) p.(Maintainer)
    p.(Description) p.(Depends) p.(PreDepends) v p.(Suggests) p.(Conflicts)
    p.(Provides) p.(Replaces) p.(Section_) p.(Priority) p.(Homepage)
    p.(Size) p.(InstalledSize) p.(Filename) p.(MD5sum) p.(SHA1) p.(SHA256).
Definition set_Suggests (v : string) (p : Package) : Package :=
  mkPackage p.(Name) p.(Version) p.(Architecture) p.(Maintainer)
    p.(Description) p.(Depends) p.(PreDepends) p.(Recommends) v
    p.(Conflicts) p.(Provides) p.(Replaces) p.(Section_) p.(Priority)
    p.(Homepage) p.(Size) p.(InstalledSize) p.(Filename) p.(MD5sum) p.(SHA1)
    p.(SHA256).
Definition set_Conflicts (v : string) (p : Package) : Package :=
  mkPackage p.(Name) p.(Version) p.(Architecture) p.(Maintainer)
    p.(Description) p.(Depends) p.(PreDepends) p.(Recommends) p.(Suggests) v
    p.(Provides) p.(Replaces) p.(Section_) p.(Priority) p.(Homepage)
    p.(Size) p.(InstalledSize) p.(Filename) p.(MD5sum) p.(SHA1) p.(SHA256).
Definition set_Provides (v : string) (p : Package) : Package :=
  mkPackage p.(Name) p.(Version) p.(Architecture) p.(Maintainer)
    p.(Description) p.(Depends) p.(PreDepends) p.(Recommends) p.(Suggests)
    p.(Conflicts) v p.(Replaces) p.(Section_) p.(Priority) p.(Homepage)
    p.(Size) p.(InstalledSize) p.(Filename) p.(MD5sum) p.(SHA1) p.(SHA256).
Definition set_Replaces (v : string) (p : Package) : Package :=
  mkPackage p.(Name) p.(Version) p.(Architecture) p.(Maintainer)
    p.(Description) p.(Depends) p.(PreDepends) p.(Recommends) p.(Suggests)
    p.(Conflicts) p.(Provides) v p.(Section_) p.(Priority) p.(Homepage)
    p.(Size) p.(InstalledSize) p.(Filename) p.(MD5sum) p.(SHA1) p.(SHA256).
Definition set_Section_ (v : string) (p : Package) : Package :=
  mkPackage p.(Name) p.(Version) p.(Architecture) p.(Maintainer)
    p.(Description) p.(Depends) p.(PreDepends) p.(Recommends) p.(Suggests)
    p.(Conflicts) p.(Provides) p.(Replaces) v p.(Priority) p.(Homepage)
    p.(Size) p.(InstalledSize) p.(Filename) p.(MD5sum) p.(SHA1) p.(SHA256).
Definition set_Priority (v : string) (p : Package) : Package :=
  mkPackage p.(Name) p.(Version) p.(Architecture) p.(Maintainer)
    p.(Description) p.(Depends) p.(PreDepends) p.(Recommends) p.(Suggests)
    p.(Conflicts) p.(Provides) p.(Replaces) p.(Section_) v p.(Homepage)
    p.(Size) p.(InstalledSize) p.(Filename) p.(MD5sum) p.(SHA1) p.(SHA256).
Definition set_Homepage (v : string) (p : Package) : Package :=
  mkPackage p.(Name) p.(Version) p.(Architecture) p.(Maintainer)
    p.(Description) p.(Depends) p.(PreDepends) p.(Recommends) p.(Suggests)
    p.(Conflicts) p.(Provides) p.(Replaces) p.(Section_) p.(Priority) v
    p.(Size) p.(InstalledSize) p.(Filename) p.(MD5sum) p.(SHA1) p.(SHA256).
Definition set_Size (v : Z) (p : Package) : Package :=
  mkPackage p.(Name) p.(Version) p.(Architecture) p.(Maintainer)
    p.(Description) p.(Depends) p.(PreDepends) p.(Recommends) p.(Suggests)
    p.(Conflicts) p.(Provides) p.(Replaces) p.(Section_) p.(Priority)
    p.(Homepage) v p.(InstalledSize) p.(Filename) p.(MD5sum) p.(SHA1)
    p.(SHA256).
Definition set_InstalledSize (v : Z) (p : Package) : Package :=
  mkPackage p.(Name) p.(Version) p.(Architecture) p.(Maintainer)
    p.(Description) p.(Depends) p.(PreDepends) p.(Recommends) p.(Suggests)
    p.(Conflicts) p.(Provides) p.(Replaces) p.(Section_) p.(Priority)
    p.(Homepage) p.(Size) v p.(Filename) p.(MD5sum) p.(SHA1) p.(SHA256).
Definition set_Filename (v : string) (p : Package) : Package :=
  mkPackage p.(Name) p.(Version) p.(Architecture) p.(Maintainer)
    p.(Description) p.(Depends) p.(PreDepends) p.(Recommends) p.(Suggests)
    p.(Conflicts) p.(Provides) p.(Replaces) p.(Section_) p.(Priority)
    p.(Homepage) p.(Size) p.(InstalledSize) v p.(MD5sum) p.(SHA1)
    p.(SHA256).
Definition set_MD5sum (v : string) (p : Package) : Package :=
  mkPackage p.(Name) p.(Version) p.(Architecture) p.(Maintainer)
    p.(Description) p.(Depends) p.(PreDepends) p.(Recommends) p.(Suggests)
    p.(Conflicts) p.(Provides) p.(Replaces) p.(Section_) p.(Priority)
    p.(Homepage) p.(Size) p.(InstalledSize) p.(Filename) v p.(SHA1)
    p.(SHA256).
Definition set_SHA1 (v : string) (p : Package) : Package :=
  mkPackage p.(Name) p.(Version) p.(Architecture) p.(Maintainer)
    p.(Description) p.(Depends) p.(PreDepends) p.(Recommends) p.(Suggests)
    p.(Conflicts) p.(Provides) p.(Replaces) p.(Section_) p.(Priority)
    p.(Homepage) p.(Size) p.(InstalledSize) p.(Filename) p.(MD5sum) v
    p.(SHA256).
Definition set_SHA256 (v : string) (p : Package) : Package :=
  mkPackage p.(Name) p.(Version) p.(Architecture) p.(Maintainer)
    p.(Description) p.(Depends) p.(PreDepends) p.(Recommends) p.(Suggests)
    p.(Conflicts) p.(Provides) p.(Replaces) p.(Section_) p.(Priority)
    p.(Homepage) p.(Size) p.(InstalledSize) p.(Filename) p.(MD5sum) p.(SHA1)
    v.


(** The state of the loop of [parseControl]: the record being filled and
    the variables [currentField] and [currentValue] of the closure. *)
Record scan_state := mkState {
  st_pkg : Package;
  currentField : string;
  currentValue : string
}.

(** [saveField]: the value gathered for the current field is trimmed and
    stored; a field the [switch] does not list is dropped. *)
Definition saveField (st : scan_state) : Package :=
  let pkg := st.(st_pkg) in
  let field := st.(currentField) in
  if is_empty field then pkg
  else
    let value := strings.TrimSpace st.(currentValue) in
    if String.eqb field "Package" then set_Name value pkg
    else if String.eqb field "Version" then set_Version value pkg
    else if String.eqb field "Architecture" then set_Architecture value pkg
    else if String.eqb field "Maintainer" then set_Maintainer value pkg
    else if String.eqb field "Description" then set_Description value pkg
    else if String.eqb field "Depends" then set_Depends value pkg
    else if String.eqb field "Pre-Depends" then set_PreDepends value pkg
    else if String.eqb field "Recommends" then set_Recommends value pkg
    else if String.eqb field "Suggests" then set_Suggests value pkg
    else if String.eqb field "Conflicts" then set_Conflicts value pkg
    else if String.eqb field "Provides" then set_Provides value pkg
    else if String.eqb field "Replaces" then set_Replaces value pkg
    else if String.eqb field "Section" then set_Section_ value pkg
    else if String.eqb field "Priority" then set_Priority value pkg
    else if String.eqb field "Homepage" then set_Homepage value pkg
    else if String.eqb field "Installed-Size" then
      match strconv.ParseInt value with
      | (size, None) => set_InstalledSize size pkg
      | (_, Some _) => pkg
      end
    else pkg.

(** A line that starts with a space or a tab continues the current
    value. *)
Definition is_continuation (line : string) : bool :=
  match line with
  | String c _ => Ascii.eqb c " " || Ascii.eqb c "009"
  | EmptyString => false
  end.

(** The body of [for scanner.Scan()]. A line that starts no field (no
    colon, or a colon at index 0) still saves the current field and leaves
    [currentField] and [currentValue] as they are. *)
Definition scan_line (st : scan_state) (line : string) : scan_state :=
  if is_continuation line then
    mkState st.(st_pkg) st.(currentField)
            (st.(currentValue) ++ String "010" "" ++ line)
  else
    let pkg := saveField st in
    match strings.IndexByte line ":" with
    | Some (S _ as idx) =>
        mkState pkg (slice_to idx line)
                (if (idx + 1 <? len line)%nat
                 then strings.TrimSpace (slice_from (idx + 1) line)
                 else "")
    | _ => mkState pkg st.(currentField) st.(currentValue)
    end.

(** [parseControl] *)
Definition parseControl (data : string) : result Package :=
  let st := foldl scan_line (mkState emptyPackage "" "") (bufio.ScanLines data) in
  let pkg := saveField st in
  if is_empty pkg.(Name) then Err (errorString "missing Package field")
  else if is_empty pkg.(Version) then Err (errorString "missing Version field")
  else if is_empty pkg.(Architecture) then Err (errorString "missing Architecture field")
  else Ok pkg.

(** The closure [writeField] of [ControlString], on the builder [b]. *)
Definition writeField (b : string) (name value : string) : string :=
  if negb (is_empty value) then b ++ name ++ ": " ++ value ++ String "010" ""
  else b.

(** [ControlString] *)
Definition ControlString (p : Package) : string :=
  let b := "" in
  let b := writeField b "Package" p.(Name) in
  let b := writeField b "Version" p.(Version) in
  let b := writeField b "Architecture" p.(Architecture) in
  let b := writeField b "Maintainer" p.(Maintainer) in
  let b := if 0 <? p.(InstalledSize)
           then writeField b "Installed-Size" (strconv.FormatInt p.(InstalledSize))
           else b in
  let b := writeField b "Pre-Depends" p.(PreDepends) in
  let b := writeField b "Depends" p.(Depends) in
  let b := writeField b "Recommends" p.(Recommends) in
  let b := writeField b "Suggests" p.(Suggests) in
  let b := writeField b "Conflicts" p.(Conflicts) in
  let b := writeField b "Provides" p.(Provides) in
  let b := writeField b "Replaces" p.(Replaces) in
  let b := writeField b "Section" p.(Section_) in
  let b := writeField b "Priority" p.(Priority) in
  let b := writeField b "Homepage" p.(Homepage) in
  let b := writeField b "Filename" p.(Filename) in
  let b := writeField b "Size" (strconv.FormatInt p.(Size)) in
  let b := writeField b "MD5sum" p.(MD5sum) in
  let b := writeField b "SHA1" p.(SHA1) in
  let b := writeField b "SHA256" p.(SHA256) in
  let b := writeField b "Description" p.(Description) in
  b.

(** [PoolPath]: [None] stands for the panic of [p.Name[:1]] on an empty
    name. *)
Definition PoolPath (p : Package) (filename : string) : option string :=
  if strings.HasPrefix p.(Name) "lib" && (3 <? len p.(Name))%nat then
    Some (filepath.Join ["pool"; "main"; slice_to 4 p.(Name); p.(Name); filename])
  else if (1 <=? len p.(Name))%nat then
    Some (filepath.Join ["pool"; "main"; slice_to 1 p.(Name); p.(Name); filename])
  else None.

(** [DebFilename] *)
Definition DebFilename (p : Package) : string :=
  p.(Name) ++ "_" ++ p.(Version) ++ "_" ++ p.(Architecture) ++ ".deb".

(** ** Extraction from an archive *)

(** The decoders of [archive/tar], [compress/gzip], [github.com/blakesmith/ar]
    and the digests of [crypto] are outside the repository. An archive is
    represented by what they report on it.

    A step of a [tar.Reader]: [Next] fails, or gives a header name and an
    entry that [io.ReadAll] reads or fails on. The list ends at [io.EOF]. *)
Definition tarStep : Type := result (string * result string).

(** A member of the [ar] container: its header name, what [io.ReadAll]
    gives on its payload, the tar stream behind [gzip.NewReader] (or the
    error of [gzip.NewReader]), and the tar stream of the raw payload. *)
Record Member := mkMember {
  m_name : string;
  m_read : result string;
  m_gzip : result (list tarStep);
  m_tar : list tarStep
}.

(** A file as [Parse] sees it: the errors of [os.Open], [f.Stat],
    [io.Copy] and [f.Seek] if any, the size, the three hex digests of the
    whole file, and the steps of the [ar.Reader] ([Next] fails, or gives a
    member), ending at [io.EOF]. *)
Record File := mkFile {
  f_open : option error;
  f_stat : option error;
  f_copy : option error;
  f_seek : option error;
  f_size : Z;
  f_md5 : string;
  f_sha1 : string;
  f_sha256 : string;
  f_members : list (result Member)
}.

(** The temporary file of [extractControlFromXz] and
    [extractControlFromZstd]: the errors of [os.CreateTemp],
    [tmpFile.Write] and [tmpFile.Close] if any. *)
Record TempFile := mkTempFile {
  t_create : option error;
  t_write : option error;
  t_close : option error
}.

(** [findControlInTar] *)
Fixpoint findControlInTar (tarReader : list tarStep) : result string :=
  match tarReader with
  | [] => Err (errorString "control file not found in tar")
  | Err e :: _ => Err (wrapError "read tar" e)
  | Ok (name, content) :: rest =>
      if String.eqb (strings.TrimPrefix name "./") "control" then content
      else findControlInTar rest
  end.

(** [extractControlWithCmd] *)
Definition extractControlWithCmd (cmd : string) (args : list string) : result string :=
  Err (errorString "xz/zstd decompression not implemented - use gzip").

(** [extractControlFromXz] and [extractControlFromZstd] write [data] to a
    temporary file first; [tmpName] is its name. *)
Definition extractControlFromXz (tmp : TempFile) (tmpName : string) (data : string)
  : result string :=
  match tmp.(t_create) with
  | Some err => Err err
  | None =>
      match tmp.(t_write) with
      | Some err => Err err
      | None =>
          match tmp.(t_close) with
          | Some err => Err err
          | None => extractControlWithCmd "xz" ["-dk"; "-c"; tmpName]
          end
      end
  end.

Definition extractControlFromZstd (tmp : TempFile) (tmpName : string) (data : string)
  : result string :=
  match tmp.(t_create) with
  | Some err => Err err
  | None =>
      match tmp.(t_write) with
      | Some err => Err err
      | None =>
          match tmp.(t_close) with
          | Some err => Err err
          | None => extractControlWithCmd "zstd" ["-d"; "-c"; tmpName]
          end
      end
  end.

(** [extractControl], on the member [r] the [ar.Reader] stands at. *)
Definition extractControl (tmp : TempFile) (tmpName : string)
    (r : Member) (archiveName : string) : result string :=
  if strings.HasSuffix archiveName ".gz" then
    match r.(m_gzip) with
    | Err err => Err (wrapError "open gzip" err)
    | Ok tarReader => findControlInTar tarReader
    end
  else if strings.HasSuffix archiveName ".xz" then
    match r.(m_read) with
    | Err err => Err (wrapError "read xz data" err)
    | Ok data => extractControlFromXz tmp tmpName data
    end
  else if strings.HasSuffix archiveName ".zst" then
    match r.(m_read) with
    | Err err => Err (wrapError "read zst data" err)
    | Ok data => extractControlFromZstd tmp tmpName data
    end
  else findControlInTar r.(m_tar).

(** The loop of [Parse] over the members: [None] when it ends with
    [controlData == nil]. *)
Fixpoint find_control (tmp : TempFile) (tmpName : string)
    (arReader : list (result Member)) : result (option string) :=
  match arReader with
  | [] => Ok None
  | Err err :: _ => Err (wrapError "read ar" err)
  | Ok header :: rest =>
      let name := strings.TrimSuffix header.(m_name) "/" in
      if strings.HasPrefix name "control.tar" then
        match extractControl tmp tmpName header name with
        | Err err => Err (wrapError "extract control" err)
        | Ok controlData => Ok (Some controlData)
        end
      else find_control tmp tmpName rest
  end.

(** [Parse] *)
Definition Parse (tmp : TempFile) (tmpName : string) (f : File) : result Package :=
  match f.(f_open) with
  | Some err => Err (wrapError "open deb" err)
  | None =>
  match f.(f_stat) with
  | Some err => Err (wrapError "stat deb" err)
  | None =>
  match f.(f_copy) with
  | Some err => Err (wrapError "calculate checksums" err)
  | None =>
  match f.(f_seek) with
  | Some err => Err (wrapError "seek" err)
  | None =>
  match find_control tmp tmpName f.(f_members) with
  | Err err => Err err
  | Ok None => Err (errorString "control file not found in deb")
  | Ok (Some controlData) =>
      match parseControl controlData with
      | Err err => Err (wrapError "parse control" err)
      | Ok pkg =>
          let pkg := set_Size f.(f_size) pkg in
          let pkg := set_MD5sum f.(f_md5) pkg in
          let pkg := set_SHA1 f.(f_sha1) pkg in
          let pkg := set_SHA256 f.(f_sha256) pkg in
          Ok pkg
      end
  end end end end end.

End deb.

(** * Package [repo] *)

Module repo.

(** ** The directory tree *)

(** What [os.Lstat] tells of a path: a directory, or a file. A file of
    the pool is represented by what [deb.Parse] returns when it reads
    it. *)
Inductive node :=
| Dir
| RegularFile (parsed : result deb.Package).

Definition IsDir (info : node) : bool :=
  match info with Dir => true | RegularFile _ => false end.

(** The tree below the repository root: its paths with their nodes, in the
    order in which [filepath.Walk] visits them (a directory before its
    entries, the entries of a directory in lexical order). *)
Definition FS : Type := list (string * node).

(** [os.Lstat] *)
Fixpoint Lstat (fs : FS) (path : string) : option node :=
  match fs with
  | [] => None
  | (p, n) :: rest => if String.eqb p path then Some n else Lstat rest path
  end.

(** [path] is [root] or lies below it. *)
Definition under (root path : string) : bool :=
  String.eqb path root || strings.HasPrefix path (root ++ "/").

(** [path] is an entry of the directory [dir]. *)
Definition entry_of (dir path : string) : bool :=
  strings.HasPrefix path (dir ++ "/")
  && (match strings.IndexByte (slice_from (len dir + 1) path) "/" with
      | None => true
      | Some _ => false
      end).

(** [os.ReadDir]: the entries of a directory. It opens the path as a
    directory, which fails on a regular file. *)
Definition ReadDir (fs : FS) (path : string) : result (list string) :=
  match Lstat fs path with
  | Some Dir => Ok (List.filter (entry_of path) (map fst fs))
  | Some (RegularFile _) => Err (PathError "open" path ENOTDIR)
  | None => Err (PathError "open" path ENOENT)
  end.

(** [os.Remove]: a file or an empty directory is removed. *)
Definition Remove (fs : FS) (path : string) : result FS :=
  match Lstat fs path with
  | None => Err (PathError "remove" path ENOENT)
  | Some info =>
      if IsDir info && negb (forallb (fun p => negb (entry_of path p)) (map fst fs))
      then Err (PathError "remove" path ENOTEMPTY)
      else Ok (List.filter (fun e => negb (String.eqb (fst e) path)) fs)
  end.

(** The calls [fn(path, info, nil)] of [filepath.Walk], in order, on a
    state [s] that [fn] may change; the first error [fn] returns ends the
    walk. *)
Fixpoint walk_visit {S : Type} (fn : S -> string -> node -> S * option error)
    (visits : list (string * node)) (s : S) : S * option error :=
  match visits with
  | [] => (s, None)
  | (path, info) :: rest =>
      match fn s path info with
      | (s', None) => walk_visit fn rest s'
      | (s', Some err) => (s', Some err)
      end
  end.

(** [filepath.Walk(root, fn)] on the tree [fs]. When [os.Lstat(root)]
    fails, [fn] is called once with that error, and both functions walked
    with below return it as it is. The entries of a directory are read
    before [fn] is called on it, and [fn] removes at most the directory it
    is called on, so the paths visited are those of [fs] below [root]. *)
Definition Walk {S : Type} (fs : FS) (root : string)
    (fn : S -> string -> node -> S * option error) (s : S) : S * option error :=
  match Lstat fs root with
  | None => (s, Some (PathError "lstat" root ENOENT))
  | Some _ => walk_visit fn (List.filter (fun e => under root (fst e)) fs) s
  end.

(** ** Prune *)

Record PruneOptions := mkPruneOptions {
  KeepVersions : Z;
  DryRun : bool
}.

Record PruneResult := mkPruneResult {
  Deleted : list string;
  Kept : list string
}.

Record packageFile := mkPackageFile {
  Path : string;
  Version : string
}.

(** The body of the inner loop of [sortPackageFiles]. *)
Definition swap_if_older (files : list packageFile) (i j : nat) : list packageFile :=
  match files !! i, files !! j with
  | Some fi, Some fj =>
      if deb.Compare fi.(Version) fj.(Version) <? 0
      then <[i := fj]> (<[j := fi]> files)
      else files
  | _, _ => files
  end.

(** [sortPackageFiles]: [for i := 0; i < len(files)-1; i++ { for j := i + 1;
    j < len(files); j++ {...} }] *)
Definition sortPackageFiles (files : list packageFile) : list packageFile :=
  let n := length files in
  foldl (fun files i =>
           foldl (fun files j => swap_if_older files i j) files
                 (seq (i + 1) (n - (i + 1))))
        files (seq 0 (n - 1)).

(** [cleanEmptyDirs]: the function walked with, on the tree as state. *)
Definition clean_fn (root : string) (fs : FS) (path : string) (info : node)
  : FS * option error :=
  if negb (IsDir info) then (fs, None)
  else match ReadDir fs path with
       | Err err => (fs, Some err)
       | Ok entries =>
           if (length entries =? 0)%nat && negb (String.eqb path root) then
             match Remove fs path with
             | Ok fs' => (fs', None)
             | Err err => (fs, Some err)
             end
           else (fs, None)
       end.

Definition cleanEmptyDirs (fs : FS) (root : string) : FS * option error :=
  Walk fs root (clean_fn root) fs.

(** The function [Prune] walks the pool with, on the map [packages] as
    state. *)
Definition prune_fn (packages : gmap string (list packageFile))
    (path : string) (info : node) : gmap string (list packageFile) * option error :=
  if IsDir info || negb (strings.HasSuffix path ".deb") then (packages, None)
  else match info with
       | RegularFile (Ok pkg) =>
           let key := pkg.(deb.Name) ++ "_" ++ pkg.(deb.Architecture) in
           (<[key := (default [] (packages !! key)
                      ++ [mkPackageFile path pkg.(deb.Version)])%list]> packages, None)
       | RegularFile (Err err) => (packages, Some (wrapError ("parse " ++ path) err))
       | Dir => (packages, None)
       end.

(** The loop [for i, pf := range pkgs] on the tree and the result. *)
Fixpoint prune_group (opts : PruneOptions) (pkgs : list packageFile) (i : Z)
    (fs : FS) (res : PruneResult) : FS * result PruneResult :=
  match pkgs with
  | [] => (fs, Ok res)
  | pf :: rest =>
      if i <? opts.(KeepVersions) then
        prune_group opts rest (i + 1) fs
                    (mkPruneResult res.(Deleted) (res.(Kept) ++ [pf.(Path)])%list)
      else
        let res := mkPruneResult (res.(Deleted) ++ [pf.(Path)])%list res.(Kept) in
        if negb opts.(DryRun) then
          match Remove fs pf.(Path) with
          | Err err => (fs, Err (wrapError ("delete " ++ pf.(Path)) err))
          | Ok fs' => prune_group opts rest (i + 1) fs' res
          end
        else prune_group opts rest (i + 1) fs res
  end.

(** The loop [for _, pkgs := range packages], on the groups in the order
    of the iteration. *)
Fixpoint prune_groups (opts : PruneOptions) (groups : list (list packageFile))
    (fs : FS) (res : PruneResult) : FS * result PruneResult :=
  match groups with
  | [] => (fs, Ok res)
  | pkgs :: rest =>
      match prune_group opts (sortPackageFiles pkgs) 0 fs res with
      | (fs', Ok res') => prune_groups opts rest fs' res'
      | (fs', Err err) => (fs', Err err)
      end
  end.

Section WithIteration.

(** Go leaves the order in which [range] visits a map open: [range_order]
    is the order of one run. *)
Variable range_order :
  gmap string (list packageFile) -> list (string * list packageFile).

(** [Prune] after the walk of the pool: the groups are pruned and, unless
    [DryRun], the empty directories cleaned. *)
Definition prune_packages (poolDir : string) (opts : PruneOptions)
    (packages : gmap string (list packageFile)) (fs : FS)
  : FS * result PruneResult :=
  match prune_groups opts (map snd (range_order packages)) fs (mkPruneResult [] []) with
  | (fs', Err err) => (fs', Err err)
  | (fs', Ok result) =>
      if negb opts.(DryRun) then
        match cleanEmptyDirs fs' poolDir with
        | (fs'', Some err) => (fs'', Err (wrapError "clean empty directories" err))
        | (fs'', None) => (fs'', Ok result)
        end
      else (fs', Ok result)
  end.

(** [Prune], for the repository rooted at [Root]: the tree it leaves and
    what it returns. An error of the walk is passed over when
    [os.IsNotExist] holds of it. *)
Definition Prune (Root : string) (fs : FS) (opts : PruneOptions)
  : FS * result PruneResult :=
  let opts := if opts.(KeepVersions) <? 1
              then mkPruneOptions 5 opts.(DryRun) else opts in
  let poolDir := filepath.Join [Root; "pool"; "main"] in
  let '(packages, err) := Walk fs poolDir prune_fn ∅ in
  match err with
  | Some e =>
      if negb (IsNotExist e) then (fs, Err e)
      else prune_packages poolDir opts packages fs
  | None => prune_packages poolDir opts packages fs
  end.

End WithIteration.

(** ** The pool scan of the indexer *)

Section WithSort.

(** [sort.Slice(x, less)], which belongs to the Go library: it is used
    through its contract only (see [sort_contract] below). *)
Variable sort_Slice : (deb.Package -> deb.Package -> bool) -> list deb.Package -> list deb.Package.

(** [filepath.Rel(basepath, targpath)] *)
Variable filepath_Rel : string -> string -> result string.

(** The function [scanPool] walks the pool with, on the slice [packages]
    as state. *)
Definition scan_fn (Root arch : string) (packages : list deb.Package)
    (path : string) (info : node) : list deb.Package * option error :=
  if IsDir info then (packages, None)
  else if negb (strings.HasSuffix path ".deb") then (packages, None)
  else match info with
       | RegularFile (Ok pkg) =>
           if negb (String.eqb pkg.(deb.Architecture) arch)
              && negb (String.eqb pkg.(deb.Architecture) "all")
           then (packages, None)
           else match filepath_Rel Root path with
                | Err err => (packages, Some err)
                | Ok relPath =>
                    ((packages ++ [deb.set_Filename relPath pkg])%list, None)
                end
       | RegularFile (Err err) => (packages, Some (wrapError ("parse " ++ path) err))
       | Dir => (packages, None)
       end.

(** The [less] of [scanPool], on the elements at the two indices. *)
Definition less (x y : deb.Package) : bool :=
  if negb (String.eqb x.(deb.Name) y.(deb.Name))
  then String.ltb x.(deb.Name) y.(deb.Name)
  else 0 <? deb.Compare x.(deb.Version) y.(deb.Version).

(** [scanPool] *)
Definition scanPool (Root : string) (fs : FS) (poolDir arch : string)
  : result (list deb.Package) :=
  let '(packages, err) := Walk fs poolDir (scan_fn Root arch) [] in
  match err with
  | Some e =>
      if negb (IsNotExist e) then Err e else Ok (sort_Slice less packages)
  | None => Ok (sort_Slice less packages)
  end.

End WithSort.

(** Insertion sort, which is what [sort.Slice] runs on a slice of at most
    12 elements: each element moves to the left while it is less than the
    one before it. [insert_back] works on the sorted part with its last
    element first. *)
Fixpoint insert_back {A : Type} (less : A -> A -> bool) (x : A) (racc : list A) : list A :=
  match racc with
  | [] => [x]
  | y :: r => if less x y then y :: insert_back less x r else x :: y :: r
  end.

Definition insertionSort {A : Type} (less : A -> A -> bool) (l : list A) : list A :=
  rev (foldl (fun racc x => insert_back less x racc) [] l).

(** What the documentation of [sort] asks of [less] (a transitive
    ordering, in both senses), and what [sort.Slice] then gives: the same
    elements, none of them less than one before it. *)
Definition transitive_ordering {A : Type} (less : A -> A -> bool) : Prop :=
  (forall x, less x x = false)
  /\ (forall x y z, less x y = true -> less y z = true -> less x z = true)
  /\ (forall x y z, less x y = false -> less y z = false -> less x z = false).

Definition sort_contract {A : Type}
    (sort : (A -> A -> bool) -> list A -> list A) : Prop :=
  forall less l, transitive_ordering less ->
    Permutation (sort less l) l
    /\ StronglySorted (fun x y => less y x = false) (sort less l).

(** ** The size column of the HTML index *)

(** [formatSize]: the quotients [float64(size)/float64(GB)] and the like
    are exact, the divisors being powers of two. *)
Definition formatSize (size : Z) : string :=
  let KB := 1024 in
  let MB := 1024 * KB in
  let GB := 1024 * MB in
  if GB <=? size then fmt.Sprintf_1f (fmt.float64_of_int size) GB ++ " GB"
  else if MB <=? size then fmt.Sprintf_1f (fmt.float64_of_int size) MB ++ " MB"
  else if KB <=? size then fmt.Sprintf_1f (fmt.float64_of_int size) KB ++ " KB"
  else strconv.FormatInt size ++ " B".

End repo.

(** * Notions used in the statements and proofs *)

(** A comparison result that is a sign, and the shape "the first result
    that is not 0" of [Compare], [compareVersionPart] and
    [compareNonDigits]. *)
Definition sign3 (x : Z) : Prop := x = -1 \/ x = 0 \/ x = 1.

Definition first_nonzero (x y : Z) : Z := if negb (x =? 0) then x else y.

(** Transitivity in the form that goes through [first_nonzero]: with
    [p = cmp a b], [q = cmp b c] and [r = cmp a c]. *)
Definition chain (p q r : Z) : Prop :=
  p <= 0 -> q <= 0 -> r <= 0 /\ (r = 0 -> p = 0 /\ q = 0).

(** Comparison of two integers, as [Compare] does for the epochs and
    [compareNonDigits] for two orders. *)
Definition int_cmp (x y : Z) : Z :=
  if negb (x =? y) then (if x <? y then -1 else 1) else 0.

(** The order of the byte at the front, 0 for an exhausted string. *)
Definition head_order (s : string) : Z :=
  match s with String c _ => deb.charOrder c | EmptyString => 0 end.

Definition tail (s : string) : string :=
  match s with String _ r => r | EmptyString => EmptyString end.

(** The number [compareDigits] compares a digit run by. *)
Definition digit_key (s : string) : Z :=
  let t := strings.TrimLeft0 s in
  fst (strconv.ParseInt (if is_empty t then "0" else t)).

(** The number a run of decimal digits denotes, read after the number
    [n]. *)
Fixpoint digits_value (s : string) (n : Z) : Z :=
  match s with
  | EmptyString => n
  | String c r => digits_value r (n * 10 + (byte_val c - 48))
  end.

(** The three parts one round of [compareVersionPart] splits a string
    into: the non-digit run, the digit run, and the rest. *)
Definition nondigit_run (s : string) : string := fst (deb.extractNonDigits s).
Definition digit_run (s : string) : string :=
  fst (deb.extractDigits (snd (deb.extractNonDigits s))).
Definition after_runs (s : string) : string :=
  snd (deb.extractDigits (snd (deb.extractNonDigits s))).

(** The reading of a version string the specification gives: the revision
    is what follows the last hyphen, the upstream version what precedes
    it. [last_hyphen s] is the index of the last hyphen of [s]. *)
Fixpoint last_hyphen (s : string) : option nat :=
  match s with
  | EmptyString => None
  | String c r =>
      match last_hyphen r with
      | Some i => Some (S i)
      | None => if Ascii.eqb c "-" then Some O else None
      end
  end.

Definition spec_revision (s : string) : string :=
  match last_hyphen s with
  | Some i => slice_from (S i) s
  | None => ""
  end.

Definition spec_upstream (s : string) : string :=
  match last_hyphen s with
  | Some i => slice_to i s
  | None => s
  end.

(** [s] starts with an epoch: a run of digits, a colon, and more. *)
Definition has_epoch (s : string) : bool :=
  let i := scan_while unicode.IsDigit s in
  (0 <? i)%nat
  && match slice_from i s with
     | String c tail => Ascii.eqb c ":" && negb (is_empty tail)
     | EmptyString => false
     end.

Definition no_hyphen (s : string) : bool :=
  all_bytes (fun c => negb (Ascii.eqb c "-")) s.

Definition no_newline (s : string) : bool :=
  all_bytes (fun c => negb (byte_val c =? 10)) s.

(** The path the specification gives for a package in the pool. *)
Definition spec_prefix (name : string) : string :=
  if strings.HasPrefix name "lib" && (3 <? len name)%nat
  then slice_to 4 name else slice_to 1 name.

Definition spec_PoolPath (name filename : string) : string :=
  "pool/main/" ++ spec_prefix name ++ "/" ++ name ++ "/" ++ filename.

(** A path element that [filepath.Clean] keeps as it is: not empty, without
    a separator, and neither [.] nor [..]. *)
Definition no_slash (s : string) : bool :=
  all_bytes (fun c => negb (Ascii.eqb c "/")) s.

Definition plain_element (e : string) : bool :=
  negb (is_empty e) && no_slash e
  && negb (String.eqb e ".") && negb (String.eqb e "..").

(** A package name that is a plain element and does not start with a
    dot, so that its prefix is a plain element too. *)
Definition plain_name (name : string) : bool :=
  negb (is_empty name) && no_slash name && negb (strings.HasPrefix name ".").

(** The error of an archive whose control member is compressed with xz
    or zstd, as [Parse] returns it. *)
Definition unsupported_compression : error :=
  wrapError "extract control"
    (errorString "xz/zstd decompression not implemented - use gzip").

(** An error that stems from a failed call into [os] or [io]. *)
Fixpoint io_cause (e : error) : bool :=
  match e with
  | errorString _ => false
  | wrapError _ err => io_cause err
  | PathError _ _ _ => true
  end.

(** The name [Parse] gives a member, and whether it takes it for the
    control archive. *)
Definition member_name (m : deb.Member) : string :=
  strings.TrimSuffix m.(deb.m_name) "/".

Definition is_control (m : deb.Member) : bool :=
  strings.HasPrefix (member_name m) "control.tar".

(** No call into the operating system fails while [Parse] reads [f], whose
    control member is [m]. *)
Definition io_succeeds (tmp : deb.TempFile) (f : deb.File) (m : deb.Member) : Prop :=
  f.(deb.f_open) = None /\ f.(deb.f_stat) = None /\ f.(deb.f_copy) = None
  /\ f.(deb.f_seek) = None
  /\ (exists data, m.(deb.m_read) = Ok data)
  /\ tmp.(deb.t_create) = None /\ tmp.(deb.t_write) = None /\ tmp.(deb.t_close) = None.

(** A byte below 128 that is no white space. *)
Definition plain_byte (c : ascii) : bool :=
  (byte_val c <? 128) && negb (strings.asciiSpace c).

(** The lines of a field value: the pieces between its newlines, [cur]
    being the piece read so far; and the value of its lines. *)
Fixpoint value_lines (v : string) (cur : string) : list string :=
  match v with
  | EmptyString => [cur]
  | String c r =>
      if Ascii.eqb c "010" then cur :: value_lines r ""
      else value_lines r (cur ++ String c "")
  end.

Fixpoint unlines (first : string) (more : list string) : string :=
  match more with
  | [] => first
  | l :: ls => first ++ String "010" (unlines l ls)
  end.

(** A line that fits the scanner's buffer behind any field name of
    [Package] and a colon and a space. *)
Definition short_line (l : string) : bool :=
  Z.of_nat (len l) + 16 <? bufio.MaxScanTokenSize.

(** A line of a value after its first: it starts with a space or a tab, as
    a continuation line does, and does not end in a carriage return. *)
Definition continuation_line (l : string) : bool :=
  deb.is_continuation l && negb (strings.HasSuffix l (String "013" ""))
  && short_line l.

(** A field value that a control stanza holds as it is: no white space at
    its ends nor at the ends of its first line, and every further line a
    continuation line. *)
Definition clean_value (v : string) : bool :=
  String.eqb (strings.TrimSpace v) v
  && match value_lines v "" with
     | first :: more =>
         String.eqb (strings.TrimSpace first) first && short_line first
         && forallb continuation_line more
     | [] => false
     end.

(** The calls of [writeField] in [ControlString], in order: the name and
    the value of each. *)
Definition control_fields (p : deb.Package) : list (string * string) :=
  [("Package", p.(deb.Name));
   ("Version", p.(deb.Version));
   ("Architecture", p.(deb.Architecture));
   ("Maintainer", p.(deb.Maintainer));
   ("Installed-Size", (if 0 <? p.(deb.InstalledSize)
      then strconv.FormatInt p.(deb.InstalledSize) else ""));
   ("Pre-Depends", p.(deb.PreDepends));
   ("Depends", p.(deb.Depends));
   ("Recommends", p.(deb.Recommends));
   ("Suggests", p.(deb.Suggests));
   ("Conflicts", p.(deb.Conflicts));
   ("Provides", p.(deb.Provides));
   ("Replaces", p.(deb.Replaces));
   ("Section", p.(deb.Section_));
   ("Priority", p.(deb.Priority));
   ("Homepage", p.(deb.Homepage));
   ("Filename", p.(deb.Filename));
   ("Size", strconv.FormatInt p.(deb.Size));
   ("MD5sum", p.(deb.MD5sum));
   ("SHA1", p.(deb.SHA1));
   ("SHA256", p.(deb.SHA256));
   ("Description", p.(deb.Description))].

(** The line [writeField] writes for a field, and the stanza of a list of
    fields. *)
Definition field_line (f : string * string) : string := f.1 ++ ": " ++ f.2.

Fixpoint stanza (fields : list (string * string)) : string :=
  match fields with
  | [] => ""
  | f :: rest => field_line f ++ String "010" (stanza rest)
  end.

(** The lines the scanner finds for a field of the stanza: the field name
    and the first line of the value, then the further lines. *)
Definition scanned_lines (n first : string) (more : list string) : list string :=
  (n ++ ": " ++ first) :: more.

(** A line the scanner gives back as it is. *)
Definition whole_line (l : string) : Prop :=
  l <> "" /\ no_newline l = true /\ Z.of_nat (len l) < bufio.MaxScanTokenSize
  /\ bufio.dropCR l = l.

(** The text of lines that each end in a newline. *)
Fixpoint text_of_lines (lines : list string) : string :=
  match lines with
  | [] => ""
  | l :: ls => l ++ String "010" (text_of_lines ls)
  end.

(** The lines the scanner finds in the stanza of a list of fields. *)
Fixpoint stanza_lines (fields : list (string * string)) : list string :=
  match fields with
  | [] => []
  | (n, v) :: rest =>
      match value_lines v "" with
      | first :: more => (scanned_lines n first more ++ stanza_lines rest)%list
      | [] => stanza_lines rest
      end
  end.

(** [writeField] writes a field when its value is not empty. *)
Definition written (f : string * string) : bool := negb (is_empty f.2).

(** What [saveField] does to the record for a field and its value. *)
Definition assign_field (pkg : deb.Package) (f : string * string) : deb.Package :=
  deb.saveField (deb.mkState pkg f.1 f.2).

(** A field name that starts a line of its own: not empty, at most 14
    bytes, without colon or newline, and starting with no space or tab. *)
Definition field_name (n : string) : bool :=
  negb (is_empty n) && (len n <=? 14)%nat
  && all_bytes (fun c => negb (Ascii.eqb c ":")) n
  && no_newline n && negb (deb.is_continuation n).

Definition clean_field (f : string * string) : bool :=
  field_name f.1 && clean_value f.2.

(** Every string of the record is a clean value. *)
Definition clean_package (p : deb.Package) : bool :=
  forallb clean_value
    [p.(deb.Name);
     p.(deb.Version);
     p.(deb.Architecture);
     p.(deb.Maintainer);
     p.(deb.PreDepends);
     p.(deb.Depends);
     p.(deb.Recommends);
     p.(deb.Suggests);
     p.(deb.Conflicts);
     p.(deb.Provides);
     p.(deb.Replaces);
     p.(deb.Section_);
     p.(deb.Priority);
     p.(deb.Homepage);
     p.(deb.Filename);
     p.(deb.MD5sum);
     p.(deb.SHA1);
     p.(deb.SHA256);
     p.(deb.Description)].

(** What [parseControl] reads back from [ControlString p]: the fields of
    the control file; [Size], [Filename], [MD5sum], [SHA1] and [SHA256] are
    not among them, and an [InstalledSize] that is not positive is not
    written. *)
Definition reparsed (p : deb.Package) : deb.Package :=
  deb.mkPackage p.(deb.Name) p.(deb.Version) p.(deb.Architecture)
    p.(deb.Maintainer) p.(deb.Description) p.(deb.Depends) p.(deb.PreDepends)
    p.(deb.Recommends) p.(deb.Suggests) p.(deb.Conflicts) p.(deb.Provides)
    p.(deb.Replaces) p.(deb.Section_) p.(deb.Priority) p.(deb.Homepage)
    0 (if 0 <? p.(deb.InstalledSize) then p.(deb.InstalledSize) else 0)
    "" "" "" "".

(** The package of the test of [ControlString]. *)
Definition test_package : deb.Package :=
  deb.mkPackage "myapp" "1.0.0" "amd64" "Test <test@example.com>"
    "A test package" "" "" "" "" "" "" "" "" "" "" 1024 0
    "pool/main/m/myapp/myapp_1.0.0_amd64.deb" "abc123" "def456" "ghi789".

(** A package with a description of several lines and an installed
    size. *)
Definition described_package : deb.Package :=
  deb.mkPackage "libfoo" "2:1.0.0-ubuntu1" "amd64" "Test <test@example.com>"
    ("A library" ++ String "010" " with a longer description" ++ String "010" " ."
     ++ String "010" " of three paragraphs.")
    "libc6 (>= 2.34)" "" "" "" "" "" "" "libs" "optional" "https://example.com"
    2048 96 "" "" "" "".

(** The order of the index: by name, and for one name the newest version
    first. *)
Definition ordered_before (x y : deb.Package) : Prop :=
  String.ltb x.(deb.Name) y.(deb.Name) = true
  \/ (x.(deb.Name) = y.(deb.Name)
      /\ 0 <= deb.Compare x.(deb.Version) y.(deb.Version)).

(** The architectures the index of [arch] keeps. *)
Definition arch_retained (arch : string) (pkg : deb.Package) : Prop :=
  pkg.(deb.Architecture) = arch \/ pkg.(deb.Architecture) = "all".

(** A package file of the pool with the given name, version and
    architecture. *)
Definition deb_file (name version arch : string) : repo.node :=
  repo.RegularFile
    (Ok (deb.set_Architecture arch
           (deb.set_Version version (deb.set_Name name deb.emptyPackage)))).

(** A pool with three packages, one of them in three versions and one for
    another architecture, and a file that is no archive. *)
Definition index_pool : repo.FS :=
  [("repo", repo.Dir);
   ("repo/pool", repo.Dir);
   ("repo/pool/main", repo.Dir);
   ("repo/pool/main/README", repo.RegularFile (Err (errorString "read ar")));
   ("repo/pool/main/p", repo.Dir);
   ("repo/pool/main/p/pkg", repo.Dir);
   ("repo/pool/main/p/pkg/pkg_1.0_amd64.deb", deb_file "pkg" "1.0" "amd64");
   ("repo/pool/main/p/pkg/pkg_1.5_amd64.deb", deb_file "pkg" "1.5" "amd64");
   ("repo/pool/main/p/pkg/pkg_2.0_amd64.deb", deb_file "pkg" "2.0" "amd64");
   ("repo/pool/main/p/pkg/pkg_2.0_arm64.deb", deb_file "pkg" "2.0" "arm64");
   ("repo/pool/main/z", repo.Dir);
   ("repo/pool/main/z/app", repo.Dir);
   ("repo/pool/main/z/app/app_0.1_all.deb", deb_file "app" "0.1" "all")].

(** An instance of [filepath.Rel] for the example trees. On a clean base
    and a clean path that is the base or lies below it, it gives what
    [filepath.Rel] gives: [.] for the base itself, and else the path
    without the base and the separator behind it (the base [.] stands for
    no prefix at all, the base [/] brings its separator along). On every
    other path it gives the error of [filepath.Rel], also where
    [filepath.Rel] would climb out of the base with [..]. *)
Definition rel_below (base path : string) : result string :=
  if String.eqb path base then Ok "."
  else
    let prefix := if String.eqb base "." then ""
                  else if String.eqb base "/" then "/"
                  else base ++ "/" in
    if strings.HasPrefix path prefix
       && negb (String.eqb base "." && strings.HasPrefix path "/")
    then Ok (slice_from (len prefix) path)
    else Err (errorString ("Rel: can't make " ++ path ++ " relative to " ++ base)).

(** The pool of the prune scenario: one package in three versions. *)
Definition prune_pool : repo.FS :=
  [("repo", repo.Dir);
   ("repo/pool", repo.Dir);
   ("repo/pool/main", repo.Dir);
   ("repo/pool/main/p", repo.Dir);
   ("repo/pool/main/p/pkg", repo.Dir);
   ("repo/pool/main/p/pkg/pkg_1.0_amd64.deb", deb_file "pkg" "1.0" "amd64");
   ("repo/pool/main/p/pkg/pkg_1.5_amd64.deb", deb_file "pkg" "1.5" "amd64");
   ("repo/pool/main/p/pkg/pkg_2.0_amd64.deb", deb_file "pkg" "2.0" "amd64")].

(** A pool with two packages that differ in name and in architecture:
    [a] for [b_c] and [a_b] for [c]. *)
Definition clash_pool : repo.FS :=
  [("repo", repo.Dir);
   ("repo/pool", repo.Dir);
   ("repo/pool/main", repo.Dir);
   ("repo/pool/main/a", repo.Dir);
   ("repo/pool/main/a/a", repo.Dir);
   ("repo/pool/main/a/a/a_2.0_b_c.deb", deb_file "a" "2.0" "b_c");
   ("repo/pool/main/a/a_b", repo.Dir);
   ("repo/pool/main/a/a_b/a_b_1.0_c.deb", deb_file "a_b" "1.0" "c")].

(** An order of iteration visits every entry of the map once. *)
Definition iteration_order
    (range_order : gmap string (list repo.packageFile)
                   -> list (string * list repo.packageFile)) : Prop :=
  forall m, Permutation (range_order m) (map_to_list m).

(** One order of iteration: that of the entries of the [gmap]. *)
Definition entries_order (m : gmap string (list repo.packageFile))
  : list (string * list repo.packageFile) := map_to_list m.

(** A path that ends in [.deb]. *)
Definition deb_path (path : string) : Prop := strings.HasSuffix path ".deb" = true.

(** The tree [fs'] is what is left of [fs] when some entries, all of which
    satisfy [P], are removed. *)
Definition removes (P : string * repo.node -> Prop) (fs fs' : repo.FS) : Prop :=
  exists keep, fs' = List.filter keep fs
               /\ forall e, In e fs -> keep e = false -> P e.

(** A directory strictly below [root] that has no entry in the tree
    [fs]. *)
Definition empty_dir_below (root : string) (fs : repo.FS)
    (e : string * repo.node) : Prop :=
  e.2 = repo.Dir /\ e.1 <> root /\ repo.under root e.1 = true
  /\ forall q, In q fs -> repo.entry_of e.1 q.1 = false.

(** Every file of every group lies at a path that ends in [.deb]. *)
Definition groups_of_archives (m : gmap string (list repo.packageFile)) : Prop :=
  forall k g, m !! k = Some g -> Forall (fun pf => deb_path pf.(repo.Path)) g.

(** The file [x] carries a version that is not older than the one of
    [y]. *)
Definition not_older (x y : repo.packageFile) : Prop :=
  0 <= deb.Compare x.(repo.Version) y.(repo.Version).

(** Entering round [i] of [sortPackageFiles], each of the first [i] files
    is not older than any file behind it. *)
Definition settled (i : nat) (files : list repo.packageFile) : Prop :=
  forall a b x y, (a < i)%nat -> (a < b)%nat ->
    files !! a = Some x -> files !! b = Some y -> not_older x y.

(** Entering step [j] of round [i], the file at [i] is not older than the
    files strictly between [i] and [j]. *)
Definition leads (i j : nat) (files : list repo.packageFile) : Prop :=
  forall b x y, (i < b < j)%nat ->
    files !! i = Some x -> files !! b = Some y -> not_older x y.

(** [s] ends with a decimal digit; [s] starts with one. *)
Fixpoint ends_with_digit (s : string) : bool :=
  match s with
  | EmptyString => false
  | String c r =>
      match r with
      | EmptyString => unicode.IsDigit c
      | String _ _ => ends_with_digit r
      end
  end.

Definition starts_with_digit (s : string) : bool :=
  match s with String c _ => unicode.IsDigit c | EmptyString => false end.

(** The version [x] is not older than [y]. *)
Definition version_ge (x y : string) : Prop := 0 <= deb.Compare x y.

(** A version string that has neither an epoch nor a hyphen: it is its
    own upstream version. *)
Definition plain_version (s : string) : bool :=
  no_hyphen s && negb (has_epoch s).

(** The version string [version] is made of the parts [(epoch, upstream,
    revision)]: it is [upstream], followed by a hyphen and [revision]
    when [revision] is not empty, and preceded either by nothing, the
    epoch then being 0, or by a run of digits and a colon, the epoch then
    being the value of the digits or [2^63 - 1] when that is larger. *)
Definition made_of (version : string) (parts : Z * string * string) : Prop :=
  let '(epoch, upstream, revision) := parts in
  exists pre,
    version = pre ++ upstream ++ (if is_empty revision then "" else "-" ++ revision)
    /\ ((pre = "" /\ epoch = 0)
        \/ exists d, pre = d ++ ":" /\ d <> ""
                     /\ all_bytes unicode.IsDigit d = true
                     /\ epoch = Z.min (digits_value d 0) (2 ^ 63 - 1)).

(** The fields of a [Package] that [parseControl] has no case for are as
    [&Package{}] has them. *)
Definition pool_fields_unset (p : deb.Package) : Prop :=
  p.(deb.Filename) = "" /\ p.(deb.Size) = 0 /\ p.(deb.MD5sum) = ""
  /\ p.(deb.SHA1) = "" /\ p.(deb.SHA256) = "".

(** An archive whose control member is a gzipped tar with one entry,
    [./control]. *)
Definition gz_archive (control : string) : deb.File :=
  deb.mkFile None None None None 2048 "md5" "sha1" "sha256"
    [Ok (deb.mkMember "debian-binary" (Ok "2.0") (Err (errorString "gzip: invalid header")) []);
     Ok (deb.mkMember "control.tar.gz" (Ok "") (Ok [Ok ("./control", Ok control)]) [])].

(** An entry of the tree that [Prune] and [scanPool] take for an archive:
    a regular file at a path that ends in [.deb]. *)
Definition is_archive (e : string * repo.node) : bool :=
  negb (repo.IsDir e.2) && strings.HasSuffix e.1 ".deb".

(** The archives below [poolDir], in the order of the walk. *)
Definition pool_archives (poolDir : string) (fs : repo.FS)
  : list (string * repo.node) :=
  List.filter is_archive (List.filter (fun e => repo.under poolDir e.1) fs).

(** The key [Prune] groups an archive by. *)
Definition group_key (pkg : deb.Package) : string :=
  pkg.(deb.Name) ++ "_" ++ pkg.(deb.Architecture).

(** The files of all the groups of a map. *)
Definition all_files (m : gmap string (list repo.packageFile))
  : list repo.packageFile :=
  concat (map snd (map_to_list m)).

(** The tree [fs'] is what is left of [fs] when the entries at the paths
    [paths] are removed. *)
Definition deletes (paths : list string) (fs fs' : repo.FS) : Prop :=
  forall e, In e fs' <-> In e fs /\ ~ In e.1 paths.

(** Every file of the map stands for an archive of [tree] that parses,
    and lies in the group of its key; the map holds the archive at [path]
    with the metadata [pkg]. *)
Definition from_archives (tree : list (string * repo.node))
    (m : gmap string (list repo.packageFile)) : Prop :=
  forall k g pf, m !! k = Some g -> In pf g ->
    exists pkg, In (pf.(repo.Path), repo.RegularFile (Ok pkg)) tree
                /\ group_key pkg = k /\ pkg.(deb.Version) = pf.(repo.Version).

Definition holds_archive (m : gmap string (list repo.packageFile))
    (path : string) (pkg : deb.Package) : Prop :=
  exists g, m !! group_key pkg = Some g
            /\ In (repo.mkPackageFile path pkg.(deb.Version)) g.

(** [KeepVersions] as [Prune] uses it: 5 when it is below 1. *)
Definition keep_count (opts : repo.PruneOptions) : nat :=
  Z.to_nat (if opts.(repo.KeepVersions) <? 1 then 5 else opts.(repo.KeepVersions)).


Definition damaged_pool : repo.FS :=
  [("repo", repo.Dir);
   ("repo/pool", repo.Dir);
   ("repo/pool/main", repo.Dir);
   ("repo/pool/main/p", repo.Dir);
   ("repo/pool/main/p/pkg", repo.Dir);
   ("repo/pool/main/p/pkg/pkg_1.0_amd64.deb", deb_file "pkg" "1.0" "amd64");
   ("repo/pool/main/p/pkg/pkg_1.1_amd64.deb",
    repo.RegularFile (Err (wrapError "read ar" (errorString "unexpected EOF"))))].

(** The record [scanPool] makes of an entry of the tree: none, unless the
    entry is an archive that parses, has the architecture [arch] or
    [all], and lies at a path that can be made relative to [Root]. *)
Definition index_record (filepath_Rel : string -> string -> result string)
    (Root arch : string) (e : string * repo.node) : list deb.Package :=
  if is_archive e then
    match e.2 with
    | repo.RegularFile (Ok pkg) =>
        if String.eqb pkg.(deb.Architecture) arch
           || String.eqb pkg.(deb.Architecture) "all"
        then match filepath_Rel Root e.1 with
             | Ok relPath => [deb.set_Filename relPath pkg]
             | Err _ => []
             end
        else []
    | _ => []
    end
  else [].

(** The errors of [filepath.Rel] are made with [errors.New]:
    [os.IsNotExist] holds of none. *)
Definition Rel_errors (filepath_Rel : string -> string -> result string) : Prop :=
  forall base targ e, filepath_Rel base targ = Err e -> IsNotExist e = false.

(** The entry [e] of the tree [fs] is a directory strictly below [root]
    that has no entry in [fs]. *)
Definition empty_dir (root : string) (fs : repo.FS) (e : string * repo.node) : bool :=
  repo.IsDir e.2 && negb (String.eqb e.1 root) && repo.under root e.1
  && forallb (fun p => negb (repo.entry_of e.1 p)) (map fst fs).

(** The tree lists a directory before its entries, as [filepath.Walk]
    visits them: no path in front of a directory ([seen], for the part of
    the tree that has been passed) is an entry of it. *)
Fixpoint parents_first_from (seen : list string) (fs : repo.FS) : bool :=
  match fs with
  | [] => true
  | d :: rest =>
      forallb (fun p => negb (repo.entry_of d.1 p)) seen
      && parents_first_from (d.1 :: seen) rest
  end.

Definition parents_first (fs : repo.FS) : bool := parents_first_from [] fs.

(** A pool with a directory that holds nothing but an empty directory. *)
Definition hollow_pool : repo.FS :=
  [("repo", repo.Dir);
   ("repo/pool", repo.Dir);
   ("repo/pool/main", repo.Dir);
   ("repo/pool/main/README", repo.RegularFile (Err (errorString "read ar")));
   ("repo/pool/main/p", repo.Dir);
   ("repo/pool/main/p/pkg", repo.Dir);
   ("repo/pool/main/z", repo.Dir)].

(** A line as the scanner takes it: without a newline and shorter than
    the buffer of the scanner; and one that does not end in a carriage
    return either, so that the scanner gives it back as it is. *)
Definition scanner_line (l : string) : bool :=
  no_newline l && (Z.of_nat (len l) <? bufio.MaxScanTokenSize).

Definition plain_line (l : string) : bool :=
  scanner_line l && negb (strings.HasSuffix l (String "013" "")).

(** The next line of [data] does not fit the buffer of the scanner. *)
Definition too_long (data : string) : bool :=
  match strings.IndexByte data "010" with
  | Some i => bufio.MaxScanTokenSize <=? Z.of_nat i
  | None => bufio.MaxScanTokenSize <=? Z.of_nat (len data)
  end.

(** The names of the fields [saveField] stores. *)
Definition known_fields : list string :=
  ["Package"; "Version"; "Architecture"; "Maintainer"; "Description";
   "Depends"; "Pre-Depends"; "Recommends"; "Suggests"; "Conflicts";
   "Provides"; "Replaces"; "Section"; "Priority"; "Homepage";
   "Installed-Size"].

Definition known_field (n : string) : bool := existsb (String.eqb n) known_fields.

(** A name that can stand in front of the colon of a line that starts a
    field: not empty, without a colon, and not starting with a space or a
    tab. *)
Definition header_name (n : string) : bool :=
  negb (is_empty n) && all_bytes (fun c => negb (Ascii.eqb c ":")) n
  && negb (deb.is_continuation n).

(** The line starts a field: it is no continuation line and has a colon
    behind its first byte. *)
Definition starts_field (l : string) : bool :=
  negb (deb.is_continuation l)
  && match strings.IndexByte l ":" with
     | Some (S _) => true
     | _ => false
     end.

(** [n] copies of the byte [c]. *)
Fixpoint repeat_byte (c : ascii) (n : nat) : string :=
  match n with
  | O => ""
  | S n' => String c (repeat_byte c n')
  end.

(** The line with a carriage return at its end. *)
Definition with_CR (l : string) : string := l ++ String "013" "".

(** What the entry [e] of the walk adds to the group of [key] in
    [Prune]. *)
Definition group_entry (key : string) (e : string * repo.node)
  : list repo.packageFile :=
  match e.2 with
  | repo.RegularFile (Ok pkg) =>
      if strings.HasSuffix e.1 ".deb" && String.eqb (group_key pkg) key
      then [repo.mkPackageFile e.1 pkg.(deb.Version)]
      else []
  | _ => []
  end.

(** The path of the file is not among [paths]. *)
Definition not_listed (paths : list string) (pf : repo.packageFile) : bool :=
  negb (existsb (String.eqb pf.(repo.Path)) paths).

(** * Verification *)

(** ** Strings *)

Lemma append_nil_r (s : string) : s ++ "" = s.
Proof. induction s as [|c s IH]; simpl; [reflexivity | now rewrite IH]. Qed.

Lemma append_assoc (a b c : string) : (a ++ b) ++ c = a ++ (b ++ c).
Proof. induction a as [|x a IH]; simpl; [reflexivity | now rewrite IH]. Qed.

Lemma len_append (a b : string) : len (a ++ b) = (len a + len b)%nat.
Proof. unfold len. induction a as [|x a IH]; simpl; [reflexivity | now rewrite IH]. Qed.

Lemma is_empty_true (s : string) : is_empty s = true <-> s = "".
Proof. destruct s; simpl; split; congruence. Qed.

Lemma is_empty_false (s : string) : is_empty s = false <-> s <> "".
Proof. destruct s; simpl; split; congruence. Qed.

Lemma len_zero (s : string) : len s = 0%nat <-> s = "".
Proof. destruct s; simpl; split; (congruence || discriminate). Qed.

Lemma slice_to_from (i : nat) (s : string) : slice_to i s ++ slice_from i s = s.
Proof.
  revert i; induction s as [|c s IH]; intros [|i]; simpl; try reflexivity.
  now rewrite IH.
Qed.

Lemma len_slice_from_le (i : nat) (s : string) : (len (slice_from i s) <= len s)%nat.
Proof.
  revert i; induction s as [|c s IH]; intros [|i]; simpl; try lia.
  specialize (IH i). unfold len in *. simpl. lia.
Qed.

Lemma slice_to_append (a b : string) : slice_to (len a) (a ++ b) = a.
Proof. induction a as [|c a IH]; simpl; [now destruct b | now rewrite IH]. Qed.

Lemma slice_from_append (a b : string) : slice_from (len a) (a ++ b) = b.
Proof. induction a as [|c a IH]; simpl; [now destruct b | exact IH]. Qed.

Lemma scan_while_le (p : ascii -> bool) (s : string) : (scan_while p s <= len s)%nat.
Proof. induction s as [|c s IH]; simpl; [lia | destruct (p c); unfold len in *; simpl; lia]. Qed.

(** A scan stops at the first byte that fails the test. *)
Lemma scan_while_append (p : ascii -> bool) (a : string) (c : ascii) (b : string) :
  all_bytes p a = true -> p c = false ->
  scan_while p (a ++ String c b) = len a.
Proof.
  intros Ha Hc. induction a as [|x a IH]; simpl in *.
  - now rewrite Hc.
  - apply andb_true_iff in Ha as [Hx Ha]. rewrite Hx. now rewrite IH.
Qed.

Lemma scan_while_all (p : ascii -> bool) (a : string) :
  all_bytes p a = true -> scan_while p a = len a.
Proof.
  intros Ha. induction a as [|x a IH]; simpl in *; [reflexivity|].
  apply andb_true_iff in Ha as [Hx Ha]. rewrite Hx. now rewrite IH.
Qed.

(** The bytes a scan passes satisfy the test. *)
Lemma scan_while_prefix (p : ascii -> bool) (s : string) :
  all_bytes p (slice_to (scan_while p s) s) = true.
Proof.
  induction s as [|c s IH]; simpl; [reflexivity|].
  destruct (p c) eqn:E; simpl; [now rewrite E | reflexivity].
Qed.

Lemma scan_while_stop (p : ascii -> bool) (s : string) :
  match slice_from (scan_while p s) s with
  | String c _ => p c = false
  | EmptyString => True
  end.
Proof.
  induction s as [|c s IH]; simpl; [exact I|].
  destruct (p c) eqn:E; simpl; [exact IH | exact E].
Qed.

(** ** The version order *)

Section Order.

Import deb.


Lemma first_nonzero_sign x y : sign3 x -> sign3 y -> sign3 (first_nonzero x y).
Proof. unfold sign3, first_nonzero. intros. destruct (Z.eqb_spec x 0); simpl; lia. Qed.

Lemma first_nonzero_opp x y : first_nonzero (- x) (- y) = - first_nonzero x y.
Proof.
  unfold first_nonzero.
  destruct (Z.eqb_spec x 0), (Z.eqb_spec (- x) 0); simpl; lia.
Qed.

Lemma first_nonzero_chain x1 x2 x3 y1 y2 y3 :
  chain x1 x2 x3 -> chain y1 y2 y3 ->
  chain (first_nonzero x1 y1) (first_nonzero x2 y2) (first_nonzero x3 y3).
Proof.
  unfold chain, first_nonzero. intros Hx Hy.
  destruct (Z.eqb_spec x1 0), (Z.eqb_spec x2 0), (Z.eqb_spec x3 0); simpl; lia.
Qed.


Lemma int_cmp_sign x y : sign3 (int_cmp x y).
Proof. unfold sign3, int_cmp. destruct (Z.eqb_spec x y), (Z.ltb_spec x y); simpl; lia. Qed.

Lemma int_cmp_refl x : int_cmp x x = 0.
Proof. unfold int_cmp. now rewrite Z.eqb_refl. Qed.

Lemma int_cmp_opp x y : int_cmp x y = - int_cmp y x.
Proof.
  unfold int_cmp.
  destruct (Z.eqb_spec x y), (Z.eqb_spec y x), (Z.ltb_spec x y), (Z.ltb_spec y x);
    simpl; lia.
Qed.

Lemma int_cmp_chain x y z : chain (int_cmp x y) (int_cmp y z) (int_cmp x z).
Proof.
  unfold chain, int_cmp.
  destruct (Z.eqb_spec x y), (Z.eqb_spec y z), (Z.eqb_spec x z),
    (Z.ltb_spec x y), (Z.ltb_spec y z), (Z.ltb_spec x z); simpl; lia.
Qed.

Lemma order_cmp_int ca cb (k : Z) :
  match order_cmp ca cb with Some r => r | None => k end
  = first_nonzero (int_cmp ca cb) k.
Proof.
  unfold order_cmp, first_nonzero, int_cmp.
  destruct (Z.eqb_spec ca cb), (Z.ltb_spec ca cb); simpl; reflexivity || lia.
Qed.

(** *** [compareNonDigits] *)


Lemma compareNonDigits_unroll a b :
  compareNonDigits a b =
  if is_empty a && is_empty b then 0
  else first_nonzero (int_cmp (head_order a) (head_order b))
                     (compareNonDigits (tail a) (tail b)).
Proof.
  destruct a as [|xa a], b as [|xb b]; simpl; try reflexivity;
    now rewrite order_cmp_int.
Qed.

Lemma compareNonDigits_nil : compareNonDigits "" "" = 0.
Proof. reflexivity. Qed.

Lemma len_tail s : s <> "" -> (len (tail s) < len s)%nat.
Proof. destruct s; simpl; [congruence | unfold len; simpl; lia]. Qed.

Lemma len_tail_le s : (len (tail s) <= len s)%nat.
Proof. destruct s; unfold len; simpl; lia. Qed.

Lemma compareNonDigits_sign a b : sign3 (compareNonDigits a b).
Proof.
  remember (len a + len b)%nat as n eqn:Hn.
  revert a b Hn. induction n as [n IH] using lt_wf_ind. intros a b Hn.
  rewrite compareNonDigits_unroll.
  destruct (is_empty a && is_empty b) eqn:E; [unfold sign3; lia|].
  apply first_nonzero_sign; [apply int_cmp_sign|].
  apply (IH (len (tail a) + len (tail b))%nat); [|reflexivity].
  apply andb_false_iff in E as [E|E]; apply is_empty_false in E;
    pose proof (len_tail _ E); pose proof (len_tail_le a); pose proof (len_tail_le b); lia.
Qed.

Lemma compareNonDigits_refl a : compareNonDigits a a = 0.
Proof.
  induction a as [|x a IH]; [reflexivity|].
  rewrite compareNonDigits_unroll. simpl. rewrite int_cmp_refl. exact IH.
Qed.

Lemma compareNonDigits_opp a b : compareNonDigits a b = - compareNonDigits b a.
Proof.
  remember (len a + len b)%nat as n eqn:Hn.
  revert a b Hn. induction n as [n IH] using lt_wf_ind. intros a b Hn.
  rewrite (compareNonDigits_unroll a b), (compareNonDigits_unroll b a).
  rewrite (andb_comm (is_empty b)).
  destruct (is_empty a && is_empty b) eqn:E; [reflexivity|].
  assert (Hlt : (len (tail a) + len (tail b) < n)%nat).
  { apply andb_false_iff in E as [E|E]; apply is_empty_false in E;
      pose proof (len_tail _ E); pose proof (len_tail_le a); pose proof (len_tail_le b); lia. }
  rewrite (int_cmp_opp (head_order a)).
  rewrite (IH _ Hlt (tail a) (tail b) eq_refl).
  apply first_nonzero_opp.
Qed.

Lemma compareNonDigits_chain a b c :
  chain (compareNonDigits a b) (compareNonDigits b c) (compareNonDigits a c).
Proof.
  remember (len a + len b + len c)%nat as n eqn:Hn.
  revert a b c Hn. induction n as [n IH] using lt_wf_ind. intros a b c Hn.
  destruct (is_empty a && is_empty b && is_empty c) eqn:E.
  - apply andb_true_iff in E as [E Ec]. apply andb_true_iff in E as [Ea Eb].
    apply is_empty_true in Ea, Eb, Ec. subst. unfold chain. simpl. lia.
  - assert (Hlt : (len (tail a) + len (tail b) + len (tail c) < n)%nat).
    { pose proof (len_tail_le a); pose proof (len_tail_le b); pose proof (len_tail_le c).
      apply andb_false_iff in E as [E|E]; [apply andb_false_iff in E as [E|E]|];
        apply is_empty_false in E; pose proof (len_tail _ E); lia. }
    pose proof (IH _ Hlt (tail a) (tail b) (tail c) eq_refl) as Ht.
    pose proof (int_cmp_chain (head_order a) (head_order b) (head_order c)) as Hh.
    pose proof (first_nonzero_chain _ _ _ _ _ _ Hh Ht) as Hc.
    rewrite (compareNonDigits_unroll a b), (compareNonDigits_unroll b c),
      (compareNonDigits_unroll a c).
    destruct a as [|xa a], b as [|xb b], c as [|xc c]; simpl in *;
      try discriminate; exact Hc.
Qed.

(** *** [compareDigits] *)

Lemma compareDigits_key a b : compareDigits a b = int_cmp (digit_key a) (digit_key b).
Proof.
  unfold compareDigits, int_cmp, digit_key.
  set (x := fst _). set (y := fst _).
  destruct (Z.ltb_spec x y), (Z.ltb_spec y x), (Z.eqb_spec x y); simpl; lia.
Qed.

(** *** [compareVersionPart] *)

Lemma len_after_runs_le s : (len (after_runs s) <= len s)%nat.
Proof.
  unfold after_runs, extractDigits, extractNonDigits. simpl.
  etransitivity; apply len_slice_from_le.
Qed.

Lemma len_slice_from_S i s : (len (slice_from (S i) s) < len s)%nat \/ s = "".
Proof.
  destruct s as [|c s]; [now right|left]. simpl.
  pose proof (len_slice_from_le i s). unfold len in *. simpl. lia.
Qed.

Lemma len_after_runs s : s <> "" -> (len (after_runs s) < len s)%nat.
Proof.
  intros Hs. unfold after_runs, extractDigits, extractNonDigits. simpl.
  destruct s as [|c s]; [congruence|]. simpl.
  destruct (unicode.IsDigit c) eqn:E; simpl.
  - rewrite E. simpl. pose proof (len_slice_from_le (scan_while unicode.IsDigit s) s).
    unfold len in *. simpl. lia.
  - set (r := slice_from _ s).
    pose proof (len_slice_from_le (scan_while (fun c => negb (unicode.IsDigit c)) s) s).
    pose proof (len_slice_from_le (scan_while unicode.IsDigit r) r).
    fold r in H. unfold len in *. simpl. lia.
Qed.

Lemma compareVersionPart_loop_S n a b :
  compareVersionPart_loop (S n) a b =
  if (0 <? len a)%nat || (0 <? len b)%nat then
    first_nonzero (compareNonDigits (nondigit_run a) (nondigit_run b))
      (first_nonzero (compareDigits (digit_run a) (digit_run b))
         (compareVersionPart_loop n (after_runs a) (after_runs b)))
  else 0.
Proof.
  unfold nondigit_run, digit_run, after_runs, first_nonzero.
  cbn [compareVersionPart_loop].
  destruct ((0 <? len a)%nat || (0 <? len b)%nat); [|reflexivity].
  destruct (extractNonDigits a) as [na ra], (extractNonDigits b) as [nb rb]. simpl.
  destruct (extractDigits ra) as [da ra'], (extractDigits rb) as [db rb']. simpl.
  reflexivity.
Qed.

Lemma nonempty_test a b :
  (0 <? len a)%nat || (0 <? len b)%nat = negb (is_empty a && is_empty b).
Proof. destruct a, b; reflexivity. Qed.

(** Enough fuel: with at least [len a + len b] rounds the loop has run to
    its end, and more fuel does not change what it returns. *)
Lemma compareVersionPart_loop_fuel n m a b :
  (len a + len b <= n)%nat -> (len a + len b <= m)%nat ->
  compareVersionPart_loop n a b = compareVersionPart_loop m a b.
Proof.
  revert m a b. induction n as [|n IH]; intros m a b Hn Hm.
  - assert (a = "") by (apply len_zero; lia). assert (b = "") by (apply len_zero; lia).
    subst. destruct m; reflexivity.
  - destruct m as [|m].
    + assert (a = "") by (apply len_zero; lia). assert (b = "") by (apply len_zero; lia).
      subst. reflexivity.
    + rewrite !compareVersionPart_loop_S, nonempty_test.
      destruct (is_empty a && is_empty b) eqn:E; simpl; [reflexivity|].
      assert (Hlt : (len (after_runs a) + len (after_runs b) < len a + len b)%nat).
      { pose proof (len_after_runs_le a); pose proof (len_after_runs_le b).
        apply andb_false_iff in E as [E|E]; apply is_empty_false in E;
          pose proof (len_after_runs _ E); lia. }
      rewrite (IH m); [reflexivity | lia | lia].
Qed.

Lemma compareVersionPart_unroll a b :
  compareVersionPart a b =
  if is_empty a && is_empty b then 0
  else first_nonzero (compareNonDigits (nondigit_run a) (nondigit_run b))
         (first_nonzero (compareDigits (digit_run a) (digit_run b))
            (compareVersionPart (after_runs a) (after_runs b))).
Proof.
  unfold compareVersionPart.
  destruct (is_empty a && is_empty b) eqn:E.
  - apply andb_true_iff in E as [Ea Eb]. apply is_empty_true in Ea, Eb. now subst.
  - assert (Hlt : (len (after_runs a) + len (after_runs b) < len a + len b)%nat).
    { pose proof (len_after_runs_le a); pose proof (len_after_runs_le b).
      apply andb_false_iff in E as [E|E]; apply is_empty_false in E;
        pose proof (len_after_runs _ E); lia. }
    destruct (len a + len b)%nat as [|n] eqn:En; [lia|].
    rewrite compareVersionPart_loop_S, nonempty_test, E. simpl.
    do 2 f_equal. apply compareVersionPart_loop_fuel; lia.
Qed.

Lemma after_runs_measure a b :
  is_empty a && is_empty b = false ->
  (len (after_runs a) + len (after_runs b) < len a + len b)%nat.
Proof.
  intros E. pose proof (len_after_runs_le a); pose proof (len_after_runs_le b).
  apply andb_false_iff in E as [E|E]; apply is_empty_false in E;
    pose proof (len_after_runs _ E); lia.
Qed.

Lemma compareVersionPart_sign a b : sign3 (compareVersionPart a b).
Proof.
  remember (len a + len b)%nat as n eqn:Hn.
  revert a b Hn. induction n as [n IH] using lt_wf_ind. intros a b Hn.
  rewrite compareVersionPart_unroll.
  destruct (is_empty a && is_empty b) eqn:E; [unfold sign3; lia|].
  pose proof (after_runs_measure _ _ E).
  apply first_nonzero_sign; [apply compareNonDigits_sign|].
  apply first_nonzero_sign; [rewrite compareDigits_key; apply int_cmp_sign|].
  apply (IH (len (after_runs a) + len (after_runs b))%nat); [lia | reflexivity].
Qed.

Lemma compareVersionPart_refl a : compareVersionPart a a = 0.
Proof.
  remember (len a) as n eqn:Hn.
  revert a Hn. induction n as [n IH] using lt_wf_ind. intros a Hn.
  rewrite compareVersionPart_unroll.
  destruct (is_empty a && is_empty a) eqn:E; [reflexivity|].
  rewrite compareNonDigits_refl, compareDigits_key, int_cmp_refl.
  unfold first_nonzero. simpl.
  apply (IH (len (after_runs a))); [|reflexivity].
  rewrite andb_diag in E. apply is_empty_false in E.
  pose proof (len_after_runs _ E). lia.
Qed.

Lemma compareVersionPart_opp a b : compareVersionPart a b = - compareVersionPart b a.
Proof.
  remember (len a + len b)%nat as n eqn:Hn.
  revert a b Hn. induction n as [n IH] using lt_wf_ind. intros a b Hn.
  rewrite (compareVersionPart_unroll a b), (compareVersionPart_unroll b a).
  rewrite (andb_comm (is_empty b)).
  destruct (is_empty a && is_empty b) eqn:E; [reflexivity|].
  pose proof (after_runs_measure _ _ E) as Hlt.
  rewrite (compareNonDigits_opp (nondigit_run a)).
  rewrite !compareDigits_key, (int_cmp_opp (digit_key (digit_run a))).
  rewrite (IH (len (after_runs a) + len (after_runs b))%nat ltac:(lia)
             (after_runs a) (after_runs b) eq_refl).
  now rewrite !first_nonzero_opp.
Qed.

Lemma compareVersionPart_chain a b c :
  chain (compareVersionPart a b) (compareVersionPart b c) (compareVersionPart a c).
Proof.
  remember (len a + len b + len c)%nat as n eqn:Hn.
  revert a b c Hn. induction n as [n IH] using lt_wf_ind. intros a b c Hn.
  destruct (is_empty a && is_empty b && is_empty c) eqn:E.
  - apply andb_true_iff in E as [E Ec]. apply andb_true_iff in E as [Ea Eb].
    apply is_empty_true in Ea, Eb, Ec. subst. unfold chain. cbn. lia.
  - assert (Hlt : (len (after_runs a) + len (after_runs b) + len (after_runs c) < n)%nat).
    { pose proof (len_after_runs_le a); pose proof (len_after_runs_le b);
        pose proof (len_after_runs_le c).
      apply andb_false_iff in E as [E|E]; [apply andb_false_iff in E as [E|E]|];
        apply is_empty_false in E; pose proof (len_after_runs _ E); lia. }
    pose proof (IH _ Hlt (after_runs a) (after_runs b) (after_runs c) eq_refl) as Ht.
    pose proof (int_cmp_chain (digit_key (digit_run a)) (digit_key (digit_run b))
                  (digit_key (digit_run c))) as Hd.
    rewrite <- !compareDigits_key in Hd.
    pose proof (compareNonDigits_chain (nondigit_run a) (nondigit_run b) (nondigit_run c)) as Hn'.
    pose proof (first_nonzero_chain _ _ _ _ _ _ Hn'
                  (first_nonzero_chain _ _ _ _ _ _ Hd Ht)) as Hc.
    rewrite (compareVersionPart_unroll a b), (compareVersionPart_unroll b c),
      (compareVersionPart_unroll a c).
    destruct (is_empty a) eqn:Ea, (is_empty b) eqn:Eb, (is_empty c) eqn:Ec;
      simpl in *; try discriminate; try exact Hc;
      repeat match goal with H : is_empty _ = true |- _ => apply is_empty_true in H; subst end;
      exact Hc.
Qed.

(** *** [Compare] *)

Lemma Compare_unroll a b :
  Compare a b =
  first_nonzero (int_cmp (ParseVersion a).1.1 (ParseVersion b).1.1)
    (first_nonzero (compareVersionPart (ParseVersion a).1.2 (ParseVersion b).1.2)
       (compareVersionPart (ParseVersion a).2 (ParseVersion b).2)).
Proof.
  unfold Compare, first_nonzero, int_cmp.
  destruct (ParseVersion a) as [[ea ua] ra], (ParseVersion b) as [[eb ub] rb]. simpl.
  destruct (Z.eqb_spec ea eb), (Z.ltb_spec ea eb); simpl; reflexivity || lia.
Qed.

Lemma Compare_sign a b : sign3 (Compare a b).
Proof.
  rewrite Compare_unroll.
  repeat apply first_nonzero_sign;
    auto using int_cmp_sign, compareVersionPart_sign.
Qed.

Lemma Compare_refl a : Compare a a = 0.
Proof. rewrite Compare_unroll, int_cmp_refl, !compareVersionPart_refl. reflexivity. Qed.

Lemma Compare_opp a b : Compare a b = - Compare b a.
Proof.
  rewrite !Compare_unroll.
  rewrite (int_cmp_opp (ParseVersion a).1.1),
    (compareVersionPart_opp (ParseVersion a).1.2),
    (compareVersionPart_opp (ParseVersion a).2).
  now rewrite !first_nonzero_opp.
Qed.

Lemma Compare_chain a b c : chain (Compare a b) (Compare b c) (Compare a c).
Proof.
  rewrite !Compare_unroll.
  repeat apply first_nonzero_chain;
    auto using int_cmp_chain, compareVersionPart_chain.
Qed.

End Order.

(** C4: [Compare] is a strict weak order on version strings: it is
    reflexive ([Compare a a = 0]), antisymmetric ([Compare a b = - Compare
    b a]) and transitive ([Compare a b <= 0] and [Compare b c <= 0] give
    [Compare a c <= 0]), for all strings. *)
Theorem Compare_strict_weak_order :
  (forall a, deb.Compare a a = 0)
  /\ (forall a b, deb.Compare a b = - deb.Compare b a)
  /\ (forall a b c,
        deb.Compare a b <= 0 -> deb.Compare b c <= 0 -> deb.Compare a c <= 0).
Proof.
  split; [exact Compare_refl|]. split; [exact Compare_opp|].
  intros a b c Hab Hbc. now apply (Compare_chain a b c).
Qed.

Lemma Compare_strict_weak_order_witness :
  deb.Compare "1.0~rc1" "1.0" <= 0 /\ deb.Compare "1.0" "1:0.5-2" <= 0
  /\ deb.Compare "1.0~rc1" "1:0.5-2" <= 0.
Proof.
  assert (H1 : deb.Compare "1.0~rc1" "1.0" <= 0) by (vm_compute; congruence).
  assert (H2 : deb.Compare "1.0" "1:0.5-2" <= 0) by (vm_compute; congruence).
  split; [exact H1|]. split; [exact H2|].
  exact (proj2 (proj2 Compare_strict_weak_order) _ _ _ H1 H2).
Defined.

(** C5: [Compare "1.0.0" "1.0"] is 1. Two rounds consume the common prefix
    ["1.0"]; in the third the non-digit run ["."] of the longer string
    meets the exhausted shorter one, and the order of ["."] is above 0. *)
Theorem Compare_trailing_zero_component :
  deb.Compare "1.0.0" "1.0" = 1
  /\ after_runs (after_runs "1.0.0") = ".0"
  /\ after_runs (after_runs "1.0") = ""
  /\ nondigit_run ".0" = "."
  /\ 0 < deb.charOrder "."
  /\ deb.compareNonDigits "." "" = 1.
Proof. repeat split. Qed.

(** C3 (the code departs from it): two digit runs above [2^63 - 1] compare
    as equal, because [strconv.ParseInt] returns [2^63 - 1] for both and
    [compareDigits] drops its range error. *)
Theorem compareDigits_saturates :
  deb.compareDigits "9223372036854775808" "9223372036854775809" = 0
  /\ strconv.ParseInt "9223372036854775808" = (2 ^ 63 - 1, Some strconv.ErrRange)
  /\ strconv.ParseInt "9223372036854775809" = (2 ^ 63 - 1, Some strconv.ErrRange)
  /\ deb.Compare "9223372036854775808" "9223372036854775809" = 0.
Proof. repeat split. Qed.

(** ** [compareDigits] on numbers of any size *)

Lemma IsDigit_range (c : ascii) :
  unicode.IsDigit c = true -> 0 <= byte_val c - 48 <= 9.
Proof.
  unfold unicode.IsDigit. intros H. apply andb_true_iff in H as [H1 H2].
  apply Z.leb_le in H1, H2. lia.
Qed.

Lemma digits_value_ge (s : string) (n : Z) :
  all_bytes unicode.IsDigit s = true -> 0 <= n -> n <= digits_value s n.
Proof.
  revert n. induction s as [|c s IH]; intros n Hs Hn; cbn [digits_value]; [lia|].
  cbn [all_bytes] in Hs. apply andb_true_iff in Hs as [Hc Hs].
  pose proof (IsDigit_range c Hc). specialize (IH (n * 10 + (byte_val c - 48)) Hs). lia.
Qed.

(** [ParseUint] reads the value of a digit run, and stops with
    [maxUint64] and a range error when the value does not fit 64 bits. *)
Lemma ParseUint_loop_digits (s : string) (n : Z) :
  all_bytes unicode.IsDigit s = true -> 0 <= n <= strconv.maxUint64 ->
  strconv.ParseUint_loop s n =
  if digits_value s n <=? strconv.maxUint64 then (digits_value s n, None)
  else (strconv.maxUint64, Some strconv.ErrRange).
Proof.
  revert n. induction s as [|c s IH]; intros n Hs Hn; cbn [digits_value strconv.ParseUint_loop].
  - destruct (Z.leb_spec n strconv.maxUint64); [reflexivity | lia].
  - cbn [all_bytes] in Hs. apply andb_true_iff in Hs as [Hc Hs].
    pose proof (IsDigit_range c Hc) as Hd.
    unfold unicode.IsDigit in Hc. rewrite Hc. cbn [negb].
    set (d := byte_val c - 48) in *.
    unfold strconv.maxUint64 in *.
    change (18446744073709551615 / 10 + 1) with 1844674407370955162.
    change (2 ^ 64) with 18446744073709551616.
    pose proof (digits_value_ge s (n * 10 + d) Hs ltac:(lia)) as Hge.
    destruct (Z.leb_spec 1844674407370955162 n) as [Hcut|Hcut].
    + destruct (Z.leb_spec (digits_value s (n * 10 + d)) 18446744073709551615);
        [lia | reflexivity].
    + destruct (Z.le_gt_cases (n * 10 + d) 18446744073709551615) as [Hfit|Hover].
      * rewrite Z.mod_small by lia.
        destruct (Z.ltb_spec (n * 10 + d) (n * 10)); [lia|].
        destruct (Z.ltb_spec 18446744073709551615 (n * 10 + d)); [lia|].
        cbn [orb]. apply IH; [exact Hs | lia].
      * replace ((n * 10 + d) mod 18446744073709551616)
          with (n * 10 + d - 18446744073709551616).
        2:{ apply Zmod_unique with (q := 1); lia. }
        destruct (Z.ltb_spec (n * 10 + d - 18446744073709551616) (n * 10)); [|lia].
        cbn [orb].
        destruct (Z.leb_spec (digits_value s (n * 10 + d)) 18446744073709551615);
          [lia | reflexivity].
Qed.

Lemma ParseInt_digits (s : string) :
  s <> "" -> all_bytes unicode.IsDigit s = true ->
  fst (strconv.ParseInt s) = Z.min (digits_value s 0) (2 ^ 63 - 1).
Proof.
  intros Hne Hs. destruct s as [|c s]; [congruence|].
  unfold strconv.ParseInt.
  assert (Hc : unicode.IsDigit c = true).
  { cbn [all_bytes] in Hs. now apply andb_true_iff in Hs as [Hc _]. }
  assert (Hsign : Ascii.eqb c "+" = false /\ Ascii.eqb c "-" = false).
  { destruct c as [[] [] [] [] [] [] [] []]; try discriminate Hc; split; reflexivity. }
  destruct Hsign as [-> ->]. cbn [orb negb andb].
  unfold strconv.ParseUint. cbn [is_empty].
  rewrite ParseUint_loop_digits by (unfold strconv.maxUint64; (exact Hs || lia)).
  pose proof (digits_value_ge _ 0 Hs ltac:(lia)) as Hge.
  unfold strconv.maxUint64. change (2 ^ 63) with 9223372036854775808.
  destruct (Z.leb_spec (digits_value (String c s) 0) 18446744073709551615).
  - destruct (Z.leb_spec 9223372036854775808 (digits_value (String c s) 0));
      cbn [fst]; lia.
  - change (9223372036854775808 <=? 18446744073709551615) with true.
    cbn [fst]. lia.
Qed.

Lemma digits_value_TrimLeft0 (s : string) :
  digits_value (strings.TrimLeft0 s) 0 = digits_value s 0.
Proof.
  unfold strings.TrimLeft0. induction s as [|c s IH]; [reflexivity|].
  cbn [scan_while]. destruct (Z.eqb_spec (byte_val c) 48) as [E|Hne]; [|reflexivity].
  cbn [slice_from digits_value]. rewrite E. exact IH.
Qed.

Lemma all_bytes_slice_from (p : ascii -> bool) (i : nat) (s : string) :
  all_bytes p s = true -> all_bytes p (slice_from i s) = true.
Proof.
  revert i. induction s as [|c s IH]; intros [|i] H; try exact H.
  cbn [slice_from]. cbn [all_bytes] in H. apply andb_true_iff in H as [_ H]. now apply IH.
Qed.

(** The number [compareDigits] compares a digit run by is its value, cut
    off at [2^63 - 1]. *)
Lemma digit_key_value (s : string) :
  all_bytes unicode.IsDigit s = true ->
  digit_key s = Z.min (digits_value s 0) (2 ^ 63 - 1).
Proof.
  intros Hs. unfold digit_key. rewrite <- digits_value_TrimLeft0.
  pose proof (all_bytes_slice_from _ (scan_while (fun c => byte_val c =? 48) s) s Hs) as Ht.
  fold (strings.TrimLeft0 s) in Ht.
  destruct (strings.TrimLeft0 s) as [|c t] eqn:E; [reflexivity|].
  cbn [is_empty]. now apply ParseInt_digits.
Qed.

(** [compareDigits] compares the values of two digit runs cut off at
    [2^63 - 1]: it is exact on runs below [2^63]. *)
Lemma compareDigits_values (a b : string) :
  all_bytes unicode.IsDigit a = true -> all_bytes unicode.IsDigit b = true ->
  deb.compareDigits a b
  = int_cmp (Z.min (digits_value a 0) (2 ^ 63 - 1))
            (Z.min (digits_value b 0) (2 ^ 63 - 1)).
Proof.
  intros Ha Hb. now rewrite compareDigits_key, !digit_key_value.
Qed.

(** ** [ParseVersion] *)

Lemma scan_while_append_stop (p : ascii -> bool) (u : string) (c : ascii) (b : string) :
  p c = false -> scan_while p (u ++ String c b) = scan_while p u.
Proof.
  intros Hc. induction u as [|x u IH]; simpl.
  - now rewrite Hc.
  - destruct (p x); [now rewrite IH | reflexivity].
Qed.

Lemma slice_from_append_le (i : nat) (u v : string) :
  (i <= len u)%nat -> slice_from i (u ++ v) = slice_from i u ++ v.
Proof.
  revert i. induction u as [|x u IH]; intros i Hi; simpl in *.
  - assert (i = 0%nat) by lia. subst. now destruct v.
  - destruct i as [|i]; [reflexivity|]. simpl. apply IH. unfold len in *. simpl in Hi. lia.
Qed.

Lemma match_tail_split (u r : string) :
  u <> "" -> no_hyphen u = true -> r <> "" -> no_newline r = true ->
  deb.match_tail (u ++ "-" ++ r) = Some (u, r).
Proof.
  intros Hu Hh Hr Hn. unfold deb.match_tail.
  change ("-" ++ r) with (String "-" r).
  rewrite (scan_while_append _ u "-" r Hh eq_refl).
  rewrite slice_to_append, slice_from_append.
  apply is_empty_false in Hu, Hr. rewrite Hu. fold (no_newline r).
  now rewrite Hr, Hn.
Qed.

Lemma match_tail_hyphen_first (r : string) : deb.match_tail (String "-" r) = None.
Proof. reflexivity. Qed.

Lemma IsDigit_hyphen : unicode.IsDigit "-" = false.
Proof. reflexivity. Qed.

Lemma IsDigit_colon : unicode.IsDigit ":" = false.
Proof. reflexivity. Qed.

Lemma versionRegex_no_epoch (u r : string) :
  u <> "" -> no_hyphen u = true -> has_epoch u = false ->
  r <> "" -> no_newline r = true ->
  deb.versionRegex (u ++ "-" ++ r) = Some ("", u, r).
Proof.
  intros Hu Hh He Hr Hn. unfold deb.versionRegex.
  rewrite (match_tail_split u r Hu Hh Hr Hn).
  change ("-" ++ r) with (String "-" r).
  rewrite (scan_while_append_stop _ u "-" r IsDigit_hyphen).
  set (i := scan_while unicode.IsDigit u) in *.
  rewrite (slice_from_append_le i u) by apply scan_while_le.
  unfold has_epoch in He. fold i in He.
  destruct (slice_from i u) as [|c t] eqn:Es; simpl.
  - rewrite andb_false_r. reflexivity.
  - destruct ((0 <? i)%nat && Ascii.eqb c ":") eqn:E; [|reflexivity].
    apply andb_true_iff in E as [Ei Ec]. rewrite Ei, Ec in He. simpl in He.
    apply negb_false_iff, is_empty_true in He. subst t. reflexivity.
Qed.

Lemma versionRegex_epoch (d u r : string) :
  d <> "" -> all_bytes unicode.IsDigit d = true ->
  u <> "" -> no_hyphen u = true -> r <> "" -> no_newline r = true ->
  deb.versionRegex (d ++ ":" ++ u ++ "-" ++ r) = Some (d, u, r).
Proof.
  intros Hd Hdig Hu Hh Hr Hn. unfold deb.versionRegex.
  change (":" ++ u ++ "-" ++ r) with (String ":" (u ++ "-" ++ r)).
  rewrite (scan_while_append _ d ":" _ Hdig IsDigit_colon).
  rewrite slice_from_append, slice_to_append.
  assert (Hlen : (0 <? len d)%nat = true).
  { destruct d; [congruence | reflexivity]. }
  rewrite Hlen. simpl andb. cbv iota.
  now rewrite (match_tail_split u r Hu Hh Hr Hn).
Qed.

(** C2 (the code departs from it): [versionRegex] stops the upstream
    version at the first hyphen, so of a version string with two hyphens
    [ParseVersion] returns as revision all that follows the first one.
    The claim, and the Debian format that the comments of [ParseVersion]
    and [Compare] name, end the upstream version at the last hyphen. The
    order changes with it: [Compare] puts ["1-1-1"] before ["1-1.1"],
    where the upstream versions ["1-1"] and ["1"] of the Debian reading
    decide the other way, under the [compareVersionPart] of the code
    itself. On the example of the claim, which has one hyphen, the code
    does what the claim says. *)
Theorem ParseVersion_not_last_hyphen :
  deb.ParseVersion "1.0-1-2" = (0, "1.0", "1-2")
  /\ spec_upstream "1.0-1-2" = "1.0-1"
  /\ spec_revision "1.0-1-2" = "2"
  /\ (deb.ParseVersion "1.0-1-2").2 <> spec_revision "1.0-1-2"
  /\ (deb.ParseVersion "1.0-1-2").1.2 <> spec_upstream "1.0-1-2"
  /\ deb.Compare "1-1-1" "1-1.1" = -1
  /\ deb.compareVersionPart (spec_upstream "1-1-1") (spec_upstream "1-1.1") = 1
  /\ deb.ParseVersion "2:1.0.0-ubuntu1" = (2, "1.0.0", "ubuntu1").
Proof. repeat split; vm_compute; congruence. Qed.

(** What [ParseVersion] does on a version string [[epoch:]upstream-revision],
    with [epoch] a non-empty run of digits, [upstream] not empty and
    without a hyphen, and [revision] not empty and without a newline: it
    returns the epoch read by [strconv.Atoi] (0 without one), [upstream],
    and as revision all that follows the first hyphen. *)
Lemma ParseVersion_first_hyphen :
  (forall u r,
      u <> "" -> no_hyphen u = true -> has_epoch u = false ->
      r <> "" -> no_newline r = true ->
      deb.ParseVersion (u ++ "-" ++ r) = (0, u, r))
  /\ (forall d u r,
        d <> "" -> all_bytes unicode.IsDigit d = true ->
        u <> "" -> no_hyphen u = true -> r <> "" -> no_newline r = true ->
        deb.ParseVersion (d ++ ":" ++ u ++ "-" ++ r) = (fst (strconv.Atoi d), u, r))
  /\ deb.ParseVersion "2:1.0.0-ubuntu1" = (2, "1.0.0", "ubuntu1").
Proof.
  split; [|split].
  - intros u r Hu Hh He Hr Hn. unfold deb.ParseVersion.
    now rewrite (versionRegex_no_epoch u r Hu Hh He Hr Hn).
  - intros d u r Hd Hdig Hu Hh Hr Hn. unfold deb.ParseVersion.
    rewrite (versionRegex_epoch d u r Hd Hdig Hu Hh Hr Hn).
    apply is_empty_false in Hd. now rewrite Hd.
  - reflexivity.
Qed.

Lemma ParseVersion_first_hyphen_witness :
  deb.ParseVersion ("1.0" ++ "-" ++ "1-2") = (0, "1.0", "1-2")
  /\ deb.ParseVersion ("2" ++ ":" ++ "1.0.0" ++ "-" ++ "ubuntu1")
     = (fst (strconv.Atoi "2"), "1.0.0", "ubuntu1").
Proof.
  split.
  - apply (proj1 ParseVersion_first_hyphen "1.0" "1-2"); (discriminate || reflexivity).
  - apply (proj1 (proj2 ParseVersion_first_hyphen) "2" "1.0.0" "ubuntu1");
      (discriminate || reflexivity).
Defined.

(** ** [PoolPath] *)

Lemma split_sep_append (e rest cur : string) :
  no_slash e = true ->
  filepath.split_sep (e ++ rest) cur = filepath.split_sep rest (cur ++ e).
Proof.
  revert cur. induction e as [|c e IH]; intros cur He; simpl in *.
  - now rewrite append_nil_r.
  - apply andb_true_iff in He as [Hc He]. apply negb_true_iff in Hc. rewrite Hc.
    rewrite IH by exact He. now rewrite append_assoc.
Qed.

Lemma split_sep_join (es : list string) (e : string) :
  Forall (fun x => no_slash x = true) (e :: es) ->
  filepath.split_sep (filepath.join_sep (e :: es)) "" = e :: es.
Proof.
  revert e. induction es as [|e' es IH]; intros e Hall.
  - simpl. inversion Hall; subst.
    rewrite <- (append_nil_r e) at 1. rewrite split_sep_append by assumption.
    reflexivity.
  - inversion Hall; subst.
    change (filepath.join_sep (e :: e' :: es))
      with (e ++ String "/" (filepath.join_sep (e' :: es))).
    rewrite split_sep_append by assumption. simpl. f_equal. now apply IH.
Qed.

Lemma clean_step_plain (out : list string) (e : string) :
  plain_element e = true -> filepath.clean_step false out e = e :: out.
Proof.
  unfold plain_element, filepath.clean_step. intros H.
  apply andb_true_iff in H as [H H4]. apply andb_true_iff in H as [H H3].
  apply andb_true_iff in H as [H1 H2].
  apply negb_true_iff in H1, H3, H4. now rewrite H1, H3, H4.
Qed.

Lemma foldl_clean_step_plain (es out : list string) :
  Forall (fun x => plain_element x = true) es ->
  foldl (filepath.clean_step false) out es = (rev es ++ out)%list.
Proof.
  revert out. induction es as [|e es IH]; intros out Hall; [reflexivity|].
  inversion Hall; subst. simpl. rewrite clean_step_plain by assumption.
  rewrite IH by assumption. now rewrite <- app_assoc.
Qed.

Lemma plain_element_no_slash e : plain_element e = true -> no_slash e = true.
Proof.
  unfold plain_element. intros H.
  apply andb_true_iff in H as [H _]. apply andb_true_iff in H as [H _].
  now apply andb_true_iff in H as [_ H].
Qed.

Lemma plain_element_nonempty e : plain_element e = true -> is_empty e = false.
Proof.
  unfold plain_element. intros H.
  apply andb_true_iff in H as [H _]. apply andb_true_iff in H as [H _].
  apply andb_true_iff in H as [H _]. now apply negb_true_iff in H.
Qed.

Lemma HasPrefix_slash_no_slash (s : string) :
  no_slash s = true -> strings.HasPrefix s "/" = false.
Proof.
  destruct s as [|c s]; [reflexivity|]. unfold no_slash. simpl. intros H.
  apply andb_true_iff in H as [H _]. apply negb_true_iff in H.
  unfold strings.HasPrefix. simpl. now rewrite H.
Qed.

Lemma join_sep_cons_nonempty (e : string) (es : list string) :
  is_empty e = false -> is_empty (filepath.join_sep (e :: es)) = false.
Proof. destruct e; [discriminate|]. intros _. now destruct es. Qed.

Lemma HasPrefix_join_sep (e : string) (es : list string) :
  is_empty e = false ->
  strings.HasPrefix (filepath.join_sep (e :: es)) "/" = strings.HasPrefix e "/".
Proof. destruct e as [|c e]; [discriminate|]. intros _. now destruct es. Qed.

(** [filepath.Join] leaves a list of plain elements as [strings.Join]
    writes it. *)
Lemma Join_plain (e : string) (es : list string) :
  Forall (fun x => plain_element x = true) (e :: es) ->
  filepath.Join (e :: es) = filepath.join_sep (e :: es).
Proof.
  intros Hall. pose proof Hall as Hall'. inversion Hall; subst.
  cbn [filepath.Join]. rewrite (plain_element_nonempty e) by assumption.
  unfold filepath.Clean.
  rewrite join_sep_cons_nonempty by now apply plain_element_nonempty.
  rewrite HasPrefix_join_sep by now apply plain_element_nonempty.
  rewrite HasPrefix_slash_no_slash by now apply plain_element_no_slash.
  rewrite split_sep_join.
  2:{ eapply Forall_impl; [exact Hall'|]. intros x. apply plain_element_no_slash. }
  rewrite foldl_clean_step_plain by assumption.
  rewrite app_nil_r, rev_involutive.
  now rewrite join_sep_cons_nonempty by now apply plain_element_nonempty.
Qed.

Lemma no_slash_slice_to (i : nat) (s : string) :
  no_slash s = true -> no_slash (slice_to i s) = true.
Proof.
  unfold no_slash. revert i. induction s as [|c s IH]; intros [|i] H; simpl in *; try reflexivity.
  apply andb_true_iff in H as [Hc H]. rewrite Hc. now apply IH.
Qed.

Lemma plain_name_element name : plain_name name = true -> plain_element name = true.
Proof.
  unfold plain_name, plain_element. intros H.
  apply andb_true_iff in H as [H H3]. apply andb_true_iff in H as [H1 H2].
  rewrite H1, H2. simpl.
  destruct name as [|c n]; [discriminate|].
  unfold strings.HasPrefix in H3. simpl in H3.
  destruct (Ascii.eqb c ".") eqn:E; [discriminate|].
  simpl. now rewrite E.
Qed.

Lemma plain_name_prefix (i : nat) name :
  plain_name name = true -> plain_element (slice_to (S i) name) = true.
Proof.
  intros H. apply plain_name_element.
  unfold plain_name in *.
  apply andb_true_iff in H as [H H3]. apply andb_true_iff in H as [H1 H2].
  rewrite (no_slash_slice_to _ _ H2).
  destruct name as [|c n]; [discriminate|].
  unfold strings.HasPrefix in *. simpl in *.
  destruct (Ascii.eqb c "."); [discriminate | reflexivity].
Qed.

Lemma PoolPath_Join (p : deb.Package) (filename : string) :
  p.(deb.Name) <> "" ->
  deb.PoolPath p filename
  = Some (filepath.Join ["pool"; "main"; spec_prefix p.(deb.Name); p.(deb.Name); filename]).
Proof.
  intros Hn. unfold deb.PoolPath, spec_prefix.
  destruct (strings.HasPrefix (deb.Name p) "lib" && (3 <? len (deb.Name p))%nat);
    [reflexivity|].
  destruct (deb.Name p); [congruence | reflexivity].
Qed.

(** C8 as stated fails: the name ["."] is not empty, and its package goes
    to [pool/main/f.deb], not to [pool/main/././f.deb]; the name [".."]
    leaves [pool/main]. *)
Lemma PoolPath_not_concatenation :
  deb.PoolPath (deb.set_Name "." deb.emptyPackage) "f.deb" = Some "pool/main/f.deb"
  /\ spec_PoolPath "." "f.deb" = "pool/main/././f.deb"
  /\ deb.PoolPath (deb.set_Name "." deb.emptyPackage) "f.deb"
     <> Some (spec_PoolPath "." "f.deb")
  /\ deb.PoolPath (deb.set_Name ".." deb.emptyPackage) "f.deb" = Some "pool/f.deb".
Proof. repeat split; vm_compute; congruence. Qed.

(** C8, amended: for every package name that is not empty, [PoolPath]
    returns [filepath.Join] of [pool], [main], the prefix, the name and the
    file name, which cleans the path; when the name holds no [/] and does
    not start with [.], and the file name is a single path element other
    than [.] and [..], this is [pool/main/<prefix>/<name>/<filename>]. The
    prefix is the first four bytes of a name that starts with [lib] and is
    longer than three bytes, and the first byte otherwise: [m] for [myapp],
    [libf] for [libfoo], [l] for [lib]. *)
Theorem PoolPath_plain :
  (forall p filename,
      p.(deb.Name) <> "" ->
      deb.PoolPath p filename
      = Some (filepath.Join ["pool"; "main"; spec_prefix p.(deb.Name);
                             p.(deb.Name); filename]))
  /\ (forall p filename,
        plain_name p.(deb.Name) = true -> plain_element filename = true ->
        deb.PoolPath p filename = Some (spec_PoolPath p.(deb.Name) filename))
  /\ spec_prefix "myapp" = "m"
  /\ spec_prefix "libfoo" = "libf"
  /\ spec_prefix "lib" = "l".
Proof.
  split; [exact PoolPath_Join|]. split; [|repeat split].
  intros p filename Hn Hf.
  assert (Hne : deb.Name p <> "").
  { intros E. rewrite E in Hn. discriminate. }
  rewrite (PoolPath_Join p filename Hne). f_equal.
  rewrite Join_plain.
  - unfold spec_PoolPath. cbn [filepath.join_sep].
    destruct (spec_prefix (deb.Name p)) eqn:E1; destruct (deb.Name p) eqn:E2;
      destruct filename; try reflexivity; try congruence.
  - repeat constructor; try assumption; try reflexivity.
    + unfold spec_prefix.
      destruct (strings.HasPrefix _ _ && _); now apply plain_name_prefix.
    + now apply plain_name_element.
Qed.

Lemma PoolPath_plain_witness :
  deb.PoolPath (deb.set_Name "libfoo" deb.emptyPackage) "libfoo_1.0.0_amd64.deb"
  = Some "pool/main/libf/libfoo/libfoo_1.0.0_amd64.deb".
Proof.
  exact (proj1 (proj2 PoolPath_plain) (deb.set_Name "libfoo" deb.emptyPackage)
           "libfoo_1.0.0_amd64.deb" eq_refl eq_refl).
Defined.

(** ** Extraction *)

Lemma slice_from_S_tail (i : nat) (s : string) :
  slice_from (S i) s = tail (slice_from i s).
Proof.
  revert i. induction s as [|c s IH]; intros i; [now destruct i|].
  destruct i as [|i]; [now destruct s | simpl]. apply IH.
Qed.

(** A name that ends in [.zst] ends neither in [.gz] nor in [.xz]. *)
Lemma HasSuffix_zst (s : string) :
  strings.HasSuffix s ".zst" = true ->
  strings.HasSuffix s ".gz" = false /\ strings.HasSuffix s ".xz" = false.
Proof.
  unfold strings.HasSuffix. intros H.
  apply andb_true_iff in H as [Hl He].
  apply Nat.leb_le in Hl. apply String.eqb_eq in He.
  change (len ".zst") with 4%nat in *. change (len ".gz") with 3%nat.
  change (len ".xz") with 3%nat.
  replace (len s - 3)%nat with (S (len s - 4)) by lia.
  rewrite slice_from_S_tail, He. simpl. now rewrite !andb_false_r.
Qed.

Lemma extractControl_zst tmp tmpName r name :
  strings.HasSuffix name ".zst" = true ->
  deb.extractControl tmp tmpName r name =
  match r.(deb.m_read) with
  | Err err => Err (wrapError "read zst data" err)
  | Ok data => deb.extractControlFromZstd tmp tmpName data
  end.
Proof.
  intros H. unfold deb.extractControl.
  destruct (HasSuffix_zst name H) as [-> ->]. now rewrite H.
Qed.

Lemma extractControlFromZstd_fails tmp tmpName data :
  exists e, deb.extractControlFromZstd tmp tmpName data = Err e.
Proof.
  unfold deb.extractControlFromZstd, deb.extractControlWithCmd.
  destruct (deb.t_create tmp), (deb.t_write tmp), (deb.t_close tmp); eauto.
Qed.

Lemma find_control_skip tmp tmpName (before : list deb.Member) rest :
  Forall (fun b => is_control b = false) before ->
  deb.find_control tmp tmpName (map Ok before ++ rest)
  = deb.find_control tmp tmpName rest.
Proof.
  induction 1 as [|b before Hb _ IH]; [reflexivity|].
  simpl. unfold is_control, member_name in Hb. now rewrite Hb.
Qed.

(** C9: when the control member of an archive (the first member whose name
    starts with [control.tar]) has a name that ends in [.zst], [Parse]
    never returns a package: it returns an error. When no call into the
    operating system fails, the error is ["extract control: xz/zstd
    decompression not implemented - use gzip"], which does not stem from
    an I/O failure. *)
Theorem Parse_zst_unsupported :
  forall tmp tmpName f before m after,
    f.(deb.f_members) = (map Ok before ++ Ok m :: after)%list ->
    Forall (fun b => is_control b = false) before ->
    is_control m = true ->
    strings.HasSuffix (member_name m) ".zst" = true ->
    (exists e, deb.Parse tmp tmpName f = Err e)
    /\ (io_succeeds tmp f m ->
        deb.Parse tmp tmpName f = Err unsupported_compression)
    /\ io_cause unsupported_compression = false
    /\ Error unsupported_compression
       = "extract control: xz/zstd decompression not implemented - use gzip".
Proof.
  intros tmp tmpName f before m after Hm Hb Hc Hz.
  assert (Hfind : deb.find_control tmp tmpName f.(deb.f_members)
                  = match m.(deb.m_read) with
                    | Err err => Err (wrapError "extract control"
                                        (wrapError "read zst data" err))
                    | Ok data =>
                        match deb.extractControlFromZstd tmp tmpName data with
                        | Err err => Err (wrapError "extract control" err)
                        | Ok d => Ok (Some d)
                        end
                    end).
  { rewrite Hm, find_control_skip by exact Hb. simpl.
    unfold is_control, member_name in Hc, Hz. rewrite Hc.
    rewrite extractControl_zst by exact Hz. now destruct (deb.m_read m). }
  split; [|split; [|split; reflexivity]].
  - unfold deb.Parse. rewrite Hfind.
    destruct (deb.f_open f), (deb.f_stat f), (deb.f_copy f), (deb.f_seek f); eauto.
    destruct (deb.m_read m) as [data|err]; eauto.
    destruct (extractControlFromZstd_fails tmp tmpName data) as [e ->]. eauto.
  - intros (Ho & Hs & Hcp & Hsk & [data Hr] & Ht1 & Ht2 & Ht3).
    unfold deb.Parse. rewrite Hfind, Ho, Hs, Hcp, Hsk, Hr.
    unfold deb.extractControlFromZstd. now rewrite Ht1, Ht2, Ht3.
Qed.

Lemma Parse_zst_unsupported_witness :
  deb.Parse (deb.mkTempFile None None None) "/tmp/control.tar.zst1"
    (deb.mkFile None None None None 1024 "" "" ""
       [Ok (deb.mkMember "debian-binary" (Ok "2.0") (Err (errorString "bad gzip")) []);
        Ok (deb.mkMember "control.tar.zst/" (Ok "data") (Err (errorString "bad gzip")) []);
        Ok (deb.mkMember "data.tar.zst/" (Ok "data") (Err (errorString "bad gzip")) [])])
  = Err unsupported_compression.
Proof.
  refine (proj1 (proj2 (Parse_zst_unsupported
            (deb.mkTempFile None None None) "/tmp/control.tar.zst1"
            (deb.mkFile None None None None 1024 "" "" "" _)
            [deb.mkMember "debian-binary" (Ok "2.0") (Err (errorString "bad gzip")) []]
            (deb.mkMember "control.tar.zst/" (Ok "data") (Err (errorString "bad gzip")) [])
            [Ok (deb.mkMember "data.tar.zst/" (Ok "data") (Err (errorString "bad gzip")) [])]
            eq_refl _ eq_refl eq_refl)) _).
  - repeat constructor.
  - unfold io_succeeds. simpl. repeat split; eauto.
Defined.

(** ** [strconv]: what [FormatInt] writes, [ParseInt] reads *)

Lemma digit_byte (d : Z) :
  0 <= d <= 9 -> byte_val (ascii_of_N (Z.to_N (48 + d))) = 48 + d.
Proof.
  intros H.
  assert (E : d = 0 \/ d = 1 \/ d = 2 \/ d = 3 \/ d = 4 \/ d = 5 \/ d = 6
              \/ d = 7 \/ d = 8 \/ d = 9) by lia.
  repeat destruct E as [E|E]; subst; reflexivity.
Qed.

Lemma formatBits_step (fuel : nat) (u : Z) (acc : string) :
  strconv.formatBits (S fuel) u acc =
  let acc' := String (ascii_of_N (Z.to_N (48 + u mod 10))) acc in
  if u <? 10 then acc' else strconv.formatBits fuel (u / 10) acc'.
Proof. reflexivity. Qed.

Lemma ParseUint_loop_digit (d : Z) (acc : string) (n : Z) :
  0 <= d <= 9 -> 0 <= n -> n * 10 + d <= strconv.maxUint64 ->
  strconv.ParseUint_loop (String (ascii_of_N (Z.to_N (48 + d))) acc) n
  = strconv.ParseUint_loop acc (n * 10 + d).
Proof.
  intros Hd Hn Hmax. cbn [strconv.ParseUint_loop].
  rewrite (digit_byte d Hd).
  replace ((48 <=? 48 + d) && (48 + d <=? 57)) with true
    by (symmetry; apply andb_true_iff; split; apply Z.leb_le; lia).
  cbn [negb]. replace (48 + d - 48) with d by lia.
  unfold strconv.maxUint64 in *.
  change (18446744073709551615 / 10 + 1) with 1844674407370955162.
  destruct (Z.leb_spec 1844674407370955162 n); [lia|].
  rewrite Z.mod_small by (change (2 ^ 64) with 18446744073709551616; lia).
  destruct (Z.ltb_spec (n * 10 + d) (n * 10)); [lia|].
  destruct (Z.ltb_spec 18446744073709551615 (n * 10 + d)); [lia|].
  reflexivity.
Qed.

(** Reading the digits [formatBits] has written in front of [acc] gives
    the number back and goes on with [acc]. *)
Lemma ParseUint_loop_formatBits (fuel : nat) (u : Z) (acc : string) :
  0 <= u < 10 ^ Z.of_nat fuel -> u <= strconv.maxUint64 ->
  strconv.ParseUint_loop (strconv.formatBits fuel u acc) 0
  = strconv.ParseUint_loop acc u.
Proof.
  revert u acc. induction fuel as [|fuel IH]; intros u acc Hu Hmax.
  - change (10 ^ Z.of_nat 0) with 1 in Hu. assert (u = 0) by lia. now subst.
  - rewrite formatBits_step. cbv zeta.
    pose proof (Z.mod_pos_bound u 10 ltac:(lia)) as Hmod.
    pose proof (Z.div_mod u 10 ltac:(lia)) as Hdiv.
    destruct (Z.ltb_spec u 10) as [Hlt|Hge].
    + rewrite Z.mod_small by lia.
      rewrite ParseUint_loop_digit by (unfold strconv.maxUint64 in *; lia).
      reflexivity.
    + rewrite IH.
      * rewrite ParseUint_loop_digit.
        -- f_equal. lia.
        -- lia.
        -- apply Z.div_pos; lia.
        -- lia.
      * split; [apply Z.div_pos; lia|].
        apply Z.div_lt_upper_bound; [lia|].
        rewrite Nat2Z.inj_succ, Z.pow_succ_r in Hu by lia. lia.
      * pose proof (Z.div_pos u 10 ltac:(lia) ltac:(lia)). lia.
Qed.

Lemma formatBits_cons (fuel : nat) (u : Z) (acc : string) :
  exists d s, 0 <= d <= 9
    /\ strconv.formatBits (S fuel) u acc = String (ascii_of_N (Z.to_N (48 + d))) s.
Proof.
  revert u acc. induction fuel as [|fuel IH]; intros u acc.
  - rewrite formatBits_step. cbv zeta.
    pose proof (Z.mod_pos_bound u 10 ltac:(lia)).
    destruct (u <? 10); eexists _, _; split; try reflexivity; lia.
  - rewrite formatBits_step. cbv zeta.
    pose proof (Z.mod_pos_bound u 10 ltac:(lia)).
    destruct (u <? 10); [eexists _, _; split; try reflexivity; lia|].
    apply IH.
Qed.

(** [ParseInt] reads back what [FormatInt] writes for a positive
    [int64]. *)
Lemma ParseInt_FormatInt (i : Z) :
  0 <= i < 2 ^ 63 -> strconv.ParseInt (strconv.FormatInt i) = (i, None).
Proof.
  intros Hi. unfold strconv.FormatInt.
  destruct (Z.ltb_spec i 0); [lia|].
  pose proof (ParseUint_loop_formatBits 20 i "") as Hloop.
  destruct (formatBits_cons 19 i "") as (d & s & Hd & E).
  unfold strconv.ParseInt. rewrite E.
  assert (Hplus : Ascii.eqb (ascii_of_N (Z.to_N (48 + d))) "+" = false).
  { assert (E' : d = 0 \/ d = 1 \/ d = 2 \/ d = 3 \/ d = 4 \/ d = 5 \/ d = 6
              \/ d = 7 \/ d = 8 \/ d = 9) by lia.
    repeat destruct E' as [E'|E']; subst; reflexivity. }
  assert (Hminus : Ascii.eqb (ascii_of_N (Z.to_N (48 + d))) "-" = false).
  { assert (E' : d = 0 \/ d = 1 \/ d = 2 \/ d = 3 \/ d = 4 \/ d = 5 \/ d = 6
              \/ d = 7 \/ d = 8 \/ d = 9) by lia.
    repeat destruct E' as [E'|E']; subst; reflexivity. }
  rewrite Hplus, Hminus. cbn [orb].
  unfold strconv.ParseUint. cbn [is_empty]. rewrite <- E.
  rewrite Hloop.
  - cbn [strconv.ParseUint_loop negb andb].
    destruct (Z.leb_spec (2 ^ 63) i); [lia | reflexivity].
  - change (10 ^ Z.of_nat 20) with 100000000000000000000.
    change (2 ^ 63) with 9223372036854775808 in Hi. lia.
  - unfold strconv.maxUint64. change (2 ^ 63) with 9223372036854775808 in Hi. lia.
Qed.

(** ** [strings.TrimSpace] and [bufio] *)

Lemma all_bytes_append (p : ascii -> bool) (a b : string) :
  all_bytes p (a ++ b) = all_bytes p a && all_bytes p b.
Proof. induction a as [|c a IH]; simpl; [reflexivity | now rewrite IH, andb_assoc]. Qed.

Lemma all_bytes_impl (p q : ascii -> bool) (s : string) :
  (forall c, p c = true -> q c = true) -> all_bytes p s = true -> all_bytes q s = true.
Proof.
  intros Hpq. induction s as [|c s IH]; simpl; [reflexivity|].
  intros H. apply andb_true_iff in H as [Hc Hs]. now rewrite (Hpq c Hc), IH.
Qed.

Lemma string_rev_append (a b : string) :
  string_rev (a ++ b) = string_rev b ++ string_rev a.
Proof.
  induction a as [|c a IH]; simpl; [now rewrite append_nil_r|].
  now rewrite IH, append_assoc.
Qed.

Lemma string_rev_involutive (s : string) : string_rev (string_rev s) = s.
Proof.
  induction s as [|c s IH]; simpl; [reflexivity|].
  rewrite string_rev_append, IH. reflexivity.
Qed.

Lemma len_string_rev (s : string) : len (string_rev s) = len s.
Proof.
  induction s as [|c s IH]; simpl; [reflexivity|].
  rewrite len_append, IH. unfold len. simpl. lia.
Qed.

Lemma all_bytes_string_rev (p : ascii -> bool) (s : string) :
  all_bytes p (string_rev s) = all_bytes p s.
Proof.
  induction s as [|c s IH]; simpl; [reflexivity|].
  rewrite all_bytes_append, IH. simpl. now rewrite andb_true_r, andb_comm.
Qed.

(** Both width functions are 0 on a string that starts with a plain byte
    and positive on no empty string. *)
Lemma space_width_plain c s :
  plain_byte c = true -> strings.space_width (String c s) = 0%nat.
Proof.
  unfold plain_byte. intros H. apply andb_true_iff in H as [H1 H2].
  apply negb_true_iff in H2. simpl. now rewrite H1, H2.
Qed.

Lemma space_width_last_plain c s :
  plain_byte c = true -> strings.space_width_last (String c s) = 0%nat.
Proof.
  unfold plain_byte. intros H. apply andb_true_iff in H as [H1 H2].
  apply negb_true_iff in H2. simpl. now rewrite H1, H2.
Qed.

Lemma trim_loop_zero width fuel s :
  width s = 0%nat -> strings.trim_loop width fuel s = s.
Proof. intros H. destruct fuel; simpl; [reflexivity | now rewrite H]. Qed.

Lemma trim_loop_len width fuel s :
  (len (strings.trim_loop width fuel s) <= len s)%nat.
Proof.
  revert s. induction fuel as [|fuel IH]; intros s; cbn [strings.trim_loop]; [lia|].
  destruct (width s) as [|w]; [lia|].
  etransitivity; [apply IH | apply len_slice_from_le].
Qed.

(** A round of the trimming loop that removes a rune shortens the
    string. *)
Lemma trim_loop_shorter width fuel s :
  width "" = 0%nat ->
  strings.trim_loop width (S fuel) s = s -> width s = 0%nat.
Proof.
  intros Hw H. cbn [strings.trim_loop] in H.
  destruct (width s) as [|w] eqn:E; [reflexivity|].
  exfalso. destruct s as [|c s]; [congruence|].
  pose proof (trim_loop_len width fuel (slice_from (S w) (String c s))) as Hl.
  rewrite H in Hl. simpl in Hl.
  pose proof (len_slice_from_le w s). unfold len in *. simpl in *. lia.
Qed.

Lemma TrimLeftSpace_len s : (len (strings.TrimLeftSpace s) <= len s)%nat.
Proof. apply trim_loop_len. Qed.

Lemma TrimRightSpace_len s : (len (strings.TrimRightSpace s) <= len s)%nat.
Proof.
  unfold strings.TrimRightSpace. rewrite len_string_rev.
  etransitivity; [apply trim_loop_len | now rewrite len_string_rev].
Qed.

Lemma TrimLeftSpace_fixed s :
  len (strings.TrimLeftSpace s) = len s -> strings.TrimLeftSpace s = s.
Proof.
  unfold strings.TrimLeftSpace. destruct s as [|c s]; [reflexivity|].
  change (len (String c s)) with (S (len s)). intros H.
  cbn [strings.trim_loop] in *.
  destruct (strings.space_width (String c s)) as [|w]; [reflexivity|].
  exfalso.
  pose proof (trim_loop_len strings.space_width (len s) (slice_from (S w) (String c s))) as Hl.
  rewrite H in Hl. simpl in Hl.
  pose proof (len_slice_from_le w s). lia.
Qed.

(** A value that [TrimSpace] leaves as it is starts and ends with no
    white space. *)
Lemma TrimSpace_fixed_parts s :
  strings.TrimSpace s = s ->
  strings.TrimLeftSpace s = s /\ strings.TrimRightSpace s = s.
Proof.
  unfold strings.TrimSpace. intros H.
  assert (Hl : strings.TrimLeftSpace s = s).
  { apply TrimLeftSpace_fixed.
    pose proof (TrimLeftSpace_len s).
    pose proof (TrimRightSpace_len (strings.TrimLeftSpace s)) as Hr.
    rewrite H in Hr. lia. }
  split; [exact Hl | now rewrite Hl in H].
Qed.

Lemma TrimSpace_space_cons s :
  strings.TrimSpace (String " " s) = strings.TrimSpace s.
Proof. reflexivity. Qed.

Lemma TrimSpace_plain s :
  all_bytes plain_byte s = true -> strings.TrimSpace s = s.
Proof.
  intros H. unfold strings.TrimSpace.
  assert (Hl : strings.TrimLeftSpace s = s).
  { unfold strings.TrimLeftSpace. apply trim_loop_zero.
    destruct s as [|c s]; [reflexivity|]. simpl in H.
    apply andb_true_iff in H as [H _]. now apply space_width_plain. }
  rewrite Hl. unfold strings.TrimRightSpace. rewrite trim_loop_zero.
  - apply string_rev_involutive.
  - rewrite <- all_bytes_string_rev in H.
    destruct (string_rev s) as [|c r]; [reflexivity|]. simpl in H.
    apply andb_true_iff in H as [H _]. now apply space_width_last_plain.
Qed.

Lemma slice_from_append_ge (a v : string) (k : nat) :
  slice_from (len a + k) (a ++ v) = slice_from k v.
Proof. induction a as [|c a IH]; simpl; [reflexivity | exact IH]. Qed.

Lemma HasSuffix_append (a v suffix : string) :
  (len suffix <= len v)%nat ->
  strings.HasSuffix (a ++ v) suffix = strings.HasSuffix v suffix.
Proof.
  intros H. unfold strings.HasSuffix. rewrite len_append.
  replace (len a + len v - len suffix)%nat with (len a + (len v - len suffix))%nat by lia.
  rewrite slice_from_append_ge.
  destruct (Nat.leb_spec (len suffix) (len v)), (Nat.leb_spec (len suffix) (len a + len v));
    try lia; reflexivity.
Qed.

Lemma HasSuffix_split (s suffix : string) :
  strings.HasSuffix s suffix = true -> exists a, s = a ++ suffix.
Proof.
  unfold strings.HasSuffix. intros H. apply andb_true_iff in H as [_ H].
  apply String.eqb_eq in H. exists (slice_to (len s - len suffix) s).
  rewrite <- H at 2. symmetry. apply slice_to_from.
Qed.

(** A value that [TrimSpace] leaves as it is does not end in a carriage
    return. *)
Lemma TrimSpace_fixed_no_CR v :
  strings.TrimSpace v = v -> strings.HasSuffix v (String "013" "") = false.
Proof.
  intros H. destruct (TrimSpace_fixed_parts v H) as [_ Hr].
  destruct (strings.HasSuffix v (String "013" "")) eqn:E; [exfalso | reflexivity].
  destruct (HasSuffix_split _ _ E) as [a ->].
  unfold strings.TrimRightSpace in Hr.
  apply (f_equal string_rev) in Hr. rewrite string_rev_involutive in Hr.
  rewrite string_rev_append in Hr. simpl in Hr.
  rewrite len_append in Hr. replace (len a + len (String "013" ""))%nat
    with (S (len a)) in Hr by (unfold len; simpl; lia).
  apply trim_loop_shorter in Hr; [discriminate | reflexivity].
Qed.

Lemma dropCR_fixed (a v : string) :
  v <> "" -> strings.TrimSpace v = v -> bufio.dropCR (a ++ v) = a ++ v.
Proof.
  intros Hv Ht. unfold bufio.dropCR.
  rewrite HasSuffix_append.
  - now rewrite (TrimSpace_fixed_no_CR v Ht).
  - destruct v; [congruence | unfold len; simpl; lia].
Qed.

Lemma eqb_newline (c : ascii) : Ascii.eqb c "010" = (byte_val c =? 10).
Proof. destruct c as [[] [] [] [] [] [] [] []]; reflexivity. Qed.

Lemma IndexByte_none (s : string) (c : ascii) :
  all_bytes (fun x => negb (Ascii.eqb x c)) s = true -> strings.IndexByte s c = None.
Proof.
  induction s as [|x s IH]; simpl; [reflexivity|]. intros H.
  apply andb_true_iff in H as [Hx Hs]. apply negb_true_iff in Hx.
  now rewrite Hx, IH.
Qed.

Lemma IndexByte_append (a b : string) (c : ascii) :
  all_bytes (fun x => negb (Ascii.eqb x c)) a = true ->
  strings.IndexByte (a ++ String c b) c = Some (len a).
Proof.
  induction a as [|x a IH]; simpl; [now rewrite Ascii.eqb_refl|]. intros H.
  apply andb_true_iff in H as [Hx Hs]. apply negb_true_iff in Hx.
  now rewrite Hx, IH.
Qed.

Lemma no_newline_all (s : string) :
  no_newline s = true -> all_bytes (fun x => negb (Ascii.eqb x "010")) s = true.
Proof. apply all_bytes_impl. intros c. now rewrite eqb_newline. Qed.

Lemma slice_from_S_append (a : string) (c : ascii) (b : string) :
  slice_from (S (len a)) (a ++ String c b) = b.
Proof. induction a as [|x a IH]; simpl; [reflexivity | exact IH]. Qed.

(** The scanner gives a line that ends in a newline, holds no other and is
    shorter than the buffer, and goes on behind it. *)
Lemma Scan_loop_line (fuel : nat) (line rest : string) :
  line <> "" -> no_newline line = true ->
  Z.of_nat (len line) < bufio.MaxScanTokenSize ->
  bufio.Scan_loop (S fuel) (line ++ String "010" rest)
  = bufio.dropCR line :: bufio.Scan_loop fuel rest.
Proof.
  intros Hne Hnl Hlen. cbn [bufio.Scan_loop].
  destruct line as [|c line]; [congruence|]. cbn [String.append is_empty].
  change (String c (line ++ String "010" rest))
    with (String c line ++ String "010" rest).
  rewrite (IndexByte_append _ _ _ (no_newline_all _ Hnl)).
  destruct (Z.ltb_spec (Z.of_nat (len (String c line))) bufio.MaxScanTokenSize); [|lia].
  rewrite slice_to_append.
  now rewrite (slice_from_S_append (String c line)).
Qed.

(** ** Control stanzas: printing, then parsing *)

Lemma ControlString_fields (p : deb.Package) :
  deb.ControlString p
  = foldl (fun b f => deb.writeField b f.1 f.2) "" (control_fields p).
Proof.
  unfold deb.ControlString, control_fields. cbn [foldl fst snd].
  destruct (0 <? deb.InstalledSize p); reflexivity.
Qed.

Lemma writeField_fields (fields : list (string * string)) (b : string) :
  foldl (fun b f => deb.writeField b f.1 f.2) b fields
  = b ++ stanza (List.filter written fields).
Proof.
  revert b. induction fields as [|[n v] fields IH]; intros b; cbn [foldl List.filter].
  - symmetry. apply append_nil_r.
  - rewrite IH. unfold written, deb.writeField. cbn [fst snd].
    destruct (negb (is_empty v)); [|reflexivity].
    cbn [stanza]. unfold field_line. cbn [fst snd].
    now rewrite !append_assoc.
Qed.

Lemma value_lines_unlines (v cur : string) :
  match value_lines v cur with
  | first :: more => unlines first more = cur ++ v
  | [] => False
  end.
Proof.
  revert cur. induction v as [|c v IH]; intros cur; cbn [value_lines].
  - cbn. now rewrite append_nil_r.
  - destruct (Ascii.eqb_spec c "010") as [->|Hc].
    + specialize (IH ""). destruct (value_lines v "") as [|l ls]; [contradiction|].
      cbn [unlines]. now rewrite IH.
    + specialize (IH (cur ++ String c "")).
      destruct (value_lines v (cur ++ String c "")) as [|l ls]; [contradiction|].
      rewrite IH. now rewrite append_assoc.
Qed.

Lemma value_lines_no_newline (v cur : string) :
  no_newline cur = true ->
  Forall (fun l => no_newline l = true) (value_lines v cur).
Proof.
  revert cur. induction v as [|c v IH]; intros cur Hcur; cbn [value_lines].
  - now constructor.
  - destruct (Ascii.eqb c "010") eqn:Ec.
    + constructor; [exact Hcur | now apply IH].
    + apply IH. unfold no_newline in *. rewrite all_bytes_append, Hcur.
      cbn. rewrite eqb_newline in Ec. now rewrite Ec.
Qed.

Lemma value_lines_plain (v : string) :
  no_newline v = true -> value_lines v "" = [v].
Proof.
  assert (H : forall w cur, no_newline w = true -> value_lines w cur = [cur ++ w]).
  { intros w. induction w as [|c r IH]; intros cur Hn; cbn [value_lines].
    - now rewrite append_nil_r.
    - unfold no_newline in Hn. cbn in Hn. apply andb_true_iff in Hn as [Hc Hr].
      rewrite eqb_newline. apply negb_true_iff in Hc. rewrite Hc.
      rewrite IH by exact Hr. now rewrite append_assoc. }
  intros Hn. now rewrite H.
Qed.

(** What [clean_value] says of a value: [first] and [more] are its
    lines. *)
Lemma clean_value_parts v :
  clean_value v = true ->
  strings.TrimSpace v = v
  /\ exists first more,
       v = unlines first more
       /\ strings.TrimSpace first = first
       /\ Forall (fun l => no_newline l = true /\ short_line l = true) (first :: more)
       /\ Forall (fun l => continuation_line l = true) more.
Proof.
  unfold clean_value. intros H. apply andb_true_iff in H as [Ht H].
  apply String.eqb_eq in Ht. split; [exact Ht|].
  pose proof (value_lines_unlines v "") as Hu.
  pose proof (value_lines_no_newline v "" eq_refl) as Hn.
  destruct (value_lines v "") as [|first more]; [discriminate|].
  apply andb_true_iff in H as [H Hmore]. apply andb_true_iff in H as [Hf Hs].
  apply String.eqb_eq in Hf. rewrite forallb_forall in Hmore.
  exists first, more. split; [now rewrite Hu|]. split; [exact Hf|]. split.
  - inversion Hn as [|? ? Hn1 Hn2]; subst. constructor; [auto|].
    apply Forall_forall. intros l Hl. split.
    + rewrite Forall_forall in Hn2. now apply Hn2.
    + apply list_elem_of_In in Hl. specialize (Hmore l Hl).
      unfold continuation_line in Hmore. now apply andb_true_iff in Hmore as [_ Hmore].
  - apply Forall_forall. intros l Hl. apply Hmore. now apply list_elem_of_In.
Qed.

Lemma clean_value_trimmed v : clean_value v = true -> strings.TrimSpace v = v.
Proof. intros H. now destruct (clean_value_parts v H). Qed.

Lemma field_name_parts n :
  field_name n = true ->
  n <> "" /\ (len n <= 14)%nat
  /\ all_bytes (fun c => negb (Ascii.eqb c ":")) n = true
  /\ no_newline n = true /\ deb.is_continuation n = false.
Proof.
  unfold field_name. intros H.
  apply andb_true_iff in H as [H H5]. apply andb_true_iff in H as [H H4].
  apply andb_true_iff in H as [H H3]. apply andb_true_iff in H as [H1 H2].
  apply negb_true_iff in H1, H5. apply is_empty_false in H1.
  apply Nat.leb_le in H2. auto.
Qed.




Lemma Scan_loop_lines (lines : list string) (rest : string) (fuel : nat) :
  Forall whole_line lines ->
  bufio.Scan_loop (length lines + fuel) (text_of_lines lines ++ rest)
  = (lines ++ bufio.Scan_loop fuel rest)%list.
Proof.
  induction 1 as [|l lines (Hne & Hnl & Hlen & Hcr) _ IH]; [reflexivity|].
  cbn [length Nat.add text_of_lines]. rewrite append_assoc.
  change (String "010" (text_of_lines lines) ++ rest)
    with (String "010" (text_of_lines lines ++ rest)).
  rewrite Scan_loop_line by assumption. now rewrite Hcr, IH.
Qed.

Lemma length_le_len_text (lines : list string) :
  (length lines <= len (text_of_lines lines))%nat.
Proof.
  induction lines as [|l lines IH]; [cbn; lia|].
  cbn [text_of_lines length]. rewrite len_append.
  change (len (String "010" (text_of_lines lines))) with (S (len (text_of_lines lines))).
  lia.
Qed.

Lemma ScanLines_text (lines : list string) :
  Forall whole_line lines -> bufio.ScanLines (text_of_lines lines) = lines.
Proof.
  intros H. unfold bufio.ScanLines.
  pose proof (length_le_len_text lines) as Hl.
  replace (len (text_of_lines lines))
    with (length lines + (len (text_of_lines lines) - length lines))%nat by lia.
  rewrite <- (append_nil_r (text_of_lines lines)) at 2.
  rewrite Scan_loop_lines by exact H.
  destruct (len (text_of_lines lines) - length lines)%nat; cbn; apply app_nil_r.
Qed.

(** The line of a field, followed by a newline, is the text of its scanned
    lines. *)
Lemma field_text (n first : string) (more : list string) (rest : string) :
  (n ++ ": " ++ unlines first more) ++ String "010" rest
  = text_of_lines (scanned_lines n first more) ++ rest.
Proof.
  unfold scanned_lines. cbn [text_of_lines].
  assert (H : forall first more,
             unlines first more ++ String "010" rest
             = first ++ String "010" (text_of_lines more ++ rest)).
  { intros f m. revert f. induction m as [|l m IH]; intros f; cbn [unlines text_of_lines].
    - reflexivity.
    - rewrite !append_assoc. cbn [String.append]. now rewrite IH. }
  rewrite !append_assoc. cbn [String.append]. now rewrite H.
Qed.

Lemma continuation_line_whole l :
  no_newline l = true -> short_line l = true -> continuation_line l = true ->
  whole_line l.
Proof.
  unfold continuation_line, short_line, whole_line. intros Hn Hs H.
  apply andb_true_iff in H as [H _]. apply andb_true_iff in H as [Hc Hcr].
  apply negb_true_iff in Hcr. apply Z.ltb_lt in Hs.
  repeat split; [| exact Hn | lia |].
  - destruct l; [discriminate | congruence].
  - unfold bufio.dropCR. now rewrite Hcr.
Qed.

Lemma first_line_whole n first :
  field_name n = true -> strings.TrimSpace first = first ->
  no_newline first = true -> short_line first = true ->
  whole_line (n ++ ": " ++ first).
Proof.
  intros Hn Ht Hnl Hs. destruct (field_name_parts n Hn) as (Hne & Hlen & _ & Hnnl & _).
  unfold short_line in Hs. apply Z.ltb_lt in Hs. repeat split.
  - destruct n; [congruence | discriminate].
  - unfold no_newline in *. now rewrite !all_bytes_append, Hnnl, Hnl.
  - rewrite !len_append. change (len ": ") with 2%nat. lia.
  - destruct first as [|c first].
    + unfold bufio.dropCR. rewrite HasSuffix_append by (cbn; lia). reflexivity.
    + rewrite <- append_assoc. apply dropCR_fixed; [discriminate | exact Ht].
Qed.

Lemma is_continuation_append (n rest : string) :
  n <> "" -> deb.is_continuation (n ++ rest) = deb.is_continuation n.
Proof. destruct n; [congruence | reflexivity]. Qed.

(** The first line of a field saves the field before it and starts the
    new one. *)
Lemma scan_line_first (st : deb.scan_state) (n first : string) :
  field_name n = true -> strings.TrimSpace first = first ->
  deb.scan_line st (n ++ ": " ++ first) = deb.mkState (deb.saveField st) n first.
Proof.
  intros Hn Htrim.
  destruct (field_name_parts n Hn) as (Hne & _ & Hcolon & _ & Hcont).
  unfold deb.scan_line.
  rewrite is_continuation_append, Hcont by assumption.
  change (": " ++ first) with (String ":" (String " " first)).
  rewrite (IndexByte_append n _ ":" Hcolon).
  destruct (len n) as [|k] eqn:Ek; [apply len_zero in Ek; congruence|].
  rewrite <- Ek. rewrite slice_to_append.
  replace (len n + 1 <? len (n ++ String ":" (String " " first)))%nat with true.
  2:{ symmetry. apply Nat.ltb_lt. rewrite len_append. unfold len. cbn. lia. }
  rewrite slice_from_append_ge. cbn [slice_from].
  now rewrite TrimSpace_space_cons, Htrim.
Qed.

(** The further lines are appended to the value. *)
Lemma foldl_scan_line_more (more : list string) (pkg : deb.Package) (n cur : string) :
  Forall (fun l => continuation_line l = true) more ->
  foldl deb.scan_line (deb.mkState pkg n cur) more
  = deb.mkState pkg n (unlines cur more).
Proof.
  intros H. revert cur. induction H as [|l more Hl _ IH]; intros cur; [reflexivity|].
  cbn [foldl]. unfold deb.scan_line at 2.
  unfold continuation_line in Hl. apply andb_true_iff in Hl as [Hl _].
  apply andb_true_iff in Hl as [Hl _]. rewrite Hl.
  cbn [deb.st_pkg deb.currentField deb.currentValue]. rewrite IH.
  f_equal. clear. revert cur l. induction more as [|m more IH]; intros cur l.
  - reflexivity.
  - cbn [unlines]. rewrite !append_assoc. reflexivity.
Qed.


Lemma text_of_lines_app (a b : list string) :
  text_of_lines (a ++ b) = text_of_lines a ++ text_of_lines b.
Proof.
  induction a as [|l a IH]; [reflexivity|]. cbn [app text_of_lines].
  now rewrite IH, append_assoc.
Qed.

Lemma stanza_text (fields : list (string * string)) :
  stanza fields = text_of_lines (stanza_lines fields).
Proof.
  induction fields as [|[n v] fields IH]; [reflexivity|].
  cbn [stanza stanza_lines]. unfold field_line. cbn [fst snd].
  pose proof (value_lines_unlines v "") as Hu.
  destruct (value_lines v "") as [|first more]; [contradiction|].
  cbn [String.append] in Hu. rewrite <- Hu, IH.
  rewrite text_of_lines_app. apply field_text.
Qed.

Lemma stanza_lines_whole (fields : list (string * string)) :
  Forall (fun f => clean_field f = true /\ written f = true) fields ->
  Forall whole_line (stanza_lines fields).
Proof.
  induction 1 as [|[n v] fields [Hc _] _ IH]; [constructor|].
  cbn [stanza_lines]. unfold clean_field in Hc. cbn [fst snd] in Hc.
  apply andb_true_iff in Hc as [Hn Hv].
  unfold clean_value in Hv. apply andb_true_iff in Hv as [_ Hv].
  pose proof (value_lines_no_newline v "" eq_refl) as Hnl.
  destruct (value_lines v "") as [|first more]; [discriminate|].
  apply andb_true_iff in Hv as [Hv Hmore]. apply andb_true_iff in Hv as [Hf Hs].
  apply String.eqb_eq in Hf. rewrite forallb_forall in Hmore.
  inversion Hnl as [|? ? Hn1 Hn2]; subst.
  unfold scanned_lines. cbn [app]. constructor; [now apply first_line_whole|].
  apply Forall_app_2; [|exact IH].
  apply Forall_forall. intros l Hl. rewrite Forall_forall in Hn2.
  pose proof (Hmore l (proj1 (list_elem_of_In _ _) Hl)) as Hcl.
  apply continuation_line_whole; [now apply Hn2 | | exact Hcl].
  unfold continuation_line in Hcl. now apply andb_true_iff in Hcl as [_ Hcl].
Qed.

Lemma ScanLines_stanza (fields : list (string * string)) :
  Forall (fun f => clean_field f = true /\ written f = true) fields ->
  bufio.ScanLines (stanza fields) = stanza_lines fields.
Proof.
  intros H. rewrite stanza_text. apply ScanLines_text. now apply stanza_lines_whole.
Qed.

Lemma foldl_scan_line (fields : list (string * string)) (st : deb.scan_state) :
  Forall (fun f => clean_field f = true /\ written f = true) fields ->
  deb.saveField (foldl deb.scan_line st (stanza_lines fields))
  = foldl assign_field (deb.saveField st) fields.
Proof.
  intros Hall. revert st.
  induction Hall as [|[n v] fields [Hc _] _ IH]; intros st; [reflexivity|].
  cbn [stanza_lines foldl]. unfold clean_field in Hc. cbn [fst snd] in Hc.
  apply andb_true_iff in Hc as [Hn Hv].
  unfold clean_value in Hv. apply andb_true_iff in Hv as [_ Hv].
  pose proof (value_lines_unlines v "") as Hu.
  destruct (value_lines v "") as [|first more]; [discriminate|].
  cbn [String.append] in Hu.
  apply andb_true_iff in Hv as [Hv Hmore]. apply andb_true_iff in Hv as [Hf _].
  apply String.eqb_eq in Hf.
  assert (Hmore' : Forall (fun l => continuation_line l = true) more).
  { apply Forall_forall. intros l Hl. rewrite forallb_forall in Hmore.
    apply Hmore. now apply list_elem_of_In. }
  unfold scanned_lines. rewrite foldl_app. cbn [foldl].
  rewrite scan_line_first by assumption.
  rewrite foldl_scan_line_more by exact Hmore'.
  rewrite Hu, IH. reflexivity.
Qed.

Lemma foldl_filter_cons {A B : Type} (f : A -> B -> A) (P : B -> bool)
    (a : A) (x : B) (l : list B) :
  foldl f a (List.filter P (x :: l))
  = foldl f (if P x then f a x else a) (List.filter P l).
Proof. cbn [List.filter]. now destruct (P x). Qed.

(** One field of [ControlString] read back: a field [saveField] stores,
    and one it passes over. *)
Lemma assign_stored (setter : string -> deb.Package -> deb.Package)
    (n v : string) (R : deb.Package) :
  clean_value v = true ->
  (forall w, assign_field R (n, w) = setter (strings.TrimSpace w) R) ->
  setter "" R = R ->
  (if written (n, v) then assign_field R (n, v) else R) = setter v R.
Proof.
  intros Hv Hset Hempty. pose proof (clean_value_trimmed v Hv) as Htrim.
  unfold written. cbn [snd]. destruct v; cbn [is_empty negb].
  - now rewrite Hempty.
  - now rewrite Hset, Htrim.
Qed.

Lemma assign_ignored (n v : string) (R : deb.Package) :
  (forall w, assign_field R (n, w) = R) ->
  (if written (n, v) then assign_field R (n, v) else R) = R.
Proof. intros H. rewrite H. now destruct (written (n, v)). Qed.

Lemma FormatInt_bytes (i : Z) :
  all_bytes (fun c => unicode.IsDigit c || Ascii.eqb c "-") (strconv.FormatInt i) = true.
Proof.
  assert (H : forall fuel u acc,
             all_bytes (fun c => unicode.IsDigit c || Ascii.eqb c "-") acc = true ->
             all_bytes (fun c => unicode.IsDigit c || Ascii.eqb c "-")
               (strconv.formatBits fuel u acc) = true).
  { induction fuel as [|fuel IH]; intros u acc Hacc; [exact Hacc|].
    rewrite formatBits_step. cbv zeta.
    pose proof (Z.mod_pos_bound u 10 ltac:(lia)) as Hmod.
    assert (Hd : all_bytes (fun c => unicode.IsDigit c || Ascii.eqb c "-")
                   (String (ascii_of_N (Z.to_N (48 + u mod 10))) acc) = true).
    { cbn [all_bytes]. rewrite Hacc, andb_true_r.
      unfold unicode.IsDigit. rewrite digit_byte by lia.
      apply orb_true_iff. left. apply andb_true_iff. split; apply Z.leb_le; lia. }
    destruct (u <? 10); [exact Hd | now apply IH]. }
  unfold strconv.FormatInt. destruct (i <? 0); [|now apply H].
  cbn [all_bytes]. now rewrite H.
Qed.

Lemma formatBits_len (fuel : nat) (u : Z) (acc : string) :
  (len (strconv.formatBits fuel u acc) <= fuel + len acc)%nat.
Proof.
  revert u acc. induction fuel as [|fuel IH]; intros u acc; [simpl; lia|].
  rewrite formatBits_step. cbv zeta.
  destruct (u <? 10).
  - unfold len. simpl. lia.
  - etransitivity; [apply IH|]. unfold len. simpl. lia.
Qed.

Lemma FormatInt_len (i : Z) : (len (strconv.FormatInt i) <= 21)%nat.
Proof.
  unfold strconv.FormatInt. destruct (i <? 0).
  - pose proof (formatBits_len 20 (- i) ""). unfold len in *.
    cbn [String.length] in *. lia.
  - pose proof (formatBits_len 20 i ""). unfold len in *.
    cbn [String.length] in *. lia.
Qed.

Lemma FormatInt_nonempty (i : Z) : is_empty (strconv.FormatInt i) = false.
Proof.
  unfold strconv.FormatInt. destruct (i <? 0); [reflexivity|].
  destruct (formatBits_cons 19 i "") as (d & s & _ & ->). reflexivity.
Qed.

Lemma digit_or_minus_plain (c : ascii) :
  unicode.IsDigit c || Ascii.eqb c "-" = true -> plain_byte c = true.
Proof. destruct c as [[] [] [] [] [] [] [] []]; intros H; try reflexivity; discriminate H. Qed.

Lemma plain_byte_no_newline (c : ascii) :
  plain_byte c = true -> negb (byte_val c =? 10) = true.
Proof. destruct c as [[] [] [] [] [] [] [] []]; intros H; try reflexivity; discriminate H. Qed.

Lemma FormatInt_clean (i : Z) : clean_value (strconv.FormatInt i) = true.
Proof.
  pose proof (all_bytes_impl _ _ _ digit_or_minus_plain (FormatInt_bytes i)) as Hp.
  pose proof (all_bytes_impl _ _ _ plain_byte_no_newline Hp) as Hn.
  unfold clean_value. rewrite (value_lines_plain _ Hn).
  rewrite (TrimSpace_plain _ Hp), String.eqb_refl. cbn [forallb andb].
  rewrite andb_true_r. unfold short_line. apply Z.ltb_lt.
  pose proof (FormatInt_len i). change bufio.MaxScanTokenSize with 65536. lia.
Qed.

Lemma assign_Package (R : deb.Package) (w : string) :
  assign_field R ("Package", w) = deb.set_Name (strings.TrimSpace w) R.
Proof. reflexivity. Qed.

Lemma assign_Version (R : deb.Package) (w : string) :
  assign_field R ("Version", w) = deb.set_Version (strings.TrimSpace w) R.
Proof. reflexivity. Qed.

Lemma assign_Architecture (R : deb.Package) (w : string) :
  assign_field R ("Architecture", w) = deb.set_Architecture (strings.TrimSpace w) R.
Proof. reflexivity. Qed.

Lemma assign_Maintainer (R : deb.Package) (w : string) :
  assign_field R ("Maintainer", w) = deb.set_Maintainer (strings.TrimSpace w) R.
Proof. reflexivity. Qed.

Lemma assign_Pre_Depends (R : deb.Package) (w : string) :
  assign_field R ("Pre-Depends", w) = deb.set_PreDepends (strings.TrimSpace w) R.
Proof. reflexivity. Qed.

Lemma assign_Depends (R : deb.Package) (w : string) :
  assign_field R ("Depends", w) = deb.set_Depends (strings.TrimSpace w) R.
Proof. reflexivity. Qed.

Lemma assign_Recommends (R : deb.Package) (w : string) :
  assign_field R ("Recommends", w) = deb.set_Recommends (strings.TrimSpace w) R.
Proof. reflexivity. Qed.

Lemma assign_Suggests (R : deb.Package) (w : string) :
  assign_field R ("Suggests", w) = deb.set_Suggests (strings.TrimSpace w) R.
Proof. reflexivity. Qed.

Lemma assign_Conflicts (R : deb.Package) (w : string) :
  assign_field R ("Conflicts", w) = deb.set_Conflicts (strings.TrimSpace w) R.
Proof. reflexivity. Qed.

Lemma assign_Provides (R : deb.Package) (w : string) :
  assign_field R ("Provides", w) = deb.set_Provides (strings.TrimSpace w) R.
Proof. reflexivity. Qed.

Lemma assign_Replaces (R : deb.Package) (w : string) :
  assign_field R ("Replaces", w) = deb.set_Replaces (strings.TrimSpace w) R.
Proof. reflexivity. Qed.

Lemma assign_Section (R : deb.Package) (w : string) :
  assign_field R ("Section", w) = deb.set_Section_ (strings.TrimSpace w) R.
Proof. reflexivity. Qed.

Lemma assign_Priority (R : deb.Package) (w : string) :
  assign_field R ("Priority", w) = deb.set_Priority (strings.TrimSpace w) R.
Proof. reflexivity. Qed.

Lemma assign_Homepage (R : deb.Package) (w : string) :
  assign_field R ("Homepage", w) = deb.set_Homepage (strings.TrimSpace w) R.
Proof. reflexivity. Qed.

Lemma assign_Filename (R : deb.Package) (w : string) :
  assign_field R ("Filename", w) = R.
Proof. reflexivity. Qed.

Lemma assign_Size (R : deb.Package) (w : string) :
  assign_field R ("Size", w) = R.
Proof. reflexivity. Qed.

Lemma assign_MD5sum (R : deb.Package) (w : string) :
  assign_field R ("MD5sum", w) = R.
Proof. reflexivity. Qed.

Lemma assign_SHA1 (R : deb.Package) (w : string) :
  assign_field R ("SHA1", w) = R.
Proof. reflexivity. Qed.

Lemma assign_SHA256 (R : deb.Package) (w : string) :
  assign_field R ("SHA256", w) = R.
Proof. reflexivity. Qed.

Lemma assign_Description (R : deb.Package) (w : string) :
  assign_field R ("Description", w) = deb.set_Description (strings.TrimSpace w) R.
Proof. reflexivity. Qed.

Lemma assign_Installed_Size (R : deb.Package) (i : Z) :
  i < 2 ^ 63 -> deb.set_InstalledSize 0 R = R ->
  (if written ("Installed-Size", if 0 <? i then strconv.FormatInt i else "")
   then assign_field R ("Installed-Size", if 0 <? i then strconv.FormatInt i else "")
   else R)
  = deb.set_InstalledSize (if 0 <? i then i else 0) R.
Proof.
  intros Hi H0. destruct (Z.ltb_spec 0 i) as [Hpos|Hneg].
  - unfold written. cbn [snd]. rewrite FormatInt_nonempty. cbn [negb].
    unfold assign_field, deb.saveField. cbn [fst snd deb.st_pkg deb.currentField
      deb.currentValue is_empty].
    rewrite (clean_value_trimmed _ (FormatInt_clean i)).
    rewrite ParseInt_FormatInt by lia. reflexivity.
  - unfold written. cbn [snd is_empty negb]. now rewrite H0.
Qed.

(** The record built so far is kept as an explicit [mkPackage]. *)
Ltac norm_package setter :=
  unfold setter;
  cbn [deb.Name deb.Version deb.Architecture deb.Maintainer deb.Description
       deb.Depends deb.PreDepends deb.Recommends deb.Suggests deb.Conflicts
       deb.Provides deb.Replaces deb.Section_ deb.Priority deb.Homepage
       deb.Size deb.InstalledSize deb.Filename deb.MD5sum deb.SHA1 deb.SHA256].

Ltac stored_field setter lem :=
  rewrite foldl_filter_cons;
  erewrite (assign_stored setter);
  [ | eassumption | intros ?; apply lem | reflexivity ];
  norm_package setter.

Lemma clean_package_fields (p : deb.Package) :
  clean_package p = true ->
  Forall (fun f => clean_field f = true) (control_fields p).
Proof.
  unfold clean_package. cbn [forallb]. intros H.
  repeat (apply andb_true_iff in H as [? H]).
  unfold control_fields, clean_field.
  repeat constructor; cbn [fst snd]; rewrite ?FormatInt_clean;
    try (apply andb_true_iff; split; [reflexivity | assumption]);
    try reflexivity.
  destruct (0 <? deb.InstalledSize p); [apply FormatInt_clean | reflexivity].
Qed.

Lemma Forall_filter_written (fields : list (string * string)) :
  Forall (fun f => clean_field f = true) fields ->
  Forall (fun f => clean_field f = true /\ written f = true)
    (List.filter written fields).
Proof.
  induction 1 as [|f fields Hf _ IH]; [constructor|].
  cbn [List.filter]. destruct (written f) eqn:E; [constructor; auto | exact IH].
Qed.

(** The fields of [ControlString p], read back one by one. *)
Lemma foldl_assign_fields (p : deb.Package) :
  clean_package p = true -> p.(deb.InstalledSize) < 2 ^ 63 ->
  foldl assign_field deb.emptyPackage (List.filter written (control_fields p))
  = reparsed p.
Proof.
  unfold clean_package. cbn [forallb]. intros H Hi.
  repeat (apply andb_true_iff in H as [? H]).
  unfold control_fields, deb.emptyPackage.
  stored_field deb.set_Name assign_Package.
  stored_field deb.set_Version assign_Version.
  stored_field deb.set_Architecture assign_Architecture.
  stored_field deb.set_Maintainer assign_Maintainer.
  rewrite foldl_filter_cons, assign_Installed_Size by (exact Hi || reflexivity).
  norm_package deb.set_InstalledSize.
  stored_field deb.set_PreDepends assign_Pre_Depends.
  stored_field deb.set_Depends assign_Depends.
  stored_field deb.set_Recommends assign_Recommends.
  stored_field deb.set_Suggests assign_Suggests.
  stored_field deb.set_Conflicts assign_Conflicts.
  stored_field deb.set_Provides assign_Provides.
  stored_field deb.set_Replaces assign_Replaces.
  stored_field deb.set_Section_ assign_Section.
  stored_field deb.set_Priority assign_Priority.
  stored_field deb.set_Homepage assign_Homepage.
  rewrite foldl_filter_cons, assign_ignored by (intros w; apply assign_Filename).
  rewrite foldl_filter_cons, assign_ignored by (intros w; apply assign_Size).
  rewrite foldl_filter_cons, assign_ignored by (intros w; apply assign_MD5sum).
  rewrite foldl_filter_cons, assign_ignored by (intros w; apply assign_SHA1).
  rewrite foldl_filter_cons, assign_ignored by (intros w; apply assign_SHA256).
  stored_field deb.set_Description assign_Description.
  destruct p. reflexivity.
Qed.

(** C1 as stated fails: [parseControl] has no case for [Filename], [Size],
    [MD5sum], [SHA1] and [SHA256], so the package of the test of
    [ControlString] comes back without them. *)
Lemma control_round_trip_drops_pool_fields :
  exists q,
    deb.parseControl (deb.ControlString test_package) = Ok q
    /\ q.(deb.Name) = "myapp"
    /\ q.(deb.Size) = 0 /\ test_package.(deb.Size) = 1024
    /\ q.(deb.Filename) = ""
    /\ test_package.(deb.Filename) = "pool/main/m/myapp/myapp_1.0.0_amd64.deb"
    /\ q.(deb.MD5sum) = "" /\ test_package.(deb.MD5sum) = "abc123"
    /\ q.(deb.SHA1) = "" /\ test_package.(deb.SHA1) = "def456"
    /\ q.(deb.SHA256) = "" /\ test_package.(deb.SHA256) = "ghi789".
Proof. eexists. split; [vm_compute; reflexivity | repeat split]. Qed.

(** The conditions on the strings are needed: white space at the ends of
    a value is trimmed, and a line of a value that is no continuation line
    is not read as part of it. *)
Lemma control_round_trip_needs_clean_values :
  deb.parseControl
    (deb.ControlString (deb.set_Maintainer " Jo" test_package))
  = Ok (reparsed (deb.set_Maintainer "Jo" test_package))
  /\ deb.parseControl
       (deb.ControlString
          (deb.set_Description ("one" ++ String "010" "two") test_package))
     = Ok (reparsed (deb.set_Description "one" test_package))
  /\ deb.parseControl
       (deb.ControlString
          (deb.set_Maintainer ("Jo" ++ String "010" "Version: 9") test_package))
     = Ok (reparsed (deb.set_Version "9" (deb.set_Maintainer "Jo" test_package))).
Proof. repeat split; vm_compute; reflexivity. Qed.

(** C1, amended: for every record whose name, version and architecture are
    not empty, whose strings are clean values (no white space at the ends
    of the value and of its first line, every further line a continuation
    line that starts with a space or a tab, no line that ends in a
    carriage return or has 65520 bytes or more) and whose [InstalledSize]
    is an [int64], [parseControl] succeeds on the text of [ControlString]
    and returns the record with the same [Name], [Version],
    [Architecture], [Maintainer], [Description], relationship fields,
    [Section], [Priority] and [Homepage], and the same [InstalledSize] when
    it is positive; [Size], [Filename], [MD5sum], [SHA1] and [SHA256] are
    written but not read back: they are 0 and empty in the result. *)
Theorem control_round_trip (p : deb.Package) :
  clean_package p = true ->
  p.(deb.Name) <> "" -> p.(deb.Version) <> "" -> p.(deb.Architecture) <> "" ->
  p.(deb.InstalledSize) < 2 ^ 63 ->
  deb.parseControl (deb.ControlString p) = Ok (reparsed p).
Proof.
  intros Hclean Hn Hv Ha Hi.
  pose proof (Forall_filter_written _ (clean_package_fields p Hclean)) as Hall.
  unfold deb.parseControl.
  rewrite ControlString_fields, writeField_fields.
  change ("" ++ stanza (List.filter written (control_fields p)))
    with (stanza (List.filter written (control_fields p))).
  rewrite ScanLines_stanza, foldl_scan_line by exact Hall.
  change (deb.saveField (deb.mkState deb.emptyPackage "" "")) with deb.emptyPackage.
  rewrite foldl_assign_fields by assumption.
  apply is_empty_false in Hn, Hv, Ha.
  cbn [reparsed deb.Name deb.Version deb.Architecture].
  now rewrite Hn, Hv, Ha.
Qed.

Lemma control_round_trip_witness :
  deb.parseControl (deb.ControlString described_package)
  = Ok (reparsed described_package).
Proof.
  apply (control_round_trip described_package);
    [vm_compute; reflexivity | discriminate | discriminate | discriminate
     | vm_compute; reflexivity].
Defined.

(** ** The pool scan *)

Lemma string_compare_refl (s : string) : String.compare s s = Eq.
Proof.
  induction s as [|c s IH]; [reflexivity|]. simpl.
  unfold Ascii.compare. now rewrite N.compare_refl.
Qed.

Lemma string_compare_lt_trans (a b c : string) :
  String.compare a b = Lt -> String.compare b c = Lt -> String.compare a c = Lt.
Proof.
  revert b c. induction a as [|x a IH]; intros [|y b] [|z c]; simpl;
    try congruence.
  unfold Ascii.compare.
  destruct (N.compare_spec (N_of_ascii x) (N_of_ascii y)) as [Exy|Hxy|Hxy];
    destruct (N.compare_spec (N_of_ascii y) (N_of_ascii z)) as [Eyz|Hyz|Hyz];
    destruct (N.compare_spec (N_of_ascii x) (N_of_ascii z)) as [Exz|Hxz|Hxz];
    try congruence; try lia.
  apply IH.
Qed.

Lemma string_ltb_irrefl (s : string) : String.ltb s s = false.
Proof. unfold String.ltb. now rewrite string_compare_refl. Qed.

Lemma string_ltb_trans (a b c : string) :
  String.ltb a b = true -> String.ltb b c = true -> String.ltb a c = true.
Proof.
  unfold String.ltb. intros Hab Hbc.
  destruct (String.compare a b) eqn:E1; try discriminate.
  destruct (String.compare b c) eqn:E2; try discriminate.
  now rewrite (string_compare_lt_trans a b c E1 E2).
Qed.

Lemma string_ltb_total (a b : string) :
  a <> b -> String.ltb a b = false -> String.ltb b a = true.
Proof.
  unfold String.ltb. intros Hne H. rewrite String.compare_antisym.
  destruct (String.compare a b) eqn:E; try discriminate; [|reflexivity].
  apply String.compare_eq_iff in E. congruence.
Qed.

(** What the [less] of [scanPool] says. *)
Lemma less_spec (x y : deb.Package) :
  repo.less x y = true <->
  String.ltb x.(deb.Name) y.(deb.Name) = true
  \/ (x.(deb.Name) = y.(deb.Name)
      /\ 0 < deb.Compare x.(deb.Version) y.(deb.Version)).
Proof.
  unfold repo.less.
  destruct (String.eqb_spec (deb.Name x) (deb.Name y)) as [E|Hne]; cbn [negb].
  - rewrite E, string_ltb_irrefl, Z.ltb_lt. intuition congruence.
  - intuition congruence.
Qed.

Lemma Compare_gt_trans (a b c : string) :
  0 < deb.Compare a b -> 0 < deb.Compare b c -> 0 < deb.Compare a c.
Proof.
  intros Hab Hbc. pose proof (Compare_chain c b a) as H.
  rewrite (Compare_opp c b), (Compare_opp b a), (Compare_opp c a) in H.
  unfold chain in H. lia.
Qed.

Lemma Compare_le_trans (a b c : string) :
  deb.Compare a b <= 0 -> deb.Compare b c <= 0 -> deb.Compare a c <= 0.
Proof. intros Hab Hbc. now apply (Compare_chain a b c). Qed.

Lemma less_transitive_ordering : repo.transitive_ordering repo.less.
Proof.
  split; [|split].
  - intros x. destruct (repo.less x x) eqn:E; [|reflexivity].
    apply less_spec in E as [E|[_ E]].
    + now rewrite string_ltb_irrefl in E.
    + rewrite Compare_refl in E. lia.
  - intros x y z Hxy Hyz. apply less_spec in Hxy, Hyz. apply less_spec.
    destruct Hxy as [Hxy|[Exy Hxy]], Hyz as [Hyz|[Eyz Hyz]].
    + left. eapply string_ltb_trans; eassumption.
    + left. now rewrite <- Eyz.
    + left. now rewrite Exy.
    + right. split; [congruence|]. eapply Compare_gt_trans; eassumption.
  - intros x y z Hxy Hyz.
    destruct (repo.less x z) eqn:Hxz; [exfalso | reflexivity].
    apply less_spec in Hxz.
    assert (Nxy : ~ (String.ltb (deb.Name x) (deb.Name y) = true
                     \/ deb.Name x = deb.Name y
                        /\ 0 < deb.Compare (deb.Version x) (deb.Version y))).
    { intros H. apply less_spec in H. congruence. }
    assert (Nyz : ~ (String.ltb (deb.Name y) (deb.Name z) = true
                     \/ deb.Name y = deb.Name z
                        /\ 0 < deb.Compare (deb.Version y) (deb.Version z))).
    { intros H. apply less_spec in H. congruence. }
    destruct (String.eqb_spec (deb.Name x) (deb.Name y)) as [Exy|Hnxy];
      destruct (String.eqb_spec (deb.Name y) (deb.Name z)) as [Eyz|Hnyz].
    + destruct Hxz as [Hxz|[_ Hxz]].
      * rewrite Exy, Eyz, string_ltb_irrefl in Hxz. discriminate.
      * assert (deb.Compare (deb.Version x) (deb.Version y) <= 0) by (apply Z.nlt_ge; tauto).
        assert (deb.Compare (deb.Version y) (deb.Version z) <= 0) by (apply Z.nlt_ge; tauto).
        pose proof (Compare_le_trans _ _ _ H H0). lia.
    + assert (Hzy : String.ltb (deb.Name z) (deb.Name y) = true).
      { apply string_ltb_total; [congruence|].
        destruct (String.ltb (deb.Name y) (deb.Name z)); tauto. }
      destruct Hxz as [Hxz|[Exz _]].
      * rewrite Exy in Hxz. pose proof (string_ltb_trans _ _ _ Hxz Hzy) as H.
        now rewrite string_ltb_irrefl in H.
      * congruence.
    + assert (Hyx : String.ltb (deb.Name y) (deb.Name x) = true).
      { apply string_ltb_total; [congruence|].
        destruct (String.ltb (deb.Name x) (deb.Name y)); tauto. }
      destruct Hxz as [Hxz|[Exz _]].
      * rewrite <- Eyz in Hxz. pose proof (string_ltb_trans _ _ _ Hyx Hxz) as H.
        now rewrite string_ltb_irrefl in H.
      * congruence.
    + assert (Hyx : String.ltb (deb.Name y) (deb.Name x) = true).
      { apply string_ltb_total; [congruence|].
        destruct (String.ltb (deb.Name x) (deb.Name y)); tauto. }
      assert (Hzy : String.ltb (deb.Name z) (deb.Name y) = true).
      { apply string_ltb_total; [congruence|].
        destruct (String.ltb (deb.Name y) (deb.Name z)); tauto. }
      pose proof (string_ltb_trans _ _ _ Hzy Hyx) as Hzx.
      destruct Hxz as [Hxz|[Exz _]].
      * pose proof (string_ltb_trans _ _ _ Hxz Hzx) as H.
        now rewrite string_ltb_irrefl in H.
      * rewrite Exz, string_ltb_irrefl in Hzx. discriminate.
Qed.

(** An element that is not less than the one before it comes after it in
    the order of the index. *)
Lemma not_less_ordered (x y : deb.Package) :
  repo.less y x = false -> ordered_before x y.
Proof.
  intros H. unfold ordered_before.
  assert (N : ~ (String.ltb (deb.Name y) (deb.Name x) = true
                 \/ deb.Name y = deb.Name x
                    /\ 0 < deb.Compare (deb.Version y) (deb.Version x))).
  { intros H'. apply less_spec in H'. congruence. }
  destruct (String.eqb_spec (deb.Name x) (deb.Name y)) as [E|Hne].
  - right. split; [exact E|]. rewrite Compare_opp.
    assert (deb.Compare (deb.Version y) (deb.Version x) <= 0)
      by (apply Z.nlt_ge; intros ?; apply N; right; split; [congruence | assumption]).
    lia.
  - left. apply string_ltb_total; [congruence|].
    destruct (String.ltb (deb.Name y) (deb.Name x)); tauto.
Qed.

Lemma StronglySorted_impl {A : Type} (R Q : A -> A -> Prop) (l : list A) :
  (forall x y, R x y -> Q x y) -> StronglySorted R l -> StronglySorted Q l.
Proof.
  intros HRQ. induction 1 as [|x l Hl IH Hx]; constructor; [exact IH|].
  eapply Forall_impl; [exact Hx | apply HRQ].
Qed.

Section ScanPool.

Variable sort_Slice :
  (deb.Package -> deb.Package -> bool) -> list deb.Package -> list deb.Package.
Variable filepath_Rel : string -> string -> result string.

(** The walk only appends records of the architectures kept. *)
Lemma scan_fn_retained Root arch packages path info :
  Forall (arch_retained arch) packages ->
  Forall (arch_retained arch)
    (repo.scan_fn filepath_Rel Root arch packages path info).1.
Proof.
  intros H. unfold repo.scan_fn.
  destruct (repo.IsDir info); [exact H|].
  destruct (negb (strings.HasSuffix path ".deb")); [exact H|].
  destruct info as [|[pkg|err]]; try exact H.
  destruct (String.eqb_spec (deb.Architecture pkg) arch) as [E|Hne]; cbn [negb andb].
  - destruct (filepath_Rel Root path); [|exact H]. cbn [fst].
    apply Forall_app_2; [exact H|]. constructor; [now left | constructor].
  - destruct (String.eqb_spec (deb.Architecture pkg) "all") as [E|Hne']; cbn [negb].
    + destruct (filepath_Rel Root path); [|exact H]. cbn [fst].
      apply Forall_app_2; [exact H|]. constructor; [now right | constructor].
    + exact H.
Qed.

Lemma walk_visit_retained Root arch visits packages :
  Forall (arch_retained arch) packages ->
  Forall (arch_retained arch)
    (repo.walk_visit (repo.scan_fn filepath_Rel Root arch) visits packages).1.
Proof.
  revert packages. induction visits as [|[path info] visits IH]; intros packages H;
    [exact H|].
  cbn [repo.walk_visit].
  pose proof (scan_fn_retained Root arch packages path info H) as Hstep.
  destruct (repo.scan_fn filepath_Rel Root arch packages path info) as [s' [err|]];
    cbn [fst] in *; [exact Hstep | now apply IH].
Qed.

Lemma Walk_retained Root arch fs poolDir :
  Forall (arch_retained arch)
    (repo.Walk fs poolDir (repo.scan_fn filepath_Rel Root arch) []).1.
Proof.
  unfold repo.Walk. destruct (repo.Lstat fs poolDir); [|constructor].
  apply walk_visit_retained. constructor.
Qed.

End ScanPool.

(** C7: whatever [scanPool] returns for the architecture [arch], every
    record in it has the architecture [arch] or [all], and the list is
    sorted by name ascending (bytewise) and, for equal names, by version
    descending under [Compare]. [sort.Slice] is taken by its contract. *)
Theorem scanPool_retains_and_sorts :
  forall sort_Slice filepath_Rel,
    repo.sort_contract sort_Slice ->
    forall Root fs poolDir arch packages,
      repo.scanPool sort_Slice filepath_Rel Root fs poolDir arch = Ok packages ->
      Forall (arch_retained arch) packages
      /\ StronglySorted ordered_before packages.
Proof.
  intros sort_Slice filepath_Rel Hsort Root fs poolDir arch packages Hscan.
  unfold repo.scanPool in Hscan.
  pose proof (Walk_retained filepath_Rel Root arch fs poolDir) as Hret.
  destruct (repo.Walk fs poolDir (repo.scan_fn filepath_Rel Root arch) [])
    as [walked err]. cbn [fst] in Hret.
  destruct (Hsort repo.less walked less_transitive_ordering) as [Hperm Hsorted].
  assert (Hres : packages = sort_Slice repo.less walked).
  { destruct err as [e|]; [destruct (negb (IsNotExist e)); [discriminate|]|];
      congruence. }
  subst packages. split.
  - now rewrite Hperm.
  - eapply StronglySorted_impl; [|exact Hsorted]. intros x y. apply not_less_ordered.
Qed.

(** Insertion sort meets the contract of [sort.Slice]. *)
Section InsertionSort.

Context {A : Type} (less : A -> A -> bool).
Hypothesis Hless : repo.transitive_ordering less.

Lemma insert_back_perm (x : A) (racc : list A) :
  Permutation (repo.insert_back less x racc) (x :: racc).
Proof.
  induction racc as [|y r IH]; [reflexivity|]. cbn [repo.insert_back].
  destruct (less x y); [|reflexivity].
  rewrite IH. apply perm_swap.
Qed.

Lemma insert_back_sorted (x : A) (racc : list A) :
  StronglySorted (fun a b => less a b = false) racc ->
  StronglySorted (fun a b => less a b = false) (repo.insert_back less x racc).
Proof.
  destruct Hless as (Hirr & Htrans & Hneg).
  induction 1 as [|y r Hr IH Hy]; [repeat constructor|].
  cbn [repo.insert_back]. destruct (less x y) eqn:E.
  - constructor; [exact IH|].
    rewrite insert_back_perm. constructor; [|exact Hy].
    destruct (less y x) eqn:E'; [|reflexivity].
    pose proof (Htrans x y x E E') as Hxx. rewrite Hirr in Hxx. discriminate.
  - constructor; [constructor; assumption|].
    constructor; [exact E|].
    eapply Forall_impl; [exact Hy|]. intros b Hb. cbn beta in Hb.
    now apply (Hneg x y b).
Qed.

Lemma foldl_insert_back_perm (l racc : list A) :
  Permutation (foldl (fun racc x => repo.insert_back less x racc) racc l)
    (rev l ++ racc).
Proof.
  revert racc. induction l as [|x l IH]; intros racc; [reflexivity|].
  cbn [foldl]. rewrite IH, insert_back_perm. cbn [rev].
  rewrite <- app_assoc. cbn [app]. reflexivity.
Qed.

Lemma foldl_insert_back_sorted (l racc : list A) :
  StronglySorted (fun a b => less a b = false) racc ->
  StronglySorted (fun a b => less a b = false)
    (foldl (fun racc x => repo.insert_back less x racc) racc l).
Proof.
  revert racc. induction l as [|x l IH]; intros racc H; [exact H|].
  cbn [foldl]. apply IH. now apply insert_back_sorted.
Qed.

Lemma StronglySorted_rev (R : A -> A -> Prop) (l : list A) :
  StronglySorted R l -> StronglySorted (fun x y => R y x) (rev l).
Proof.
  induction 1 as [|x l Hl IH Hx]; [constructor|]. cbn [rev].
  apply StronglySorted_app_2; [|exact IH | repeat constructor].
  intros a b Ha Hb. apply list_elem_of_singleton in Hb. subst b.
  rewrite Forall_forall in Hx. apply Hx.
  apply list_elem_of_In. apply list_elem_of_In in Ha. now apply in_rev.
Qed.

Lemma insertionSort_contract_at (l : list A) :
  Permutation (repo.insertionSort less l) l
  /\ StronglySorted (fun x y => less y x = false) (repo.insertionSort less l).
Proof.
  unfold repo.insertionSort. split.
  - rewrite <- Permutation_rev, foldl_insert_back_perm, app_nil_r.
    symmetry. apply Permutation_rev.
  - apply (StronglySorted_rev (fun a b => less a b = false)).
    apply foldl_insert_back_sorted. constructor.
Qed.

End InsertionSort.

Lemma insertionSort_contract {A : Type} : repo.sort_contract (@repo.insertionSort A).
Proof. intros less l Hless. now apply insertionSort_contract_at. Qed.

Lemma scanPool_retains_and_sorts_witness :
  repo.scanPool repo.insertionSort rel_below "repo" index_pool "repo/pool/main" "amd64"
  = Ok [deb.set_Filename "pool/main/z/app/app_0.1_all.deb"
          (deb.set_Architecture "all"
             (deb.set_Version "0.1" (deb.set_Name "app" deb.emptyPackage)));
        deb.set_Filename "pool/main/p/pkg/pkg_2.0_amd64.deb"
          (deb.set_Architecture "amd64"
             (deb.set_Version "2.0" (deb.set_Name "pkg" deb.emptyPackage)));
        deb.set_Filename "pool/main/p/pkg/pkg_1.5_amd64.deb"
          (deb.set_Architecture "amd64"
             (deb.set_Version "1.5" (deb.set_Name "pkg" deb.emptyPackage)));
        deb.set_Filename "pool/main/p/pkg/pkg_1.0_amd64.deb"
          (deb.set_Architecture "amd64"
             (deb.set_Version "1.0" (deb.set_Name "pkg" deb.emptyPackage)))]
  /\ Forall (arch_retained "amd64")
       (match repo.scanPool repo.insertionSort rel_below "repo" index_pool
                "repo/pool/main" "amd64" with
        | Ok packages => packages
        | Err _ => []
        end)
  /\ StronglySorted ordered_before
       (match repo.scanPool repo.insertionSort rel_below "repo" index_pool
                "repo/pool/main" "amd64" with
        | Ok packages => packages
        | Err _ => []
        end).
Proof.
  assert (E : repo.scanPool repo.insertionSort rel_below "repo" index_pool
                "repo/pool/main" "amd64"
              = Ok [deb.set_Filename "pool/main/z/app/app_0.1_all.deb"
                      (deb.set_Architecture "all"
                         (deb.set_Version "0.1" (deb.set_Name "app" deb.emptyPackage)));
                    deb.set_Filename "pool/main/p/pkg/pkg_2.0_amd64.deb"
                      (deb.set_Architecture "amd64"
                         (deb.set_Version "2.0" (deb.set_Name "pkg" deb.emptyPackage)));
                    deb.set_Filename "pool/main/p/pkg/pkg_1.5_amd64.deb"
                      (deb.set_Architecture "amd64"
                         (deb.set_Version "1.5" (deb.set_Name "pkg" deb.emptyPackage)));
                    deb.set_Filename "pool/main/p/pkg/pkg_1.0_amd64.deb"
                      (deb.set_Architecture "amd64"
                         (deb.set_Version "1.0" (deb.set_Name "pkg" deb.emptyPackage)))])
    by (vm_compute; reflexivity).
  split; [exact E|]. rewrite E.
  exact (scanPool_retains_and_sorts repo.insertionSort rel_below
           insertionSort_contract "repo" index_pool "repo/pool/main" "amd64" _ E).
Defined.

(** ** Prune *)

Lemma iteration_order_singleton range_order k (g : list repo.packageFile) :
  iteration_order range_order -> range_order {[k := g]} = [(k, g)].
Proof.
  intros H. specialize (H {[k := g]}). rewrite map_to_list_singleton in H.
  now apply Permutation_singleton_r in H.
Qed.

(** The prune scenario: of the versions 1.0, 1.5 and 2.0 of one package,
    with [KeepVersions = 2], 2.0 and 1.5 are kept and 1.0 is deleted; a
    dry run returns the same lists and leaves the tree as it is. *)
Lemma Prune_scenario range_order :
  iteration_order range_order ->
  let kept := ["repo/pool/main/p/pkg/pkg_2.0_amd64.deb";
               "repo/pool/main/p/pkg/pkg_1.5_amd64.deb"] in
  let deleted := ["repo/pool/main/p/pkg/pkg_1.0_amd64.deb"] in
  repo.Prune range_order "repo" prune_pool (repo.mkPruneOptions 2 true)
  = (prune_pool, Ok (repo.mkPruneResult deleted kept))
  /\ repo.Prune range_order "repo" prune_pool (repo.mkPruneOptions 2 false)
     = (List.filter
          (fun e => negb (String.eqb e.1 "repo/pool/main/p/pkg/pkg_1.0_amd64.deb"))
          prune_pool,
        Ok (repo.mkPruneResult deleted kept)).
Proof.
  intros Hord kept deleted.
  assert (Hwalk : repo.Walk prune_pool (filepath.Join ["repo"; "pool"; "main"])
                    repo.prune_fn ∅
                  = ({["pkg_amd64" :=
                        [repo.mkPackageFile "repo/pool/main/p/pkg/pkg_1.0_amd64.deb" "1.0";
                         repo.mkPackageFile "repo/pool/main/p/pkg/pkg_1.5_amd64.deb" "1.5";
                         repo.mkPackageFile "repo/pool/main/p/pkg/pkg_2.0_amd64.deb" "2.0"]]},
                     None)) by (vm_compute; reflexivity).
  split; unfold repo.Prune; cbn [repo.KeepVersions repo.DryRun];
    change (2 <? 1) with false; cbv iota; rewrite Hwalk;
    unfold repo.prune_packages; rewrite (iteration_order_singleton _ _ _ Hord);
    vm_compute; reflexivity.
Qed.

(** C6 (the code departs from it): the group key is the string
    [Name + "_" + Architecture], which two different pairs of name and
    architecture can share. The packages [a] for [b_c] and [a_b] for [c]
    fall into one group, and with [KeepVersions = 1] the only archive of the
    second one is deleted, together with its directory. *)
Theorem Prune_merges_distinct_packages range_order :
  iteration_order range_order ->
  repo.Prune range_order "repo" clash_pool (repo.mkPruneOptions 1 false)
  = ([("repo", repo.Dir);
      ("repo/pool", repo.Dir);
      ("repo/pool/main", repo.Dir);
      ("repo/pool/main/a", repo.Dir);
      ("repo/pool/main/a/a", repo.Dir);
      ("repo/pool/main/a/a/a_2.0_b_c.deb", deb_file "a" "2.0" "b_c")],
     Ok (repo.mkPruneResult ["repo/pool/main/a/a_b/a_b_1.0_c.deb"]
                            ["repo/pool/main/a/a/a_2.0_b_c.deb"]))
  /\ ("a", "b_c") <> ("a_b", "c")
  /\ "a" ++ "_" ++ "b_c" = "a_b" ++ "_" ++ "c".
Proof.
  intros Hord. split; [|split; [congruence | reflexivity]].
  assert (Hwalk : repo.Walk clash_pool (filepath.Join ["repo"; "pool"; "main"])
                    repo.prune_fn ∅
                  = ({["a_b_c" :=
                        [repo.mkPackageFile "repo/pool/main/a/a/a_2.0_b_c.deb" "2.0";
                         repo.mkPackageFile "repo/pool/main/a/a_b/a_b_1.0_c.deb" "1.0"]]},
                     None)) by (vm_compute; reflexivity).
  unfold repo.Prune. cbn [repo.KeepVersions repo.DryRun].
  change (1 <? 1) with false. cbv iota. rewrite Hwalk.
  unfold repo.prune_packages. rewrite (iteration_order_singleton _ _ _ Hord).
  vm_compute. reflexivity.
Qed.

Lemma iteration_order_entries : iteration_order entries_order.
Proof. intros m. reflexivity. Qed.

Lemma Prune_merges_distinct_packages_witness :
  (repo.Prune entries_order "repo" clash_pool (repo.mkPruneOptions 1 false)).2
  = Ok (repo.mkPruneResult ["repo/pool/main/a/a_b/a_b_1.0_c.deb"]
                           ["repo/pool/main/a/a/a_2.0_b_c.deb"]).
Proof.
  now rewrite (proj1 (Prune_merges_distinct_packages entries_order
                        iteration_order_entries)).
Defined.

(** *** What [Prune] removes *)

Lemma filter_true {A : Type} (l : list A) : List.filter (fun _ => true) l = l.
Proof. induction l as [|x l IH]; [reflexivity|]. cbn. now rewrite IH. Qed.

Lemma filter_filter {A : Type} (f g : A -> bool) (l : list A) :
  List.filter g (List.filter f l) = List.filter (fun x => f x && g x) l.
Proof.
  induction l as [|x l IH]; [reflexivity|]. cbn.
  destruct (f x); cbn; [destruct (g x); now rewrite IH | exact IH].
Qed.

Lemma removes_refl P fs : removes P fs fs.
Proof. exists (fun _ => true). split; [now rewrite filter_true | discriminate]. Qed.

Lemma removes_In P fs fs' e : removes P fs fs' -> In e fs' -> In e fs.
Proof. intros (keep & -> & _) H. now apply filter_In in H. Qed.

Lemma removes_missing P fs fs' e :
  removes P fs fs' -> In e fs -> ~ In e fs' -> P e.
Proof.
  intros (keep & -> & Hk) Hin Hnot. apply Hk; [exact Hin|].
  destruct (keep e) eqn:E; [|reflexivity].
  exfalso. apply Hnot. apply filter_In. auto.
Qed.

Lemma removes_trans (P Q R : string * repo.node -> Prop) fs1 fs2 fs3 :
  (forall e, P e -> R e) -> (forall e, Q e -> R e) ->
  removes P fs1 fs2 -> removes Q fs2 fs3 -> removes R fs1 fs3.
Proof.
  intros HP HQ (k1 & -> & H1) (k2 & -> & H2).
  exists (fun e => k1 e && k2 e). split; [apply filter_filter|].
  intros e Hin Hk. destruct (k1 e) eqn:E1; [|now apply HP, H1].
  apply HQ, H2; [|exact Hk]. apply filter_In. auto.
Qed.

Lemma removes_weaken (P R : string * repo.node -> Prop) fs fs' :
  (forall e, P e -> R e) -> removes P fs fs' -> removes R fs fs'.
Proof. intros HPR (keep & E & H). exists keep. split; auto. Qed.

Lemma removes_NoDup P fs fs' :
  removes P fs fs' -> NoDup (map fst fs) -> NoDup (map fst fs').
Proof.
  intros (keep & -> & _). induction fs as [|e fs IH]; [trivial|].
  cbn. intros Hnd. apply NoDup_cons in Hnd as [Hnot Hnd].
  destruct (keep e); [|now apply IH].
  cbn. apply NoDup_cons. split; [|now apply IH].
  intros Hin. apply Hnot.
  apply list_elem_of_In. apply list_elem_of_In in Hin.
  apply in_map_iff in Hin as (x & Ex & Hx). apply filter_In in Hx as [Hx _].
  apply in_map_iff. eauto.
Qed.

(** [os.Remove] removes the entries at the path. *)
Lemma Remove_removes fs path fs' :
  repo.Remove fs path = Ok fs' -> removes (fun e => e.1 = path) fs fs'.
Proof.
  unfold repo.Remove. intros H.
  destruct (repo.Lstat fs path); [|discriminate].
  destruct (_ && _); [discriminate|]. injection H as <-.
  eexists. split; [reflexivity|]. intros e _ He.
  apply negb_false_iff in He. now apply String.eqb_eq in He.
Qed.

Lemma Lstat_In fs path n :
  NoDup (map fst fs) -> In (path, n) fs -> repo.Lstat fs path = Some n.
Proof.
  induction fs as [|[q m] fs IH]; [contradiction|].
  cbn [map fst]. intros Hnd Hin. apply NoDup_cons in Hnd as [Hnot Hnd].
  cbn [repo.Lstat]. destruct Hin as [E|Hin].
  - injection E as -> ->. now rewrite String.eqb_refl.
  - destruct (String.eqb_spec q path) as [->|Hne]; [|now apply IH].
    exfalso. apply Hnot. apply list_elem_of_In.
    apply in_map_iff. exists (path, n). auto.
Qed.

(** The walk of the pool gathers archives only. *)
Lemma prune_fn_archives packages path info :
  groups_of_archives packages ->
  groups_of_archives (repo.prune_fn packages path info).1.
Proof.
  intros H. unfold repo.prune_fn.
  destruct (repo.IsDir info) eqn:Ed; cbn [orb]; [exact H|].
  destruct (strings.HasSuffix path ".deb") eqn:Es; cbn [negb]; [|exact H].
  destruct info as [|[pkg|err]]; try exact H. cbn [fst].
  intros k g Hk. destruct (decide (k = deb.Name pkg ++ "_" ++ deb.Architecture pkg))
    as [->|Hne].
  - rewrite lookup_insert_eq in Hk. injection Hk as <-.
    apply Forall_app_2; [|constructor; [exact Es | constructor]].
    destruct (packages !! _) as [g0|] eqn:E0; cbn [default]; [|constructor].
    exact (H _ _ E0).
  - rewrite lookup_insert_ne in Hk by congruence. exact (H _ _ Hk).
Qed.

Lemma walk_visit_archives visits packages :
  groups_of_archives packages ->
  groups_of_archives (repo.walk_visit repo.prune_fn visits packages).1.
Proof.
  revert packages. induction visits as [|[path info] visits IH]; intros packages H;
    [exact H|].
  cbn [repo.walk_visit].
  pose proof (prune_fn_archives packages path info H) as Hstep.
  destruct (repo.prune_fn packages path info) as [s' [err|]]; cbn [fst] in *;
    [exact Hstep | now apply IH].
Qed.

Lemma Walk_archives fs poolDir :
  groups_of_archives (repo.Walk fs poolDir repo.prune_fn ∅).1.
Proof.
  assert (H0 : groups_of_archives ∅).
  { intros k g Hk. rewrite lookup_empty in Hk. discriminate. }
  unfold repo.Walk. destruct (repo.Lstat fs poolDir); [|exact H0].
  now apply walk_visit_archives.
Qed.

(** [sortPackageFiles] moves the files of a group, it does not change
    them. *)
Lemma swap_if_older_Forall (P : repo.packageFile -> Prop) files i j :
  Forall P files -> Forall P (repo.swap_if_older files i j).
Proof.
  intros H. unfold repo.swap_if_older.
  destruct (files !! i) as [fi|] eqn:Ei; [|exact H].
  destruct (files !! j) as [fj|] eqn:Ej; [|exact H].
  destruct (_ <? 0); [|exact H].
  apply Forall_insert; [apply Forall_insert; [exact H|]|].
  - exact (Forall_lookup_1 _ _ _ _ H Ei).
  - exact (Forall_lookup_1 _ _ _ _ H Ej).
Qed.

Lemma sortPackageFiles_Forall (P : repo.packageFile -> Prop) files :
  Forall P files -> Forall P (repo.sortPackageFiles files).
Proof.
  unfold repo.sortPackageFiles. generalize (length files) as n.
  intros n. generalize (seq 0 (n - 1)) as outer. intros outer.
  revert files. induction outer as [|i outer IH]; intros files H; [exact H|].
  cbn [foldl]. apply IH.
  generalize (seq (i + 1) (n - (i + 1))) as inner. intros inner.
  revert files H. induction inner as [|j inner IHi]; intros files H; [exact H|].
  cbn [foldl]. apply IHi. now apply swap_if_older_Forall.
Qed.

(** ** [sortPackageFiles] sorts, newest version first *)

Lemma not_older_trans x y z : not_older x y -> not_older y z -> not_older x z.
Proof.
  unfold not_older. intros Hxy Hyz.
  pose proof (Compare_opp x.(repo.Version) y.(repo.Version)).
  pose proof (Compare_opp y.(repo.Version) z.(repo.Version)).
  pose proof (Compare_opp x.(repo.Version) z.(repo.Version)).
  pose proof (Compare_le_trans z.(repo.Version) y.(repo.Version) x.(repo.Version)).
  lia.
Qed.

Lemma swap_if_older_length files i j :
  length (repo.swap_if_older files i j) = length files.
Proof.
  unfold repo.swap_if_older.
  destruct (files !! i), (files !! j); try reflexivity.
  destruct (_ <? 0); [|reflexivity]. now rewrite !length_insert.
Qed.

Lemma swap_if_older_Permutation files i j :
  Permutation (repo.swap_if_older files i j) files.
Proof.
  unfold repo.swap_if_older.
  destruct (files !! i) as [fi|] eqn:Ei; [|reflexivity].
  destruct (files !! j) as [fj|] eqn:Ej; [|reflexivity].
  destruct (_ <? 0); [|reflexivity].
  now apply Permutation_insert_swap.
Qed.

(** One step of the inner loop keeps what the earlier rounds settled and
    brings the newest file seen so far to position [i]. *)
Lemma swap_if_older_step files i j :
  (i < j < length files)%nat -> settled i files -> leads i j files ->
  settled i (repo.swap_if_older files i j)
  /\ leads i (S j) (repo.swap_if_older files i j).
Proof.
  intros Hij Hset Hlead.
  destruct (lookup_lt_is_Some_2 files i ltac:(lia)) as [fi Ei].
  destruct (lookup_lt_is_Some_2 files j ltac:(lia)) as [fj Ej].
  unfold repo.swap_if_older. rewrite Ei, Ej.
  destruct (Z.ltb_spec (deb.Compare fi.(repo.Version) fj.(repo.Version)) 0)
    as [Hlt|Hge].
  - assert (Hji : not_older fj fi).
    { unfold not_older.
      pose proof (Compare_opp fj.(repo.Version) fi.(repo.Version)). lia. }
    split.
    + intros a b x y Ha Hab Hx Hy.
      rewrite list_lookup_insert_ne in Hx by lia.
      rewrite list_lookup_insert_ne in Hx by lia.
      apply list_lookup_insert_Some in Hy as [(_ & <- & _)|[_ Hy]].
      { apply (Hset a j); auto; lia. }
      apply list_lookup_insert_Some in Hy as [(_ & <- & _)|[_ Hy]].
      { apply (Hset a i); auto; lia. }
      now apply (Hset a b).
    + intros b x y Hb Hx Hy.
      rewrite list_lookup_insert_eq in Hx by (rewrite length_insert; lia).
      injection Hx as <-.
      rewrite list_lookup_insert_ne in Hy by lia.
      apply list_lookup_insert_Some in Hy as [(_ & <- & _)|[Hne Hy]];
        [exact Hji|].
      apply (not_older_trans _ fi); [exact Hji|].
      apply (Hlead b); auto; lia.
  - split; [exact Hset|].
    intros b x y Hb Hx Hy. rewrite Ei in Hx. injection Hx as <-.
    destruct (decide (b = j)) as [->|Hne].
    + rewrite Ej in Hy. injection Hy as <-. exact Hge.
    + apply (Hlead b); auto; lia.
Qed.

(** The inner loop, from step [j] to the end of the slice. *)
Lemma inner_loop_leads i k : forall j files,
  (i < j)%nat -> (j + k = length files)%nat ->
  settled i files -> leads i j files ->
  let files' := foldl (fun files j => repo.swap_if_older files i j) files (seq j k) in
  settled i files' /\ leads i (length files) files'
  /\ length files' = length files.
Proof.
  induction k as [|k IH]; intros j files Hij Hlen Hset Hlead; cbn [seq foldl].
  - replace (length files) with j by lia. auto.
  - destruct (swap_if_older_step files i j) as [Hset' Hlead']; [lia|auto..|].
    pose proof (swap_if_older_length files i j) as Hl.
    destruct (IH (S j) (repo.swap_if_older files i j)) as (H1 & H2 & H3);
      [lia|lia|auto..|].
    rewrite Hl in H2, H3. auto.
Qed.

Lemma settled_S i files :
  settled i files -> leads i (length files) files -> settled (S i) files.
Proof.
  intros Hset Hlead a b x y Ha Hab Hx Hy.
  destruct (decide (a = i)) as [->|Hne].
  - apply (Hlead b); auto. split; [lia|]. now apply (lookup_lt_Some files b y).
  - apply (Hset a b); auto. lia.
Qed.

(** The outer loop, from round [i] on. *)
Lemma outer_loop_settled n k : forall i files,
  length files = n -> (i + k <= n - 1)%nat -> settled i files ->
  let files' :=
    foldl (fun files i =>
             foldl (fun files j => repo.swap_if_older files i j) files
                   (seq (i + 1) (n - (i + 1))))
          files (seq i k) in
  settled (i + k) files' /\ length files' = n.
Proof.
  induction k as [|k IH]; intros i files Hlen Hik Hset; cbn [seq foldl].
  - now rewrite Nat.add_0_r.
  - destruct (inner_loop_leads i (n - (i + 1)) (i + 1) files)
      as (H1 & H2 & H3); [lia|lia|exact Hset| |].
    { intros b x y Hb. lia. }
    replace (i + S k)%nat with (S i + k)%nat by lia.
    apply IH; [lia|lia|]. apply settled_S; [exact H1|]. now rewrite H3.
Qed.

Lemma settled_StronglySorted files :
  settled (length files) files -> StronglySorted not_older files.
Proof.
  induction files as [|x files IH]; intros Hset; constructor.
  - apply IH. intros a b u v Ha Hab Hu Hv.
    apply (Hset (S a) (S b)); auto; cbn [length]; lia.
  - apply Forall_lookup_2. intros b y Hy.
    apply (Hset 0%nat (S b)); auto; cbn [length]; lia.
Qed.

(** [sortPackageFiles] keeps the files of the group and leaves them with
    the newest version first: no file is older, under [Compare], than a
    file behind it. *)
Lemma sortPackageFiles_sorts files :
  Permutation (repo.sortPackageFiles files) files
  /\ StronglySorted not_older (repo.sortPackageFiles files).
Proof.
  split.
  - unfold repo.sortPackageFiles. generalize (length files) as n. intros n.
    generalize (seq 0 (n - 1)) as outer. intros outer.
    revert files. induction outer as [|i outer IH]; intros files; [reflexivity|].
    cbn [foldl]. rewrite IH.
    generalize (seq (i + 1) (n - (i + 1))) as inner. intros inner.
    revert files. induction inner as [|j inner IHi]; intros files; [reflexivity|].
    cbn [foldl]. rewrite IHi. apply swap_if_older_Permutation.
  - destruct (outer_loop_settled (length files) (length files - 1) 0 files)
      as [Hset Hlen]; [reflexivity|lia| |].
    { intros a b x y Ha. lia. }
    fold (repo.sortPackageFiles files) in Hset, Hlen.
    apply settled_StronglySorted. rewrite Hlen.
    intros a b x y Ha Hab Hx Hy. apply (Hset a b); auto.
    apply lookup_lt_Some in Hy. rewrite Hlen in Hy. cbn [Nat.add]. lia.
Qed.

(** On a dry run the loop over a group keeps the first [KeepVersions]
    files of the group and lists the others as deleted; the tree is left
    as it is. *)
Lemma prune_group_dry_run opts pkgs : forall i fs res,
  repo.DryRun opts = true -> 0 <= i ->
  let k := Z.to_nat (repo.KeepVersions opts - i) in
  repo.prune_group opts pkgs i fs res
  = (fs, Ok (repo.mkPruneResult
               (repo.Deleted res ++ map repo.Path (drop k pkgs))
               (repo.Kept res ++ map repo.Path (take k pkgs)))).
Proof.
  induction pkgs as [|pf rest IH]; intros i fs res Hdry Hi; cbn [repo.prune_group].
  - rewrite drop_nil, take_nil. cbn [map]. rewrite !app_nil_r.
    now destruct res.
  - destruct (Z.ltb_spec i (repo.KeepVersions opts)) as [Hlt|Hge].
    + rewrite IH by (auto; lia). cbn [repo.Deleted repo.Kept].
      replace (Z.to_nat (repo.KeepVersions opts - i))
        with (S (Z.to_nat (repo.KeepVersions opts - (i + 1)))) by lia.
      cbn [drop take map]. now rewrite <- app_assoc.
    + rewrite Hdry. cbn [negb]. rewrite IH by (auto; lia).
      cbn [repo.Deleted repo.Kept].
      replace (Z.to_nat (repo.KeepVersions opts - (i + 1))) with 0%nat by lia.
      replace (Z.to_nat (repo.KeepVersions opts - i)) with 0%nat by lia.
      cbn [drop take map]. rewrite drop_0. now rewrite <- app_assoc.
Qed.

(** The loop over a group deletes archives only, and lists what it
    deletes. *)
Lemma prune_group_removes opts pkgs i fs res fs' out :
  Forall (fun pf => deb_path pf.(repo.Path)) pkgs ->
  Forall deb_path res.(repo.Deleted) ->
  repo.prune_group opts pkgs i fs res = (fs', out) ->
  removes (fun e => deb_path e.1) fs fs'
  /\ (forall r, out = Ok r -> Forall deb_path r.(repo.Deleted))
  /\ (opts.(repo.DryRun) = true -> fs' = fs).
Proof.
  intros Hpk. revert i fs res.
  induction Hpk as [|pf pkgs Hpf _ IH]; intros i fs res Hres Hrun; cbn in Hrun.
  - injection Hrun as <- <-. split; [apply removes_refl|]. split; [|reflexivity].
    intros r [= <-]. exact Hres.
  - destruct (i <? repo.KeepVersions opts).
    + eapply IH; [|exact Hrun]. exact Hres.
    + assert (Hres' : Forall deb_path (repo.Deleted res ++ [repo.Path pf])%list).
      { apply Forall_app_2; [exact Hres | constructor; [exact Hpf | constructor]]. }
      destruct (repo.DryRun opts) eqn:Edry; cbn [negb] in Hrun.
      * eapply IH; [|exact Hrun]. exact Hres'.
      * destruct (repo.Remove fs (repo.Path pf)) as [fs1|err] eqn:Erm.
        -- destruct (IH _ _ (repo.mkPruneResult _ _) Hres' Hrun) as (Hrem & Hdel & _).
           split; [|split; [exact Hdel | discriminate]].
           eapply removes_trans; [| |apply (Remove_removes _ _ _ Erm)|exact Hrem].
           ++ intros e ->. exact Hpf.
           ++ trivial.
        -- injection Hrun as <- <-.
           split; [apply removes_refl|]. split; [discriminate | discriminate].
Qed.

Lemma prune_groups_removes opts groups fs res fs' out :
  Forall (Forall (fun pf => deb_path pf.(repo.Path))) groups ->
  Forall deb_path res.(repo.Deleted) ->
  repo.prune_groups opts groups fs res = (fs', out) ->
  removes (fun e => deb_path e.1) fs fs'
  /\ (forall r, out = Ok r -> Forall deb_path r.(repo.Deleted))
  /\ (opts.(repo.DryRun) = true -> fs' = fs).
Proof.
  intros Hg. revert fs res.
  induction Hg as [|g groups Hg0 _ IH]; intros fs res Hres Hrun; cbn in Hrun.
  - injection Hrun as <- <-. split; [apply removes_refl|]. split; [|reflexivity].
    intros r [= <-]. exact Hres.
  - destruct (repo.prune_group opts (repo.sortPackageFiles g) 0 fs res)
      as [fs1 [res1|err]] eqn:E1.
    + destruct (prune_group_removes _ _ _ _ _ _ _
                  (sortPackageFiles_Forall _ _ Hg0) Hres E1) as (Hrem1 & Hdel1 & Hdry1).
      destruct (IH _ _ (Hdel1 _ eq_refl) Hrun) as (Hrem & Hdel & Hdry).
      split; [|split; [exact Hdel|]].
      * eapply removes_trans; [| |exact Hrem1|exact Hrem]; trivial.
      * intros Ed. now rewrite (Hdry Ed), (Hdry1 Ed).
    + injection Hrun as <- <-.
      destruct (prune_group_removes _ _ _ _ _ _ _
                  (sortPackageFiles_Forall _ _ Hg0) Hres E1) as (Hrem1 & _ & Hdry1).
      split; [exact Hrem1|]. split; [discriminate | exact Hdry1].
Qed.

Lemma removes_kept P fs fs' e :
  removes P fs fs' -> In e fs -> ~ P e -> In e fs'.
Proof.
  intros (keep & -> & Hk) Hin Hnot. apply filter_In. split; [exact Hin|].
  destruct (keep e) eqn:E; [reflexivity|]. exfalso. now apply Hnot, Hk.
Qed.

Lemma filter_nil_forall {A : Type} (f : A -> bool) (l : list A) :
  List.filter f l = [] -> forall x, In x l -> f x = false.
Proof.
  induction l as [|y l IH]; [contradiction|]. cbn.
  destruct (f y) eqn:E; [discriminate|]. intros H x [<-|Hx]; auto.
Qed.

Lemma empty_dir_below_mono root fs fs' e :
  (forall q, In q fs' -> In q fs) ->
  empty_dir_below root fs e -> empty_dir_below root fs' e.
Proof. intros Hsub (H1 & H2 & H3 & H4). repeat split; auto. Qed.

(** A call of the function of [cleanEmptyDirs] removes at most the
    directory it is called on, and only when it has no entry. *)
Lemma clean_fn_removes root fs path info fs1 err :
  NoDup (map fst fs) -> repo.under root path = true ->
  repo.clean_fn root fs path info = (fs1, err) ->
  removes (empty_dir_below root fs1) fs fs1.
Proof.
  intros Hnd Hunder H. unfold repo.clean_fn in H.
  destruct (negb (repo.IsDir info)); [injection H as <- <-; apply removes_refl|].
  destruct (repo.ReadDir fs path) as [entries|e] eqn:Erd;
    [|injection H as <- <-; apply removes_refl].
  destruct ((length entries =? 0)%nat && negb (String.eqb path root)) eqn:Etest;
    [|injection H as <- <-; apply removes_refl].
  destruct (repo.Remove fs path) as [fs2|e] eqn:Erm;
    [|injection H as <- <-; apply removes_refl].
  injection H as <- <-.
  apply andb_true_iff in Etest as [Elen Eroot].
  apply Nat.eqb_eq in Elen. apply negb_true_iff in Eroot.
  unfold repo.ReadDir in Erd.
  destruct (repo.Lstat fs path) as [[|parsed]|] eqn:Els; try discriminate.
  injection Erd as <-. apply length_zero_iff_nil in Elen.
  destruct (Remove_removes _ _ _ Erm) as (keep & Hfs2 & Hkeep).
  assert (Hin : forall e, In e fs2 -> In e fs).
  { intros e He. rewrite Hfs2 in He. now apply filter_In in He. }
  exists keep. split; [exact Hfs2|].
  intros [q n] Hq Hk. specialize (Hkeep _ Hq Hk). cbn [fst] in Hkeep. subst q.
  repeat split; cbn [fst snd].
  - pose proof (Lstat_In _ _ _ Hnd Hq) as Hl. congruence.
  - intros ->. now rewrite String.eqb_refl in Eroot.
  - exact Hunder.
  - intros q Hq'. apply (filter_nil_forall _ _ Elen).
    apply in_map. now apply Hin.
Qed.

Lemma clean_walk_removes root visits fs fs' err :
  NoDup (map fst fs) ->
  Forall (fun v => repo.under root v.1 = true) visits ->
  repo.walk_visit (repo.clean_fn root) visits fs = (fs', err) ->
  removes (empty_dir_below root fs') fs fs'.
Proof.
  intros Hnd Hv. revert fs Hnd.
  induction Hv as [|[path info] visits Hp _ IH]; intros fs Hnd H; cbn in H.
  - injection H as <- <-. apply removes_refl.
  - destruct (repo.clean_fn root fs path info) as [fs1 [e|]] eqn:E1.
    + injection H as <- <-. exact (clean_fn_removes _ _ _ _ _ _ Hnd Hp E1).
    + pose proof (clean_fn_removes _ _ _ _ _ _ Hnd Hp E1) as H1.
      pose proof (IH _ (removes_NoDup _ _ _ H1 Hnd) H) as H2.
      eapply removes_trans; [| |exact H1|exact H2]; [|trivial].
      intros e. apply empty_dir_below_mono.
      intros q. eapply removes_In. exact H2.
Qed.

Lemma cleanEmptyDirs_removes fs root fs' err :
  NoDup (map fst fs) ->
  repo.cleanEmptyDirs fs root = (fs', err) ->
  removes (empty_dir_below root fs') fs fs'.
Proof.
  intros Hnd H. unfold repo.cleanEmptyDirs, repo.Walk in H.
  destruct (repo.Lstat fs root); [|injection H as <- <-; apply removes_refl].
  eapply clean_walk_removes; [exact Hnd | | exact H].
  apply Forall_forall. intros v Hv.
  apply list_elem_of_In in Hv. now apply filter_In in Hv.
Qed.

Lemma iteration_order_groups range_order m :
  iteration_order range_order -> groups_of_archives m ->
  Forall (Forall (fun pf => deb_path pf.(repo.Path))) (map snd (range_order m)).
Proof.
  intros Hord Hm. apply Forall_forall. intros g Hg.
  apply list_elem_of_In, in_map_iff in Hg as ([k g'] & <- & Hkg).
  apply list_elem_of_In in Hkg. rewrite (Hord m) in Hkg.
  apply elem_of_map_to_list in Hkg. exact (Hm _ _ Hkg).
Qed.

Lemma prune_packages_removes range_order poolDir opts packages fs fs' out :
  iteration_order range_order -> groups_of_archives packages ->
  NoDup (map fst fs) ->
  repo.prune_packages range_order poolDir opts packages fs = (fs', out) ->
  (forall r, out = Ok r -> Forall deb_path r.(repo.Deleted))
  /\ removes (fun e => deb_path e.1 \/ empty_dir_below poolDir fs' e) fs fs'
  /\ (opts.(repo.DryRun) = true -> fs' = fs).
Proof.
  intros Hord Hm Hnd H. unfold repo.prune_packages in H.
  destruct (repo.prune_groups opts (map snd (range_order packages)) fs
              (repo.mkPruneResult [] [])) as [fs1 [res|e]] eqn:E1.
  - destruct (prune_groups_removes _ _ _ (repo.mkPruneResult [] []) _ _
                (iteration_order_groups _ _ Hord Hm) (Forall_nil_2 _) E1)
      as (Hrem1 & Hdel1 & Hdry1).
    destruct (repo.DryRun opts) eqn:Edry; cbn [negb] in H.
    + injection H as <- <-. split; [exact Hdel1|]. split; [|exact Hdry1].
      eapply removes_weaken; [|exact Hrem1]. auto.
    + destruct (repo.cleanEmptyDirs fs1 poolDir) as [fs2 [e|]] eqn:E2;
        injection H as <- <-;
        pose proof (cleanEmptyDirs_removes _ _ _ _
                      (removes_NoDup _ _ _ Hrem1 Hnd) E2) as Hrem2;
        (split; [|split; [|discriminate]]);
        try discriminate; try exact Hdel1;
        (eapply removes_trans; [| |exact Hrem1|exact Hrem2]; auto).
  - injection H as <- <-.
    destruct (prune_groups_removes _ _ _ (repo.mkPruneResult [] []) _ _
                (iteration_order_groups _ _ Hord Hm) (Forall_nil_2 _) E1)
      as (Hrem1 & _ & Hdry1).
    split; [discriminate|]. split; [|exact Hdry1].
    eapply removes_weaken; [|exact Hrem1]. auto.
Qed.

(** C10: whatever [Prune] returns and whatever tree it leaves, every path
    of [Deleted] ends in [.deb]; nothing is added to the tree; an entry
    that is gone either lies at a path that ends in [.deb] or is a
    directory strictly below the pool root with no entry left in it; so a
    regular file whose path does not end in [.deb] is still there. A dry
    run leaves the tree as it is. The tree names each path once. *)
Theorem Prune_removes_archives_only range_order :
  iteration_order range_order ->
  forall Root fs opts fs' out,
    NoDup (map fst fs) ->
    repo.Prune range_order Root fs opts = (fs', out) ->
    let poolDir := filepath.Join [Root; "pool"; "main"] in
    (forall r, out = Ok r -> Forall deb_path r.(repo.Deleted))
    /\ (forall e, In e fs' -> In e fs)
    /\ (forall e, In e fs -> ~ In e fs' ->
          deb_path e.1 \/ empty_dir_below poolDir fs' e)
    /\ (forall path parsed,
          In (path, repo.RegularFile parsed) fs -> ~ deb_path path ->
          In (path, repo.RegularFile parsed) fs')
    /\ (opts.(repo.DryRun) = true -> fs' = fs).
Proof.
  intros Hord Root fs opts fs' out Hnd H poolDir.
  assert (Hall : (forall r, out = Ok r -> Forall deb_path r.(repo.Deleted))
                 /\ removes (fun e => deb_path e.1 \/ empty_dir_below poolDir fs' e) fs fs'
                 /\ (opts.(repo.DryRun) = true -> fs' = fs)).
  { unfold repo.Prune in H. fold poolDir in H.
    pose proof (Walk_archives fs poolDir) as Hm.
    destruct (repo.Walk fs poolDir repo.prune_fn ∅) as [packages err].
    cbn [fst] in Hm.
    set (opts' := if repo.KeepVersions opts <? 1
                  then repo.mkPruneOptions 5 (repo.DryRun opts) else opts) in H.
    assert (Ed : repo.DryRun opts' = repo.DryRun opts).
    { unfold opts'. now destruct (repo.KeepVersions opts <? 1). }
    rewrite <- Ed.
    destruct err as [e|].
    - destruct (negb (IsNotExist e)).
      + injection H as <- <-. split; [discriminate|].
        split; [apply removes_refl | reflexivity].
      + exact (prune_packages_removes _ _ _ _ _ _ _ Hord Hm Hnd H).
    - exact (prune_packages_removes _ _ _ _ _ _ _ Hord Hm Hnd H). }
  destruct Hall as (Hdel & Hrem & Hdry).
  split; [exact Hdel|]. split; [|split; [|split; [|exact Hdry]]].
  - intros e. now apply removes_In with (1 := Hrem).
  - intros e. now apply removes_missing with (1 := Hrem).
  - intros path parsed Hin Hnot.
    apply (removes_kept _ _ _ _ Hrem Hin).
    intros [Hdeb|(Hdir & _)]; [now apply Hnot | discriminate Hdir].
Qed.

Lemma Prune_removes_archives_only_witness :
  In ("repo/pool/main/README", repo.RegularFile (Err (errorString "read ar")))
     (repo.Prune entries_order "repo" index_pool (repo.mkPruneOptions 1 false)).1
  /\ ~ In ("repo/pool/main/p/pkg/pkg_1.0_amd64.deb", deb_file "pkg" "1.0" "amd64")
       (repo.Prune entries_order "repo" index_pool (repo.mkPruneOptions 1 false)).1.
Proof.
  split.
  - refine (proj1 (proj2 (proj2 (proj2
      (Prune_removes_archives_only entries_order iteration_order_entries
         "repo" index_pool (repo.mkPruneOptions 1 false) _ _ _ _))))
      "repo/pool/main/README" _ _ _).
    + apply (bool_decide_unpack _). vm_compute. reflexivity.
    + apply surjective_pairing.
    + cbn. tauto.
    + unfold deb_path. vm_compute. discriminate.
  - vm_compute. intros H.
    repeat (destruct H as [H|H]; [discriminate H|]). exact H.
Defined.

(** * Further properties of the code *)

(** ** The version order: runs, tildes and zeros *)

Section Runs.

Import deb.

Lemma scan_while_app_all (p : ascii -> bool) (a b : string) :
  all_bytes p a = true -> scan_while p (a ++ b) = (len a + scan_while p b)%nat.
Proof.
  intros Ha. induction a as [|x a IH]; [reflexivity|].
  cbn [all_bytes] in Ha. apply andb_true_iff in Ha as [Hx Ha].
  cbn [String.append scan_while]. rewrite Hx, IH by exact Ha. reflexivity.
Qed.

Lemma slice_to_app_ge (a b : string) (k : nat) :
  slice_to (len a + k) (a ++ b) = a ++ slice_to k b.
Proof. induction a as [|x a IH]; [reflexivity|]. simpl. now rewrite <- IH. Qed.

Lemma slice_from_app_ge (a b : string) (k : nat) :
  slice_from (len a + k) (a ++ b) = slice_from k b.
Proof. induction a as [|x a IH]; [reflexivity|]. simpl. exact IH. Qed.

(** A string is its non-digit run, its digit run and what is left; what
    is left does not start with a digit, and it is empty when the digit
    run is. *)
Lemma runs_split (s : string) :
  s = nondigit_run s ++ digit_run s ++ after_runs s
  /\ all_bytes (fun c => negb (unicode.IsDigit c)) (nondigit_run s) = true
  /\ all_bytes unicode.IsDigit (digit_run s) = true
  /\ starts_with_digit (after_runs s) = false
  /\ (digit_run s = "" -> after_runs s = "").
Proof.
  unfold nondigit_run, digit_run, after_runs, extractNonDigits, extractDigits.
  cbn [fst snd].
  set (i := scan_while (fun c => negb (unicode.IsDigit c)) s).
  set (r := slice_from i s).
  set (j := scan_while unicode.IsDigit r).
  split; [|split; [|split; [|split]]].
  - rewrite (slice_to_from j r). unfold r. now rewrite slice_to_from.
  - apply scan_while_prefix.
  - apply scan_while_prefix.
  - pose proof (scan_while_stop unicode.IsDigit r) as H. fold j in H.
    destruct (slice_from j r); [reflexivity | exact H].
  - pose proof (scan_while_stop (fun c => negb (unicode.IsDigit c)) s) as H.
    fold i in H. fold r in H. unfold j.
    destruct r as [|c r']; [reflexivity|].
    apply negb_false_iff in H. cbn [scan_while]. rewrite H.
    cbn [slice_to]. discriminate.
Qed.

(** The other way round: the runs of [n ++ d ++ rest]. *)
Lemma runs_of (n d rest : string) :
  all_bytes (fun c => negb (unicode.IsDigit c)) n = true ->
  all_bytes unicode.IsDigit d = true ->
  starts_with_digit rest = false ->
  (d = "" -> rest = "") ->
  nondigit_run (n ++ d ++ rest) = n
  /\ digit_run (n ++ d ++ rest) = d
  /\ after_runs (n ++ d ++ rest) = rest.
Proof.
  intros Hn Hd Hr Hdr.
  assert (Hi : scan_while (fun c => negb (unicode.IsDigit c)) (n ++ d ++ rest) = len n).
  { destruct (d ++ rest) as [|c t] eqn:E.
    - rewrite append_nil_r. now apply scan_while_all.
    - apply scan_while_append; [exact Hn|].
      destruct d as [|c' d'].
      + rewrite (Hdr eq_refl) in E. discriminate E.
      + cbn [String.append] in E. injection E as <- _.
        cbn [all_bytes] in Hd. apply andb_true_iff in Hd as [Hc _]. now rewrite Hc. }
  assert (Hj : scan_while unicode.IsDigit (d ++ rest) = len d).
  { destruct rest as [|c t].
    - rewrite append_nil_r. now apply scan_while_all.
    - apply scan_while_append; [exact Hd | exact Hr]. }
  unfold nondigit_run, digit_run, after_runs, extractNonDigits, extractDigits.
  cbn [fst snd]. rewrite Hi, slice_to_append, slice_from_append, Hj.
  now rewrite slice_to_append, slice_from_append.
Qed.

Lemma compareNonDigits_prefix (p a b : string) :
  compareNonDigits (p ++ a) (p ++ b) = compareNonDigits a b.
Proof.
  induction p as [|x p IH]; [reflexivity|].
  rewrite compareNonDigits_unroll. cbn [String.append is_empty andb head_order tail].
  rewrite int_cmp_refl. exact IH.
Qed.

(** The order of a byte is never 0, the order of the end of a string. *)
Lemma charOrder_sign (c : ascii) :
  int_cmp (charOrder c) 0 = if Ascii.eqb c "~" then -1 else 1.
Proof.
  unfold charOrder, int_cmp.
  destruct (Ascii.eqb c "~"); [reflexivity|].
  assert (0 <= byte_val c) by (unfold byte_val; lia).
  destruct ((byte_val "A" <=? byte_val c) && (byte_val c <=? byte_val "Z")) eqn:E1.
  { apply andb_true_iff in E1 as [E1 _]. apply Z.leb_le in E1.
    change (byte_val "A") with 65 in E1.
    destruct (Z.eqb_spec (byte_val c) 0), (Z.ltb_spec (byte_val c) 0);
      cbn [negb]; lia. }
  destruct ((byte_val "a" <=? byte_val c) && (byte_val c <=? byte_val "z")) eqn:E2.
  { apply andb_true_iff in E2 as [E2 _]. apply Z.leb_le in E2.
    change (byte_val "a") with 97 in E2.
    destruct (Z.eqb_spec (byte_val c) 0), (Z.ltb_spec (byte_val c) 0);
      cbn [negb]; lia. }
  destruct (Z.eqb_spec (byte_val c + 256) 0), (Z.ltb_spec (byte_val c + 256) 0);
    cbn [negb]; lia.
Qed.

Lemma compareNonDigits_suffix (v : string) (c : ascii) (x : string) :
  compareNonDigits (v ++ String c x) v = if Ascii.eqb c "~" then -1 else 1.
Proof.
  rewrite <- (append_nil_r v) at 2. rewrite compareNonDigits_prefix.
  rewrite compareNonDigits_unroll. cbn [is_empty andb head_order tail].
  rewrite charOrder_sign. now destruct (Ascii.eqb c "~").
Qed.

Lemma compareDigits_refl (d : string) : compareDigits d d = 0.
Proof. rewrite compareDigits_key. apply int_cmp_refl. Qed.

Lemma starts_with_digit_append (a b : string) :
  a <> "" -> starts_with_digit (a ++ b) = starts_with_digit a.
Proof. destruct a; [congruence | reflexivity]. Qed.

Lemma append_eq_nil (a b : string) : a ++ b = "" -> a = "" /\ b = "".
Proof. destruct a; [now split | discriminate]. Qed.

(** The runs of a string that goes on, when its own digit run is not
    empty and what follows the run does not start with a digit. *)
Lemma runs_append (v t : string) :
  digit_run v <> "" -> starts_with_digit (after_runs v ++ t) = false ->
  nondigit_run (v ++ t) = nondigit_run v
  /\ digit_run (v ++ t) = digit_run v
  /\ after_runs (v ++ t) = after_runs v ++ t.
Proof.
  intros Hd Ht.
  destruct (runs_split v) as (Hv & Hn & Hdg & Hr & _).
  assert (E : v ++ t = nondigit_run v ++ digit_run v ++ (after_runs v ++ t)).
  { rewrite Hv at 1. now rewrite !append_assoc. }
  rewrite E. apply runs_of; try assumption.
  intros H. contradiction.
Qed.

Lemma starts_after_runs (v t : string) :
  after_runs v <> "" \/ starts_with_digit t = false ->
  starts_with_digit (after_runs v ++ t) = false.
Proof.
  intros H. destruct (runs_split v) as (_ & _ & _ & Hr & _).
  destruct (after_runs v) as [|c r]; [|exact Hr].
  destruct H as [H|H]; [congruence | exact H].
Qed.

(** A version part that goes on with a byte that is no digit sorts after
    the part itself, and before it when the byte is a tilde. *)
Lemma compareVersionPart_suffix (v : string) (c : ascii) (r : string) :
  unicode.IsDigit c = false ->
  compareVersionPart (v ++ String c r) v = if Ascii.eqb c "~" then -1 else 1.
Proof.
  intros Hc. remember (len v) as k eqn:Hk. revert v Hk.
  induction k as [k IH] using lt_wf_ind. intros v Hk.
  rewrite compareVersionPart_unroll.
  assert (E : is_empty (v ++ String c r) = false) by now destruct v.
  rewrite E. cbn [andb].
  destruct (digit_run v) as [|c0 d] eqn:Hd.
  - (* [v] is a run of non-digits *)
    destruct (runs_split v) as (Hv & Hn & _ & _ & Hr).
    rewrite Hd, (Hr Hd), !append_nil_r in Hv. rewrite <- Hv in Hn.
    assert (Hrun : exists x, nondigit_run (v ++ String c r) = v ++ String c x).
    { unfold nondigit_run, extractNonDigits. cbn [fst].
      rewrite scan_while_app_all by exact Hn.
      cbn [scan_while]. rewrite Hc. cbn [negb].
      rewrite slice_to_app_ge. cbn [slice_to]. eauto. }
    destruct Hrun as [x ->]. rewrite <- Hv.
    rewrite compareNonDigits_suffix. now destruct (Ascii.eqb c "~").
  - destruct (runs_append v (String c r)) as (-> & -> & ->);
      [rewrite Hd; discriminate | apply starts_after_runs; now right |].
    rewrite Hd, compareNonDigits_refl, compareDigits_refl.
    unfold first_nonzero. cbn [Z.eqb negb].
    apply (IH (len (after_runs v))); [|reflexivity].
    subst k. apply len_after_runs. intros ->. discriminate Hd.
Qed.

(** The runs of a string behind a run of non-digits. *)
Lemma runs_prepend (p x : string) :
  all_bytes (fun c => negb (unicode.IsDigit c)) p = true ->
  nondigit_run (p ++ x) = p ++ nondigit_run x
  /\ digit_run (p ++ x) = digit_run x
  /\ after_runs (p ++ x) = after_runs x.
Proof.
  intros Hp. destruct (runs_split x) as (Hx & Hn & Hd & Hr & Hdr).
  assert (E : p ++ x = (p ++ nondigit_run x) ++ digit_run x ++ after_runs x).
  { rewrite Hx at 1. now rewrite append_assoc. }
  rewrite E. apply runs_of; try assumption.
  clear E Hx. induction p as [|c p IH]; [exact Hn|].
  cbn [all_bytes] in Hp. apply andb_true_iff in Hp as [Hc Hp].
  cbn [String.append all_bytes]. rewrite Hc. now apply IH.
Qed.

Lemma ends_with_digit_append (a b : string) :
  b <> "" -> ends_with_digit (a ++ b) = ends_with_digit b.
Proof.
  intros Hb. induction a as [|c a IH]; [reflexivity|].
  cbn [String.append ends_with_digit]. rewrite IH.
  destruct (a ++ b) eqn:E; [|reflexivity].
  apply append_eq_nil in E as [_ ->]. congruence.
Qed.

Lemma ends_with_digit_all (d : string) :
  d <> "" -> all_bytes unicode.IsDigit d = true -> ends_with_digit d = true.
Proof.
  induction d as [|c d IH]; [congruence|]. intros _ H.
  cbn [all_bytes] in H. apply andb_true_iff in H as [Hc Hd].
  cbn [ends_with_digit]. destruct d as [|c' d']; [exact Hc|].
  apply IH; [discriminate | exact Hd].
Qed.

(** A common prefix that does not end with a digit does not count: the
    rounds of [compareVersionPart] that read it find the same runs on
    both sides. *)
Lemma compareVersionPart_prefix (p x y : string) :
  ends_with_digit p = false ->
  compareVersionPart (p ++ x) (p ++ y) = compareVersionPart x y.
Proof.
  remember (len p) as k eqn:Hk. revert p Hk.
  induction k as [k IH] using lt_wf_ind. intros p Hk Hp.
  destruct p as [|c0 p0] eqn:Ep; [reflexivity|]. rewrite <- Ep in *.
  assert (Hne : p <> "") by (rewrite Ep; discriminate).
  clear Ep c0 p0.
  rewrite compareVersionPart_unroll.
  assert (E : forall z, is_empty (p ++ z) = false).
  { intros z. destruct p; [congruence | reflexivity]. }
  rewrite !E. cbn [andb].
  destruct (runs_split p) as (Hsplit & Hn & Hd & Hr & Hdr).
  destruct (digit_run p) as [|c d] eqn:Ed.
  - rewrite (Hdr eq_refl), !append_nil_r in Hsplit. rewrite <- Hsplit in Hn.
    destruct (runs_prepend p x Hn) as (-> & -> & ->).
    destruct (runs_prepend p y Hn) as (-> & -> & ->).
    rewrite compareNonDigits_prefix.
    rewrite (compareVersionPart_unroll x y).
    destruct (is_empty x && is_empty y) eqn:Exy; [|reflexivity].
    apply andb_true_iff in Exy as [Ex Ey]. apply is_empty_true in Ex, Ey.
    subst x y. reflexivity.
  - assert (Hrest : after_runs p <> "").
    { intros Hnil. rewrite Hnil, append_nil_r in Hsplit.
      rewrite Hsplit, ends_with_digit_append in Hp by discriminate.
      rewrite ends_with_digit_all in Hp; [discriminate Hp | discriminate | exact Hd]. }
    assert (Hp' : ends_with_digit (after_runs p) = false).
    { rewrite Hsplit in Hp. rewrite <- append_assoc in Hp.
      now rewrite ends_with_digit_append in Hp by exact Hrest. }
    destruct (runs_append p x) as (-> & -> & ->);
      [rewrite Ed; discriminate | apply starts_after_runs; now left |].
    destruct (runs_append p y) as (-> & -> & ->);
      [rewrite Ed; discriminate | apply starts_after_runs; now left |].
    rewrite compareNonDigits_refl, compareDigits_refl.
    unfold first_nonzero. cbn [Z.eqb negb].
    apply (IH (len (after_runs p))); [|reflexivity|exact Hp'].
    subst k. now apply len_after_runs.
Qed.

Lemma extractNonDigits_digit (c : ascii) (t : string) :
  unicode.IsDigit c = true -> extractNonDigits (String c t) = ("", String c t).
Proof. intros H. unfold extractNonDigits. cbn [scan_while]. now rewrite H. Qed.

Lemma extractDigits_digit (c : ascii) (t : string) :
  unicode.IsDigit c = true ->
  extractDigits (String c t)
  = (String c (fst (extractDigits t)), snd (extractDigits t)).
Proof. intros H. unfold extractDigits. cbn [scan_while]. now rewrite H. Qed.

(** A zero in front of a digit run, or in the place of an empty one at
    the end, does not count. *)
Lemma compareVersionPart_zero (s : string) :
  s = "" \/ starts_with_digit s = true ->
  compareVersionPart (String "0" s) s = 0.
Proof.
  intros [->|Hs]; [reflexivity|].
  destruct s as [|c s]; [discriminate Hs|]. cbn [starts_with_digit] in Hs.
  rewrite compareVersionPart_unroll. cbn [is_empty andb].
  unfold nondigit_run, digit_run, after_runs.
  rewrite (extractNonDigits_digit "0") by reflexivity.
  rewrite (extractNonDigits_digit c) by exact Hs. cbn [fst snd].
  rewrite (extractDigits_digit "0") by reflexivity.
  rewrite (extractDigits_digit c) by exact Hs. cbn [fst snd].
  rewrite compareNonDigits_nil. unfold first_nonzero at 1. cbn [Z.eqb negb].
  set (d := String c (fst (extractDigits s))).
  replace (compareDigits (String "0" d) d) with 0.
  - unfold first_nonzero. cbn [Z.eqb negb]. apply compareVersionPart_refl.
  - symmetry. rewrite compareDigits_key. unfold digit_key at 1, strings.TrimLeft0.
    cbn [scan_while]. change (byte_val "0" =? 48) with true. cbv iota.
    cbn [slice_from]. apply int_cmp_refl.
Qed.

End Runs.

Lemma match_tail_no_hyphen (u : string) :
  no_hyphen u = true ->
  deb.match_tail u = if is_empty u then None else Some (u, "").
Proof.
  intros Hu. unfold deb.match_tail.
  rewrite (scan_while_all _ u Hu).
  pose proof (slice_to_append u "") as H1. pose proof (slice_from_append u "") as H2.
  rewrite append_nil_r in H1, H2. rewrite H1, H2.
  now destruct (is_empty u).
Qed.

Lemma ParseVersion_plain (u : string) :
  plain_version u = true -> deb.ParseVersion u = (0, u, "").
Proof.
  unfold plain_version. intros H. apply andb_true_iff in H as [Hh He].
  apply negb_true_iff in He.
  unfold deb.ParseVersion, deb.versionRegex.
  rewrite (match_tail_no_hyphen u Hh).
  unfold has_epoch in He.
  set (i := scan_while unicode.IsDigit u) in *.
  assert (Hplain : match (if is_empty u then None else Some (u, ""))
                   with
                   | Some (u0, r) => Some ("", u0, r)
                   | None => None
                   end = if is_empty u then None else Some ("", u, ""))
    by now destruct (is_empty u).
  rewrite Hplain. clear Hplain.
  assert (Hres : match (if is_empty u then None else Some ("", u, "")) with
                 | Some (m1, m2, m3) =>
                     (if negb (is_empty m1) then fst (strconv.Atoi m1) else 0, m2, m3)
                 | None => (0, u, "")
                 end = (0, u, "")) by now destruct (is_empty u).
  destruct (slice_from i u) as [|c t]; [exact Hres|].
  destruct ((0 <? i)%nat && Ascii.eqb c ":") eqn:E; [|exact Hres].
  rewrite andb_assoc, E in He. cbn [andb] in He.
  apply negb_false_iff, is_empty_true in He. subst t.
  cbn [deb.match_tail scan_while slice_to is_empty]. exact Hres.
Qed.

(** On plain versions [Compare] is [compareVersionPart]. *)
Lemma Compare_plain (a b : string) :
  plain_version a = true -> plain_version b = true ->
  deb.Compare a b = deb.compareVersionPart a b.
Proof.
  intros Ha Hb. unfold deb.Compare.
  rewrite (ParseVersion_plain a Ha), (ParseVersion_plain b Hb).
  cbn [Z.eqb negb].
  destruct (deb.compareVersionPart a b =? 0) eqn:E; [|reflexivity].
  apply Z.eqb_eq in E. rewrite E. reflexivity.
Qed.

(** X1: a version part that goes on with a tilde sorts before the part
    itself, and one that goes on with any other byte that is no digit
    sorts after it, whatever follows that byte: [compareVersionPart]
    returns -1 and 1; and so does [Compare] on versions without epoch
    and hyphen, as for ["1.0~rc1"], ["1.0"] and ["1.0+b1"]. *)
Theorem Compare_suffix :
  (forall v c r,
      unicode.IsDigit c = false ->
      deb.compareVersionPart (v ++ String c r) v = if Ascii.eqb c "~" then -1 else 1)
  /\ (forall v c r,
        unicode.IsDigit c = false ->
        plain_version v = true -> plain_version (v ++ String c r) = true ->
        deb.Compare (v ++ String c r) v = if Ascii.eqb c "~" then -1 else 1).
Proof.
  split.
  - intros v c r Hc. now apply compareVersionPart_suffix.
  - intros v c r Hc Hv Hr. rewrite Compare_plain by assumption.
    now apply compareVersionPart_suffix.
Qed.

Lemma Compare_suffix_witness :
  deb.Compare "1.0~rc1" "1.0" = -1 /\ deb.Compare "1.0+b1" "1.0" = 1.
Proof.
  split.
  - apply (proj2 Compare_suffix "1.0" "~"%char "rc1"); reflexivity.
  - apply (proj2 Compare_suffix "1.0" "+"%char "b1"); reflexivity.
Defined.

(** X2: a zero put in front of a digit run, or after a prefix that does
    not end with a digit when nothing follows, does not change how a
    version part compares: [compareVersionPart] returns 0 for the two
    strings, and so does [Compare] on versions without epoch and hyphen,
    as for ["1.01"] and ["1.1"]. *)
Theorem Compare_leading_zero :
  forall p s,
    ends_with_digit p = false ->
    s = "" \/ starts_with_digit s = true ->
    deb.compareVersionPart (p ++ "0" ++ s) (p ++ s) = 0
    /\ (plain_version (p ++ "0" ++ s) = true -> plain_version (p ++ s) = true ->
        deb.Compare (p ++ "0" ++ s) (p ++ s) = 0).
Proof.
  intros p s Hp Hs.
  assert (H : deb.compareVersionPart (p ++ "0" ++ s) (p ++ s) = 0).
  { rewrite compareVersionPart_prefix by exact Hp.
    now apply compareVersionPart_zero. }
  split; [exact H|]. intros Ha Hb. now rewrite Compare_plain.
Qed.

Lemma Compare_leading_zero_witness :
  deb.Compare "1.01" "1.1" = 0.
Proof.
  apply (Compare_leading_zero "1." "1"); try reflexivity. now right.
Defined.

(** X3: on digit runs whose values are below [2^63], [compareDigits] is
    the comparison of the values: leading zeros do not count. *)
Theorem compareDigits_exact (a b : string) :
  all_bytes unicode.IsDigit a = true -> all_bytes unicode.IsDigit b = true ->
  digits_value a 0 < 2 ^ 63 -> digits_value b 0 < 2 ^ 63 ->
  deb.compareDigits a b = int_cmp (digits_value a 0) (digits_value b 0).
Proof.
  intros Ha Hb Hva Hvb. rewrite compareDigits_values by assumption.
  now rewrite !Z.min_l by lia.
Qed.

Lemma compareDigits_exact_witness :
  deb.compareDigits "0012" "9" = int_cmp 12 9.
Proof.
  apply (compareDigits_exact "0012" "9"); reflexivity.
Defined.

(** ** [ParseVersion] loses nothing but the spelling of the epoch *)

Lemma Atoi_fast_digits (s : string) (n : Z) :
  all_bytes unicode.IsDigit s = true ->
  strconv.Atoi_fast s n = Some (digits_value s n).
Proof.
  revert n. induction s as [|c s IH]; intros n Hs; [reflexivity|].
  cbn [all_bytes] in Hs. apply andb_true_iff in Hs as [Hc Hs].
  pose proof (IsDigit_range c Hc) as Hd.
  cbn [strconv.Atoi_fast digits_value].
  rewrite (Z.mod_small (byte_val c - 48) 256) by lia.
  destruct (Z.ltb_spec 9 (byte_val c - 48)); [lia|]. now apply IH.
Qed.

Lemma digits_value_lt (s : string) (n : Z) :
  all_bytes unicode.IsDigit s = true -> 0 <= n ->
  digits_value s n < (n + 1) * 10 ^ Z.of_nat (len s).
Proof.
  revert n. induction s as [|c s IH]; intros n Hs Hn.
  - cbn [digits_value]. change (len "") with 0%nat. cbn. lia.
  - cbn [all_bytes] in Hs. apply andb_true_iff in Hs as [Hc Hs].
    pose proof (IsDigit_range c Hc) as Hd.
    cbn [digits_value]. specialize (IH (n * 10 + (byte_val c - 48)) Hs ltac:(lia)).
    change (len (String c s)) with (S (len s)).
    rewrite Nat2Z.inj_succ, Z.pow_succ_r by lia.
    assert (0 < 10 ^ Z.of_nat (len s)) by (apply Z.pow_pos_nonneg; lia).
    nia.
Qed.

(** [strconv.Atoi] on a run of digits: its value, or [2^63 - 1] when the
    value is larger. *)
Lemma Atoi_digits (d : string) :
  d <> "" -> all_bytes unicode.IsDigit d = true ->
  fst (strconv.Atoi d) = Z.min (digits_value d 0) (2 ^ 63 - 1).
Proof.
  intros Hne Hd. unfold strconv.Atoi.
  destruct ((0 <? len d)%nat && (len d <? 19)%nat) eqn:Elen;
    [|now apply ParseInt_digits].
  apply andb_true_iff in Elen as [_ Hlt]. apply Nat.ltb_lt in Hlt.
  destruct d as [|c r] eqn:Ed; [congruence|]. rewrite <- Ed in *.
  assert (Hc : unicode.IsDigit c = true).
  { rewrite Ed in Hd. cbn [all_bytes] in Hd. now apply andb_true_iff in Hd as [Hc _]. }
  assert (Hsign : Ascii.eqb c "-" = false /\ Ascii.eqb c "+" = false).
  { destruct c as [[] [] [] [] [] [] [] []]; try discriminate Hc; split; reflexivity. }
  destruct Hsign as [-> ->]. cbn [orb andb].
  rewrite Atoi_fast_digits by exact Hd. cbn [fst].
  pose proof (digits_value_lt d 0 Hd ltac:(lia)) as Hv.
  assert (10 ^ Z.of_nat (len d) <= 10 ^ 18).
  { apply Z.pow_le_mono_r; lia. }
  change (2 ^ 63 - 1) with 9223372036854775807.
  change (10 ^ 18) with 1000000000000000000 in *. lia.
Qed.

Lemma match_tail_Some (s u r : string) :
  deb.match_tail s = Some (u, r) ->
  s = u ++ (if is_empty r then "" else "-" ++ r).
Proof.
  unfold deb.match_tail.
  set (i := scan_while (fun c => negb (Ascii.eqb c "-")) s).
  pose proof (slice_to_from i s) as Hs.
  pose proof (scan_while_stop (fun c => negb (Ascii.eqb c "-")) s) as Hstop.
  fold i in Hstop.
  destruct (is_empty (slice_to i s)); [discriminate|].
  destruct (slice_from i s) as [|c rev].
  - intros H. injection H as <- <-. cbn [is_empty]. exact (eq_sym Hs).
  - apply negb_false_iff, Ascii.eqb_eq in Hstop. subst c.
    destruct (negb (is_empty rev)) eqn:Er; [|discriminate].
    cbn [andb]. destruct (all_bytes _ rev); [|discriminate].
    intros H. injection H as <- <-.
    apply negb_true_iff in Er. rewrite Er. exact (eq_sym Hs).
Qed.

(** X4: the parts [ParseVersion] returns make up the version string:
    it is the upstream version, followed by a hyphen and the revision
    when there is a revision, and preceded by a run of digits and a colon
    when an epoch was read; the epoch is the value of these digits, or
    [2^63 - 1] when the value is larger, and 0 without them. *)
Theorem ParseVersion_parts (version : string) :
  made_of version (deb.ParseVersion version).
Proof.
  unfold deb.ParseVersion, deb.versionRegex.
  set (i := scan_while unicode.IsDigit version).
  assert (Hplain :
    made_of version
      match match deb.match_tail version with
            | Some (u, r) => Some ("", u, r)
            | None => None
            end with
      | Some (m1, m2, m3) =>
          (if negb (is_empty m1) then fst (strconv.Atoi m1) else 0, m2, m3)
      | None => (0, version, "")
      end).
  { destruct (deb.match_tail version) as [[u r]|] eqn:E; exists ""; cbn.
    - split; [now apply match_tail_Some | now left].
    - split; [now rewrite append_nil_r | now left]. }
  destruct (slice_from i version) as [|c tail0] eqn:Es; [exact Hplain|].
  destruct ((0 <? i)%nat && Ascii.eqb c ":") eqn:Ec; [|exact Hplain].
  destruct (deb.match_tail tail0) as [[u r]|] eqn:Et; [|exact Hplain].
  apply andb_true_iff in Ec as [Hi Hc]. apply Nat.ltb_lt in Hi.
  apply Ascii.eqb_eq in Hc. subst c.
  set (d := slice_to i version).
  assert (Hd : d <> "").
  { unfold d. destruct version; [discriminate Es|].
    destruct i; [lia | discriminate]. }
  exists (d ++ ":").
  split.
  - rewrite append_assoc, <- (match_tail_Some _ _ _ Et).
    change (":" ++ tail0) with (String ":" tail0).
    rewrite <- Es. unfold d. now rewrite slice_to_from.
  - right. exists d. split; [reflexivity|]. split; [exact Hd|].
    split; [apply scan_while_prefix|].
    apply is_empty_false in Hd as Hd'. rewrite Hd'. cbn [negb].
    apply Atoi_digits; [exact Hd | apply scan_while_prefix].
Qed.

(** ** The two sorts *)

Lemma swap_if_less_Version (files : list repo.packageFile) (i j : nat) :
  deb.swap_if_less (map repo.Version files) i j
  = map repo.Version (repo.swap_if_older files i j).
Proof.
  unfold deb.swap_if_less, repo.swap_if_older.
  change (map repo.Version files) with (repo.Version <$> files).
  rewrite !list_lookup_fmap.
  destruct (files !! i) as [fi|]; [|reflexivity].
  destruct (files !! j) as [fj|]; [|reflexivity]. cbn [fmap option_fmap option_map].
  destruct (_ <? 0); [|reflexivity].
  change (map repo.Version ?l) with (repo.Version <$> l).
  now rewrite !list_fmap_insert.
Qed.

(** [SortVersions] does to the versions what [sortPackageFiles] does to
    the files that carry them. *)
Lemma SortVersions_Version (files : list repo.packageFile) :
  deb.SortVersions (map repo.Version files)
  = map repo.Version (repo.sortPackageFiles files).
Proof.
  unfold deb.SortVersions, repo.sortPackageFiles. rewrite length_map.
  generalize (length files) as n. intros n.
  generalize (seq 0 (n - 1)) as outer. intros outer.
  revert files. induction outer as [|i outer IH]; intros files; [reflexivity|].
  cbn [foldl].
  assert (Hinner : forall inner fs,
    foldl (fun versions j => deb.swap_if_less versions i j) (map repo.Version fs) inner
    = map repo.Version (foldl (fun files j => repo.swap_if_older files i j) fs inner)).
  { induction inner as [|j inner IHi]; intros fs; [reflexivity|].
    cbn [foldl]. now rewrite swap_if_less_Version, IHi. }
  now rewrite Hinner, IH.
Qed.

(** X5: [sortPackageFiles] keeps the files of the group and leaves them
    with the newest version first: no file is older, under [Compare],
    than a file behind it. *)
Theorem sortPackageFiles_descending (files : list repo.packageFile) :
  Permutation (repo.sortPackageFiles files) files
  /\ StronglySorted not_older (repo.sortPackageFiles files).
Proof. apply sortPackageFiles_sorts. Qed.

(** X6: [SortVersions] keeps the versions of the slice and leaves them
    in descending order: no version is older, under [Compare], than one
    behind it. *)
Theorem SortVersions_descending (versions : list string) :
  Permutation (deb.SortVersions versions) versions
  /\ StronglySorted version_ge (deb.SortVersions versions).
Proof.
  set (files := map (repo.mkPackageFile "") versions).
  assert (E : versions = map repo.Version files).
  { unfold files. rewrite map_map. cbn [repo.Version]. now rewrite map_id. }
  rewrite E, SortVersions_Version.
  destruct (sortPackageFiles_sorts files) as [Hperm Hsorted].
  split.
  - now apply Permutation_map.
  - change (map repo.Version ?l) with (repo.Version <$> l).
    apply (StronglySorted_fmap repo.Version not_older version_ge); [|exact Hsorted].
    intros x y Hxy. exact Hxy.
Qed.

(** ** What [Parse] returns *)

Lemma saveField_pool_fields (st : deb.scan_state) :
  pool_fields_unset st.(deb.st_pkg) -> pool_fields_unset (deb.saveField st).
Proof.
  unfold pool_fields_unset, deb.saveField. intros H.
  destruct (is_empty _); [exact H|].
  repeat (destruct (String.eqb (deb.currentField st) _); [exact H|]).
  destruct (String.eqb (deb.currentField st) _); [|exact H].
  destruct (strconv.ParseInt _) as [size [err|]]; exact H.
Qed.

Lemma scan_line_pool_fields (st : deb.scan_state) (line : string) :
  pool_fields_unset st.(deb.st_pkg) ->
  pool_fields_unset (deb.scan_line st line).(deb.st_pkg).
Proof.
  intros H. unfold deb.scan_line.
  destruct (deb.is_continuation line); [exact H|].
  pose proof (saveField_pool_fields st H) as H'.
  destruct (strings.IndexByte line ":") as [[|idx]|]; exact H'.
Qed.

(** What [parseControl] returns has a name, a version and an
    architecture, and nothing in the fields of the pool. *)
Lemma parseControl_Ok (data : string) (pkg : deb.Package) :
  deb.parseControl data = Ok pkg ->
  pkg.(deb.Name) <> "" /\ pkg.(deb.Version) <> "" /\ pkg.(deb.Architecture) <> ""
  /\ pool_fields_unset pkg.
Proof.
  unfold deb.parseControl.
  set (st := foldl deb.scan_line _ _).
  assert (Hst : pool_fields_unset st.(deb.st_pkg)).
  { unfold st. generalize (bufio.ScanLines data) as lines.
    assert (H0 : pool_fields_unset (deb.mkState deb.emptyPackage "" "").(deb.st_pkg))
      by (repeat split).
    revert H0. generalize (deb.mkState deb.emptyPackage "" "") as s0.
    intros s0 H0 lines. revert s0 H0.
    induction lines as [|l lines IH]; intros s0 H0; [exact H0|].
    cbn [foldl]. apply IH. now apply scan_line_pool_fields. }
  apply saveField_pool_fields in Hst.
  destruct (is_empty (deb.Name _)) eqn:E1; [discriminate|].
  destruct (is_empty (deb.Version _)) eqn:E2; [discriminate|].
  destruct (is_empty (deb.Architecture _)) eqn:E3; [discriminate|].
  intros H. injection H as <-.
  apply is_empty_false in E1, E2, E3. auto.
Qed.

Lemma PoolPath_None (p : deb.Package) (filename : string) :
  deb.PoolPath p filename = None <-> p.(deb.Name) = "".
Proof.
  unfold deb.PoolPath. destruct (deb.Name p) as [|c n]; [now split|].
  destruct (_ && _); split; discriminate.
Qed.

(** X7: a package [Parse] returns has a name, a version and an
    architecture that are not empty, so [PoolPath] does not panic on it;
    its size and digests are those of the file, and its [Filename] is
    empty: the control data of the archive cannot set any of them. *)
Theorem Parse_result (tmp : deb.TempFile) (tmpName : string) (f : deb.File)
    (pkg : deb.Package) :
  deb.Parse tmp tmpName f = Ok pkg ->
  pkg.(deb.Name) <> "" /\ pkg.(deb.Version) <> "" /\ pkg.(deb.Architecture) <> ""
  /\ pkg.(deb.Filename) = ""
  /\ pkg.(deb.Size) = f.(deb.f_size)
  /\ pkg.(deb.MD5sum) = f.(deb.f_md5)
  /\ pkg.(deb.SHA1) = f.(deb.f_sha1)
  /\ pkg.(deb.SHA256) = f.(deb.f_sha256)
  /\ forall filename, deb.PoolPath pkg filename <> None.
Proof.
  unfold deb.Parse.
  destruct (deb.f_open f); [discriminate|].
  destruct (deb.f_stat f); [discriminate|].
  destruct (deb.f_copy f); [discriminate|].
  destruct (deb.f_seek f); [discriminate|].
  destruct (deb.find_control _ _ _) as [[data|]|]; try discriminate.
  destruct (deb.parseControl data) as [p0|] eqn:E; [|discriminate].
  intros H. injection H as <-.
  destruct (parseControl_Ok data p0 E) as (Hn & Hv & Ha & Hf & _).
  repeat split; try assumption.
  intros filename Hp. apply PoolPath_None in Hp. now apply Hn.
Qed.

Lemma Parse_result_witness :
  exists pkg,
    deb.Parse (deb.mkTempFile None None None) "/tmp/control.tar.xz1"
      (gz_archive "Package: hello
Version: 2.10-3
Architecture: amd64
Filename: /etc/passwd
Size: 1
") = Ok pkg
    /\ pkg.(deb.Name) = "hello" /\ pkg.(deb.Filename) = "" /\ pkg.(deb.Size) = 2048.
Proof.
  eexists. split; [vm_compute; reflexivity|].
  split; [reflexivity|].
  match goal with
  | |- deb.Filename ?p = _ /\ _ =>
      pose proof (Parse_result (deb.mkTempFile None None None) "/tmp/control.tar.xz1"
                    (gz_archive "Package: hello
Version: 2.10-3
Architecture: amd64
Filename: /etc/passwd
Size: 1
") p eq_refl) as H
  end.
  split; [exact (proj1 (proj2 (proj2 (proj2 H))))
         | exact (proj1 (proj2 (proj2 (proj2 (proj2 H)))))].
Defined.

(** A name that ends in [.xz] does not end in [.gz]. *)
Lemma HasSuffix_xz (s : string) :
  strings.HasSuffix s ".xz" = true -> strings.HasSuffix s ".gz" = false.
Proof.
  unfold strings.HasSuffix. intros H.
  apply andb_true_iff in H as [Hl He]. apply String.eqb_eq in He.
  change (len ".xz") with 3%nat in *. change (len ".gz") with 3%nat.
  rewrite He. apply andb_false_r.
Qed.

Lemma extractControlFromXz_fails tmp tmpName data :
  exists e, deb.extractControlFromXz tmp tmpName data = Err e.
Proof.
  unfold deb.extractControlFromXz, deb.extractControlWithCmd.
  destruct (deb.t_create tmp), (deb.t_write tmp), (deb.t_close tmp); eauto.
Qed.

(** X8: when the control member of an archive (the first member whose
    name starts with [control.tar]) has a name that ends in [.xz],
    [Parse] returns no package but an error; when no call into the
    operating system fails, the error is ["extract control: xz/zstd
    decompression not implemented - use gzip"]. *)
Theorem Parse_xz_unsupported :
  forall tmp tmpName f before m after,
    f.(deb.f_members) = (map Ok before ++ Ok m :: after)%list ->
    Forall (fun b => is_control b = false) before ->
    is_control m = true ->
    strings.HasSuffix (member_name m) ".xz" = true ->
    (exists e, deb.Parse tmp tmpName f = Err e)
    /\ (io_succeeds tmp f m ->
        deb.Parse tmp tmpName f = Err unsupported_compression).
Proof.
  intros tmp tmpName f before m after Hm Hb Hc Hz.
  assert (Hfind : deb.find_control tmp tmpName f.(deb.f_members)
                  = match m.(deb.m_read) with
                    | Err err => Err (wrapError "extract control"
                                        (wrapError "read xz data" err))
                    | Ok data =>
                        match deb.extractControlFromXz tmp tmpName data with
                        | Err err => Err (wrapError "extract control" err)
                        | Ok d => Ok (Some d)
                        end
                    end).
  { rewrite Hm, find_control_skip by exact Hb. cbn [deb.find_control].
    unfold is_control, member_name in Hc, Hz. rewrite Hc.
    unfold deb.extractControl. rewrite (HasSuffix_xz _ Hz), Hz.
    now destruct (deb.m_read m). }
  split.
  - unfold deb.Parse. rewrite Hfind.
    destruct (deb.f_open f), (deb.f_stat f), (deb.f_copy f), (deb.f_seek f); eauto.
    destruct (deb.m_read m) as [data|err]; eauto.
    destruct (extractControlFromXz_fails tmp tmpName data) as [e ->]. eauto.
  - intros (Ho & Hs & Hcp & Hsk & [data Hr] & Ht1 & Ht2 & Ht3).
    unfold deb.Parse. rewrite Hfind, Ho, Hs, Hcp, Hsk, Hr.
    unfold deb.extractControlFromXz. now rewrite Ht1, Ht2, Ht3.
Qed.

Lemma Parse_xz_unsupported_witness :
  deb.Parse (deb.mkTempFile None None None) "/tmp/control.tar.xz7"
    (deb.mkFile None None None None 4096 "" "" ""
       [Ok (deb.mkMember "debian-binary" (Ok "2.0") (Err (errorString "gzip: invalid header")) []);
        Ok (deb.mkMember "control.tar.xz" (Ok "xz data") (Err (errorString "gzip: invalid header")) []);
        Ok (deb.mkMember "data.tar.xz" (Ok "xz data") (Err (errorString "gzip: invalid header")) [])])
  = Err unsupported_compression.
Proof.
  refine (proj2 (Parse_xz_unsupported
            (deb.mkTempFile None None None) "/tmp/control.tar.xz7"
            (deb.mkFile None None None None 4096 "" "" "" _)
            [deb.mkMember "debian-binary" (Ok "2.0") (Err (errorString "gzip: invalid header")) []]
            (deb.mkMember "control.tar.xz" (Ok "xz data") (Err (errorString "gzip: invalid header")) [])
            [Ok (deb.mkMember "data.tar.xz" (Ok "xz data") (Err (errorString "gzip: invalid header")) [])]
            eq_refl _ eq_refl eq_refl) _).
  - repeat constructor.
  - unfold io_succeeds. simpl. repeat split; eauto.
Defined.

(** ** [Prune]: what it keeps and what it deletes *)

Lemma prune_fn_other packages path info :
  is_archive (path, info) = false ->
  repo.prune_fn packages path info = (packages, None).
Proof.
  unfold is_archive, repo.prune_fn. cbn [fst snd]. intros H.
  destruct (repo.IsDir info); [reflexivity|]. cbn [negb andb orb] in *.
  now rewrite H.
Qed.

Lemma prune_fn_archive packages path parsed :
  strings.HasSuffix path ".deb" = true ->
  repo.prune_fn packages path (repo.RegularFile parsed)
  = match parsed with
    | Ok pkg =>
        (<[group_key pkg := (default [] (packages !! group_key pkg)
                             ++ [repo.mkPackageFile path pkg.(deb.Version)])%list]> packages,
         None)
    | Err err => (packages, Some (wrapError ("parse " ++ path) err))
    end.
Proof.
  intros H. unfold repo.prune_fn. cbn [repo.IsDir orb]. rewrite H. cbn [negb].
  now destruct parsed.
Qed.

Lemma Permutation_concat {A : Type} (l l' : list (list A)) :
  Permutation l l' -> Permutation (concat l) (concat l').
Proof.
  induction 1 as [|x l l' _ IH|x y l|l1 l2 l3 _ IH1 _ IH2]; cbn [concat].
  - reflexivity.
  - now apply Permutation_app_head.
  - rewrite !app_assoc. apply Permutation_app_tail, Permutation_app_comm.
  - now transitivity (concat l2).
Qed.

Lemma all_files_insert (m : gmap string (list repo.packageFile)) k x :
  Permutation (all_files (<[k := (default [] (m !! k) ++ [x])%list]> m))
              (all_files m ++ [x]).
Proof.
  unfold all_files.
  destruct (m !! k) as [g|] eqn:E; cbn [default].
  - rewrite <- (insert_delete_eq m).
    rewrite (Permutation_concat _ _
               (Permutation_map snd (map_to_list_insert (delete k m) k (g ++ [x])%list
                                       (lookup_delete_eq m k)))).
    rewrite <- (Permutation_concat _ _
                  (Permutation_map snd (map_to_list_delete m k g E))).
    cbn [map snd concat]. rewrite <- !app_assoc.
    apply Permutation_app_head, Permutation_app_comm.
  - rewrite (Permutation_concat _ _
               (Permutation_map snd (map_to_list_insert m k ([] ++ [x])%list E))).
    cbn [map snd concat app]. apply (Permutation_cons_append _ x).
Qed.

Lemma deletes_nil fs : deletes [] fs fs.
Proof. intros e. cbn. tauto. Qed.

Lemma deletes_app a b fs fs1 fs2 :
  deletes a fs fs1 -> deletes b fs1 fs2 -> deletes (a ++ b) fs fs2.
Proof.
  intros H1 H2 e. rewrite (H2 e), (H1 e), in_app_iff. tauto.
Qed.

Lemma Remove_deletes fs path fs' :
  repo.Remove fs path = Ok fs' -> deletes [path] fs fs'.
Proof.
  unfold repo.Remove. intros H.
  destruct (repo.Lstat fs path); [|discriminate].
  destruct (_ && _); [discriminate|]. injection H as <-.
  intros e. rewrite filter_In. cbn [In].
  destruct (String.eqb_spec e.1 path) as [->|Hne]; cbn [negb]; intuition congruence.
Qed.

(** The loop over a group, when it ends without an error: the first
    [KeepVersions - i] files are kept, the others listed as deleted and,
    unless [DryRun], removed. *)
Lemma prune_group_Ok opts pkgs : forall i fs res fs' res',
  0 <= i ->
  repo.prune_group opts pkgs i fs res = (fs', Ok res') ->
  let k := Z.to_nat (repo.KeepVersions opts - i) in
  repo.Kept res' = (repo.Kept res ++ map repo.Path (take k pkgs))%list
  /\ repo.Deleted res' = (repo.Deleted res ++ map repo.Path (drop k pkgs))%list
  /\ (if repo.DryRun opts then fs' = fs
      else deletes (map repo.Path (drop k pkgs)) fs fs').
Proof.
  induction pkgs as [|pf rest IH]; intros i fs res fs' res' Hi H;
    cbn [repo.prune_group] in H; cbv zeta.
  - injection H as <- <-. rewrite take_nil, drop_nil. cbn [map].
    rewrite !app_nil_r. split; [reflexivity|]. split; [reflexivity|].
    destruct (repo.DryRun opts); [reflexivity | apply deletes_nil].
  - destruct (Z.ltb_spec i (repo.KeepVersions opts)) as [Hlt|Hge].
    + apply IH in H; [|lia]. cbn [repo.Kept repo.Deleted] in H.
      cbv zeta in H.
      replace (Z.to_nat (repo.KeepVersions opts - i))
        with (S (Z.to_nat (repo.KeepVersions opts - (i + 1)))) by lia.
      cbn [take drop map]. rewrite <- app_assoc in H. exact H.
    + replace (Z.to_nat (repo.KeepVersions opts - i)) with 0%nat by lia.
      cbn [take drop map]. rewrite app_nil_r.
      assert (Hk : Z.to_nat (repo.KeepVersions opts - (i + 1)) = 0%nat) by lia.
      destruct (repo.DryRun opts) eqn:Edry; cbn [negb] in H.
      * apply IH in H; [|lia]. cbn [repo.Kept repo.Deleted] in H.
        rewrite Hk, ?Edry in H. cbn [take drop map] in H.
        rewrite app_nil_r, <- app_assoc in H. exact H.
      * destruct (repo.Remove fs (repo.Path pf)) as [fs1|err] eqn:Erm;
          [|discriminate].
        apply IH in H; [|lia]. cbn [repo.Kept repo.Deleted] in H.
        rewrite Hk, ?Edry in H. cbn [take drop map] in H.
        rewrite app_nil_r, <- app_assoc in H.
        destruct H as (H1 & H2 & H3). split; [exact H1|]. split; [exact H2|].
        apply (deletes_app [repo.Path pf] _ fs fs1 fs'); [|exact H3].
        now apply Remove_deletes.
Qed.

(** The loop over the groups, when it ends without an error. *)
Lemma prune_groups_Ok opts groups : forall fs res fs' res',
  repo.prune_groups opts groups fs res = (fs', Ok res') ->
  let k := Z.to_nat (repo.KeepVersions opts) in
  let kept := concat (map (fun g => map repo.Path (take k (repo.sortPackageFiles g))) groups) in
  let deleted := concat (map (fun g => map repo.Path (drop k (repo.sortPackageFiles g))) groups) in
  repo.Kept res' = (repo.Kept res ++ kept)%list
  /\ repo.Deleted res' = (repo.Deleted res ++ deleted)%list
  /\ (if repo.DryRun opts then fs' = fs else deletes deleted fs fs').
Proof.
  induction groups as [|g groups IH]; intros fs res fs' res' H;
    cbn [repo.prune_groups] in H; cbv zeta.
  - injection H as <- <-. cbn [map concat]. rewrite !app_nil_r.
    split; [reflexivity|]. split; [reflexivity|].
    destruct (repo.DryRun opts); [reflexivity | apply deletes_nil].
  - destruct (repo.prune_group opts (repo.sortPackageFiles g) 0 fs res)
      as [fs1 [res1|err]] eqn:E1; [|discriminate].
    apply prune_group_Ok in E1; [|lia]. cbv zeta in E1.
    rewrite Z.sub_0_r in E1. destruct E1 as (K1 & D1 & F1).
    apply IH in H. cbv zeta in H. destruct H as (K2 & D2 & F2).
    cbn [map concat]. rewrite K2, D2, K1, D1, <- !app_assoc.
    split; [reflexivity|]. split; [reflexivity|].
    destruct (repo.DryRun opts); [congruence|].
    now apply (deletes_app _ _ fs fs1 fs').
Qed.

(** The walk of [Prune], when it ends without an error: every archive it
    visits parses, and the groups hold the archives visited besides what
    they held before. *)
Lemma walk_prune_Ok visits : forall m m',
  repo.walk_visit repo.prune_fn visits m = (m', None) ->
  Permutation (map repo.Path (all_files m'))
              (map repo.Path (all_files m)
               ++ map fst (List.filter is_archive visits))
  /\ (forall path pkg, holds_archive m path pkg -> holds_archive m' path pkg)
  /\ (forall path pkg,
        In (path, repo.RegularFile (Ok pkg)) visits ->
        strings.HasSuffix path ".deb" = true -> holds_archive m' path pkg).
Proof.
  induction visits as [|[path info] visits IH]; intros m m' H;
    cbn [repo.walk_visit] in H.
  - injection H as <-. cbn [List.filter map]. rewrite app_nil_r.
    split; [reflexivity|]. split; [auto | contradiction].
  - cbn [List.filter].
    destruct (is_archive (path, info)) eqn:Ea.
    + unfold is_archive in Ea. cbn [fst snd] in Ea.
      apply andb_true_iff in Ea as [Ed Es].
      destruct info as [|parsed]; [discriminate Ed|].
      rewrite (prune_fn_archive _ _ _ Es) in H.
      destruct parsed as [pkg|err]; [|discriminate H].
      apply IH in H. destruct H as (Hperm & Hmono & Hnew).
      set (m1 := <[group_key pkg := _]> m) in *.
      assert (Hhere : holds_archive m1 path pkg).
      { unfold holds_archive, m1. rewrite lookup_insert_eq.
        eexists. split; [reflexivity|]. apply in_app_iff. right. now left. }
      assert (Hstep : forall p q, holds_archive m p q -> holds_archive m1 p q).
      { intros p q (g & Hg & Hin). unfold holds_archive, m1.
        destruct (decide (group_key q = group_key pkg)) as [E|Hne].
        - rewrite E in *. rewrite lookup_insert_eq, Hg. cbn [default].
          eexists. split; [reflexivity|]. apply in_app_iff. now left.
        - rewrite lookup_insert_ne by congruence. eauto. }
      split; [|split].
      * rewrite Hperm. unfold m1.
        rewrite (Permutation_map repo.Path (all_files_insert m _ _)).
        rewrite map_app. cbn [map repo.Path fst]. now rewrite <- app_assoc.
      * intros p q Hpq. apply Hmono, Hstep, Hpq.
      * intros p q [Heq|Hin] Hs; [|now apply Hnew].
        injection Heq as <- <-. now apply Hmono.
    + rewrite (prune_fn_other _ _ _ Ea) in H. apply IH in H.
      destruct H as (Hperm & Hmono & Hnew).
      split; [exact Hperm|]. split; [exact Hmono|].
      intros p q [Heq|Hin] Hs; [|now apply Hnew].
      injection Heq as -> ->. unfold is_archive in Ea. cbn [fst snd repo.IsDir negb] in Ea.
      rewrite Hs in Ea. discriminate Ea.
Qed.

(** Whatever the walk of [Prune] puts in a group is an archive of the
    tree that parses, with the key of the group. *)
Lemma walk_prune_from tree visits : forall m m' err,
  (forall e, In e visits -> In e tree) ->
  from_archives tree m ->
  repo.walk_visit repo.prune_fn visits m = (m', err) ->
  from_archives tree m'.
Proof.
  induction visits as [|[path info] visits IH]; intros m m' err Hsub Hm H;
    cbn [repo.walk_visit] in H.
  - injection H as <- <-. exact Hm.
  - destruct (is_archive (path, info)) eqn:Ea.
    + unfold is_archive in Ea. cbn [fst snd] in Ea.
      apply andb_true_iff in Ea as [Ed Es].
      destruct info as [|parsed]; [discriminate Ed|].
      rewrite (prune_fn_archive _ _ _ Es) in H.
      destruct parsed as [pkg|e]; [|injection H as <- <-; exact Hm].
      revert H. apply IH; [intros e He; apply Hsub; now right|].
      intros k g pf Hk Hpf.
      destruct (decide (k = group_key pkg)) as [->|Hne].
      * rewrite lookup_insert_eq in Hk. injection Hk as <-.
        apply in_app_iff in Hpf as [Hpf|[<-|[]]].
        -- destruct (m !! group_key pkg) as [g0|] eqn:E0; [|contradiction].
           exact (Hm _ _ _ E0 Hpf).
        -- exists pkg. cbn [repo.Path repo.Version].
           split; [apply Hsub; now left | auto].
      * rewrite lookup_insert_ne in Hk by congruence. exact (Hm _ _ _ Hk Hpf).
    + rewrite (prune_fn_other _ _ _ Ea) in H. revert H.
      apply IH; [intros e He; apply Hsub; now right | exact Hm].
Qed.

Lemma walk_prune_error visits : forall m m' e,
  repo.walk_visit repo.prune_fn visits m = (m', Some e) -> IsNotExist e = false.
Proof.
  induction visits as [|[path info] visits IH]; intros m m' e H;
    cbn [repo.walk_visit] in H; [discriminate|].
  destruct (repo.prune_fn m path info) as [m1 [e1|]] eqn:E1; [|now apply IH in H].
  injection H as <- <-. unfold repo.prune_fn in E1.
  destruct (_ || _); [discriminate|].
  destruct info as [|[pkg|err]]; try discriminate. now injection E1 as <- <-.
Qed.

Lemma kept_deleted_Permutation (k : nat) (groups : list (list repo.packageFile)) :
  Permutation
    (concat (map (fun g => map repo.Path (take k (repo.sortPackageFiles g))) groups)
     ++ concat (map (fun g => map repo.Path (drop k (repo.sortPackageFiles g))) groups))
    (map repo.Path (concat groups)).
Proof.
  induction groups as [|g groups IH]; [reflexivity|].
  cbn [map concat]. rewrite map_app, <- IH.
  rewrite <- (proj1 (sortPackageFiles_sorts g)) at 3.
  rewrite <- (take_drop k (repo.sortPackageFiles g)) at 3.
  rewrite map_app, <- !app_assoc. apply Permutation_app_head.
  rewrite !app_assoc. apply Permutation_app_tail, Permutation_app_comm.
Qed.

(** [Prune], when it returns a result and the pool directory exists: the
    walk has met no error, the lists of the result are made of the groups
    in the order of the iteration, and the tree is the one the deletions
    and the cleaning leave. *)
Lemma Prune_Ok_inv range_order Root fs opts fs' res :
  iteration_order range_order ->
  let poolDir := filepath.Join [Root; "pool"; "main"] in
  repo.Lstat fs poolDir <> None ->
  repo.Prune range_order Root fs opts = (fs', Ok res) ->
  exists packages fs1,
    repo.walk_visit repo.prune_fn
      (List.filter (fun e => repo.under poolDir e.1) fs) ∅ = (packages, None)
    /\ let k := keep_count opts in
       let groups := map snd (range_order packages) in
       repo.Kept res
       = concat (map (fun g => map repo.Path (take k (repo.sortPackageFiles g))) groups)
       /\ repo.Deleted res
          = concat (map (fun g => map repo.Path (drop k (repo.sortPackageFiles g))) groups)
       /\ (if repo.DryRun opts then fs' = fs
           else deletes (repo.Deleted res) fs fs1
                /\ removes (fun e => deb_path e.1) fs fs1
                /\ repo.cleanEmptyDirs fs1 poolDir = (fs', None)).
Proof.
  intros Hord poolDir Hpool H. unfold repo.Prune in H. fold poolDir in H.
  unfold repo.Walk in H.
  destruct (repo.Lstat fs poolDir) as [info|]; [|congruence]. clear Hpool.
  set (visits := List.filter (fun e => repo.under poolDir e.1) fs) in *.
  set (opts' := if repo.KeepVersions opts <? 1
                then repo.mkPruneOptions 5 (repo.DryRun opts) else opts) in H.
  assert (Ed : repo.DryRun opts' = repo.DryRun opts).
  { unfold opts'. now destruct (repo.KeepVersions opts <? 1). }
  assert (Ek : Z.to_nat (repo.KeepVersions opts') = keep_count opts).
  { unfold opts', keep_count. now destruct (repo.KeepVersions opts <? 1). }
  pose proof (walk_visit_archives visits ∅) as Harch.
  destruct (repo.walk_visit repo.prune_fn visits ∅) as [packages err] eqn:Ew.
  cbn [fst] in Harch.
  assert (Hpk : repo.prune_packages range_order poolDir opts' packages fs = (fs', Ok res)).
  { destruct err as [e|]; [|exact H].
    rewrite (walk_prune_error _ _ _ _ Ew) in H. discriminate H. }
  assert (err = None) as ->.
  { destruct err as [e|]; [|reflexivity].
    rewrite (walk_prune_error _ _ _ _ Ew) in H. discriminate H. }
  clear H. unfold repo.prune_packages in Hpk.
  destruct (repo.prune_groups opts' _ fs _) as [fs1 [result|e]] eqn:Eg;
    [|discriminate].
  assert (Hgroups : Forall (Forall (fun pf => deb_path pf.(repo.Path)))
                      (map snd (range_order packages))).
  { apply iteration_order_groups; [exact Hord|]. apply Harch.
    intros k g Hk. rewrite lookup_empty in Hk. discriminate. }
  destruct (prune_groups_removes _ _ _ (repo.mkPruneResult [] []) _ _ Hgroups
              (Forall_nil_2 _) Eg) as (Hrem & _ & _).
  apply prune_groups_Ok in Eg. cbv zeta in Eg. cbn [repo.Kept repo.Deleted app] in Eg.
  rewrite Ek, Ed in Eg. destruct Eg as (Hk & Hd & Hfs).
  rewrite Ed in Hpk.
  exists packages, fs1. split; [reflexivity|]. cbv zeta.
  destruct (repo.DryRun opts); cbn [negb] in Hpk.
  - injection Hpk as <- <-. auto.
  - destruct (repo.cleanEmptyDirs fs1 poolDir) as [fs2 [e|]] eqn:Ec; [discriminate|].
    injection Hpk as <- <-. rewrite <- Hd in Hfs. auto.
Qed.

(** X9: when the pool directory exists and [Prune] returns a result,
    the paths of [Kept] and [Deleted] together are the paths of the
    archives below the pool directory, each as often as the tree has it:
    no archive is left out and nothing else is listed. *)
Theorem Prune_accounts_for_every_archive range_order :
  iteration_order range_order ->
  forall Root fs opts fs' res,
    let poolDir := filepath.Join [Root; "pool"; "main"] in
    repo.Lstat fs poolDir <> None ->
    repo.Prune range_order Root fs opts = (fs', Ok res) ->
    Permutation (res.(repo.Kept) ++ res.(repo.Deleted))
                (map fst (pool_archives poolDir fs)).
Proof.
  intros Hord Root fs opts fs' res poolDir Hpool H.
  destruct (Prune_Ok_inv _ _ _ _ _ _ Hord Hpool H)
    as (packages & fs1 & Hwalk & Hk & Hd & _).
  rewrite Hk, Hd, kept_deleted_Permutation.
  apply walk_prune_Ok in Hwalk as (Hperm & _ & _).
  unfold all_files in Hperm at 2. rewrite map_to_list_empty in Hperm.
  cbn [map concat app] in Hperm. fold poolDir in Hperm.
  unfold pool_archives. rewrite <- Hperm. unfold all_files.
  apply Permutation_map, Permutation_concat, Permutation_map, Hord.
Qed.

Lemma Prune_accounts_for_every_archive_witness :
  Permutation ["repo/pool/main/p/pkg/pkg_2.0_amd64.deb";
               "repo/pool/main/p/pkg/pkg_1.5_amd64.deb";
               "repo/pool/main/p/pkg/pkg_1.0_amd64.deb"]
              (map fst (pool_archives "repo/pool/main" prune_pool)).
Proof.
  exact (Prune_accounts_for_every_archive entries_order iteration_order_entries
           "repo" prune_pool (repo.mkPruneOptions 2 true) prune_pool
           (repo.mkPruneResult ["repo/pool/main/p/pkg/pkg_1.0_amd64.deb"]
              ["repo/pool/main/p/pkg/pkg_2.0_amd64.deb";
               "repo/pool/main/p/pkg/pkg_1.5_amd64.deb"])
           ltac:(vm_compute; discriminate) ltac:(vm_compute; reflexivity)).
Defined.

(** X10: after a run of [Prune] that is no dry run and returns a result,
    a regular file is in the tree if and only if it was there before and
    its path is not listed in [Deleted]. The pool directory exists and
    the tree names each path once. *)
Theorem Prune_deletes_what_it_lists range_order :
  iteration_order range_order ->
  forall Root fs opts fs' res,
    NoDup (map fst fs) ->
    repo.Lstat fs (filepath.Join [Root; "pool"; "main"]) <> None ->
    opts.(repo.DryRun) = false ->
    repo.Prune range_order Root fs opts = (fs', Ok res) ->
    forall path parsed,
      In (path, repo.RegularFile parsed) fs'
      <-> In (path, repo.RegularFile parsed) fs /\ ~ In path res.(repo.Deleted).
Proof.
  intros Hord Root fs opts fs' res Hnd Hpool Hdry H path parsed.
  destruct (Prune_Ok_inv _ _ _ _ _ _ Hord Hpool H)
    as (packages & fs1 & _ & _ & _ & Hfs).
  rewrite Hdry in Hfs. destruct Hfs as (Hdel & Hrem & Hclean).
  apply cleanEmptyDirs_removes in Hclean; [|exact (removes_NoDup _ _ _ Hrem Hnd)].
  rewrite <- (Hdel (path, repo.RegularFile parsed)).
  split.
  - now apply removes_In with (1 := Hclean).
  - intros Hin. apply (removes_kept _ _ _ _ Hclean Hin).
    intros (Hdir & _). discriminate Hdir.
Qed.

Lemma Prune_deletes_what_it_lists_witness :
  In ("repo/pool/main/p/pkg/pkg_2.0_amd64.deb", deb_file "pkg" "2.0" "amd64")
     (repo.Prune entries_order "repo" prune_pool (repo.mkPruneOptions 1 false)).1.
Proof.
  apply (Prune_deletes_what_it_lists entries_order iteration_order_entries
           "repo" prune_pool (repo.mkPruneOptions 1 false) _
           (repo.mkPruneResult ["repo/pool/main/p/pkg/pkg_1.5_amd64.deb";
                                "repo/pool/main/p/pkg/pkg_1.0_amd64.deb"]
                               ["repo/pool/main/p/pkg/pkg_2.0_amd64.deb"])).
  - apply (bool_decide_unpack _). vm_compute. reflexivity.
  - vm_compute. discriminate.
  - reflexivity.
  - vm_compute. reflexivity.
  - split; [cbn; tauto|]. cbn [repo.Deleted In].
    intros [E|[E|[]]]; discriminate E.
Defined.

Lemma NoDup_fst_filter {A B : Type} (f : A * B -> bool) (l : list (A * B)) :
  NoDup (map fst l) -> NoDup (map fst (List.filter f l)).
Proof.
  induction l as [|e l IH]; [trivial|]. cbn [map]. intros Hnd.
  apply NoDup_cons in Hnd as [Hnot Hnd]. cbn [List.filter].
  destruct (f e); [|now apply IH].
  cbn [map]. apply NoDup_cons. split; [|now apply IH].
  intros Hin. apply Hnot. apply list_elem_of_In. apply list_elem_of_In in Hin.
  apply in_map_iff in Hin as (x & Ex & Hx). apply filter_In in Hx as [Hx _].
  apply in_map_iff. eauto.
Qed.

Lemma keep_count_pos opts : (1 <= keep_count opts)%nat.
Proof.
  unfold keep_count. destruct (Z.ltb_spec (repo.KeepVersions opts) 1); lia.
Qed.

(** The first file of a sorted group is kept, and no file of the group
    is newer. *)
Lemma sorted_group_head (k : nat) (g : list repo.packageFile) (pf : repo.packageFile) :
  (1 <= k)%nat -> In pf g ->
  exists h, In h g /\ not_older h pf
            /\ In h.(repo.Path) (map repo.Path (take k (repo.sortPackageFiles g))).
Proof.
  intros Hk Hpf. destruct (sortPackageFiles_sorts g) as [Hperm Hsorted].
  assert (Hin : In pf (repo.sortPackageFiles g)).
  { apply list_elem_of_In. rewrite Hperm. now apply list_elem_of_In. }
  destruct (repo.sortPackageFiles g) as [|h t]; [contradiction|].
  exists h. split; [|split].
  - apply list_elem_of_In. rewrite <- Hperm. now left.
  - destruct Hin as [->|Hin].
    + unfold not_older. now rewrite Compare_refl.
    + apply StronglySorted_inv in Hsorted as [_ Hall].
      rewrite Forall_forall in Hall. apply Hall. now apply list_elem_of_In.
  - destruct k as [|k]; [lia|]. cbn [take map]. now left.
Qed.

(** X11: when [Prune] returns a result, then for every archive of the
    pool that parses, an archive with the same key (name, underscore,
    architecture) and a version that is not older is listed in [Kept] and
    is in the tree afterwards: the newest archive of a group is never
    deleted. The pool directory exists and the tree names each path
    once. *)
Theorem Prune_keeps_newest range_order :
  iteration_order range_order ->
  forall Root fs opts fs' res,
    let poolDir := filepath.Join [Root; "pool"; "main"] in
    NoDup (map fst fs) ->
    repo.Lstat fs poolDir <> None ->
    repo.Prune range_order Root fs opts = (fs', Ok res) ->
    forall path pkg,
      In (path, repo.RegularFile (Ok pkg)) fs ->
      repo.under poolDir path = true ->
      strings.HasSuffix path ".deb" = true ->
      exists path' pkg',
        In (path', repo.RegularFile (Ok pkg')) fs'
        /\ In path' res.(repo.Kept)
        /\ group_key pkg' = group_key pkg
        /\ 0 <= deb.Compare pkg'.(deb.Version) pkg.(deb.Version).
Proof.
  intros Hord Root fs opts fs' res poolDir Hnd Hpool H path pkg Hin Hunder Hdeb.
  destruct (Prune_Ok_inv _ _ _ _ _ _ Hord Hpool H)
    as (packages & fs1 & Hwalk & Hk & Hd & Hfs).
  fold poolDir in Hwalk, Hfs.
  set (visits := List.filter (fun e => repo.under poolDir e.1) fs) in *.
  assert (Hsub : forall e, In e visits -> In e fs).
  { intros e He. now apply filter_In in He. }
  assert (Hfrom : from_archives fs packages).
  { apply (walk_prune_from fs visits ∅ packages None Hsub); [|exact Hwalk].
    intros k g pf Hkg. rewrite lookup_empty in Hkg. discriminate. }
  pose proof (walk_prune_Ok _ _ _ Hwalk) as (Hperm & _ & Hnew).
  destruct (Hnew path pkg) as (g & Hg & Hpf); [|exact Hdeb|].
  { apply filter_In. auto. }
  destruct (sorted_group_head (keep_count opts) g _ (keep_count_pos opts) Hpf)
    as (h & Hh & Hnewer & Hkept).
  destruct (Hfrom _ _ _ Hg Hh) as (pkg' & Hin' & Hkey & Hver).
  assert (Hgroup : In g (map snd (range_order packages))).
  { apply in_map_iff. exists (group_key pkg, g). split; [reflexivity|].
    apply list_elem_of_In. rewrite (Hord packages).
    now apply elem_of_map_to_list. }
  assert (HK : In h.(repo.Path) res.(repo.Kept)).
  { rewrite Hk. apply in_concat. eexists. split; [|exact Hkept].
    apply in_map_iff. eauto. }
  exists h.(repo.Path), pkg'. split; [|split; [exact HK|split; [exact Hkey|]]].
  - destruct (repo.DryRun opts); [now subst fs'|].
    destruct Hfs as (Hdel & Hrem & Hclean).
    apply cleanEmptyDirs_removes in Hclean; [|exact (removes_NoDup _ _ _ Hrem Hnd)].
    apply (removes_kept _ _ _ _ Hclean); [|intros (Hdir & _); discriminate Hdir].
    apply Hdel. split; [exact Hin'|]. cbn [fst]. intros HD.
    assert (Hall : NoDup (res.(repo.Kept) ++ res.(repo.Deleted))).
    { rewrite Hk, Hd, kept_deleted_Permutation.
      unfold all_files in Hperm at 2. rewrite map_to_list_empty in Hperm.
      cbn [map concat app] in Hperm.
      assert (Hgs : Permutation (map repo.Path (concat (map snd (range_order packages))))
                                (map repo.Path (all_files packages))).
      { unfold all_files.
        apply Permutation_map, Permutation_concat, Permutation_map, Hord. }
      rewrite Hgs, Hperm. unfold visits.
      now apply NoDup_fst_filter, NoDup_fst_filter. }
    apply NoDup_app in Hall as (_ & Hdisj & _).
    apply (Hdisj h.(repo.Path)); now apply list_elem_of_In.
  - unfold not_older in Hnewer. cbn [repo.Version] in Hnewer. now rewrite Hver.
Qed.

Lemma Prune_keeps_newest_witness :
  exists path' pkg',
    In (path', repo.RegularFile (Ok pkg'))
       (repo.Prune entries_order "repo" prune_pool (repo.mkPruneOptions 1 false)).1
    /\ In path' ["repo/pool/main/p/pkg/pkg_2.0_amd64.deb"]
    /\ group_key pkg' = "pkg_amd64"
    /\ 0 <= deb.Compare pkg'.(deb.Version) "1.5".
Proof.
  refine (Prune_keeps_newest entries_order iteration_order_entries
            "repo" prune_pool (repo.mkPruneOptions 1 false) _
            (repo.mkPruneResult ["repo/pool/main/p/pkg/pkg_1.5_amd64.deb";
                                 "repo/pool/main/p/pkg/pkg_1.0_amd64.deb"]
                                ["repo/pool/main/p/pkg/pkg_2.0_amd64.deb"])
            _ _ _ "repo/pool/main/p/pkg/pkg_1.5_amd64.deb"
            (deb.set_Architecture "amd64"
               (deb.set_Version "1.5" (deb.set_Name "pkg" deb.emptyPackage))) _ _ _).
  - apply (bool_decide_unpack _). vm_compute. reflexivity.
  - vm_compute. discriminate.
  - vm_compute. reflexivity.
  - vm_compute. tauto.
  - reflexivity.
  - reflexivity.
Defined.

(** The walk of [Prune] stops at the first archive that cannot be parsed:
    the archives before it all parse. *)
Lemma walk_prune_first_Err visits path err : forall m,
  In (path, repo.RegularFile (Err err)) visits ->
  strings.HasSuffix path ".deb" = true ->
  exists m' before path' err' after,
    List.filter is_archive visits
    = (before ++ (path', repo.RegularFile (Err err')) :: after)%list
    /\ Forall (fun e => exists pkg, e.2 = repo.RegularFile (Ok pkg)) before
    /\ repo.walk_visit repo.prune_fn visits m
       = (m', Some (wrapError ("parse " ++ path') err')).
Proof.
  induction visits as [|[p info] visits IH]; intros m Hin Hs; [contradiction|].
  cbn [repo.walk_visit List.filter].
  destruct (is_archive (p, info)) eqn:Ea.
  - unfold is_archive in Ea. cbn [fst snd] in Ea.
    apply andb_true_iff in Ea as [Ed Es].
    destruct info as [|parsed]; [discriminate Ed|].
    rewrite (prune_fn_archive _ _ _ Es).
    destruct parsed as [pkg|e].
    + destruct Hin as [Heq|Hin]; [discriminate Heq|].
      match goal with
      | |- context [repo.walk_visit _ _ ?m1] =>
          destruct (IH m1 Hin Hs) as (m' & before & p' & e' & after & -> & Hbefore & ->)
      end.
      exists m', ((p, repo.RegularFile (Ok pkg)) :: before), p', e', after.
      split; [reflexivity|]. split; [|reflexivity].
      constructor; [now exists pkg | exact Hbefore].
    + exists m, [], p, e, (List.filter is_archive visits).
      split; [reflexivity|]. split; [constructor | reflexivity].
  - rewrite (prune_fn_other _ _ _ Ea).
    destruct Hin as [Heq|Hin].
    + injection Heq as -> ->. unfold is_archive in Ea.
      cbn [fst snd repo.IsDir negb andb] in Ea. congruence.
    + exact (IH m Hin Hs).
Qed.

(** X12: when an archive below the pool directory cannot be parsed,
    [Prune] returns the error of [Parse] for the first such archive of
    the walk, wrapped with the path, and leaves the tree as it is: it
    deletes nothing, whatever the options. That archive is a regular file
    below the pool directory whose path ends in [.deb], and every archive
    that the walk meets before it parses. *)
Theorem Prune_stops_at_unreadable_archive range_order :
  forall Root fs opts path err,
    let poolDir := filepath.Join [Root; "pool"; "main"] in
    repo.Lstat fs poolDir <> None ->
    In (path, repo.RegularFile (Err err)) fs ->
    repo.under poolDir path = true ->
    strings.HasSuffix path ".deb" = true ->
    exists before path' err' after,
      pool_archives poolDir fs
      = (before ++ (path', repo.RegularFile (Err err')) :: after)%list
      /\ Forall (fun e => exists pkg, e.2 = repo.RegularFile (Ok pkg)) before
      /\ In (path', repo.RegularFile (Err err')) fs
      /\ repo.under poolDir path' = true
      /\ strings.HasSuffix path' ".deb" = true
      /\ repo.Prune range_order Root fs opts
         = (fs, Err (wrapError ("parse " ++ path') err')).
Proof.
  intros Root fs opts path err poolDir Hpool Hin Hunder Hdeb.
  unfold repo.Prune. fold poolDir. unfold repo.Walk.
  destruct (repo.Lstat fs poolDir) as [info|]; [|congruence].
  destruct (walk_prune_first_Err (List.filter (fun e => repo.under poolDir e.1) fs)
              path err ∅)
    as (m' & before & path' & err' & after & Hsplit & Hbefore & ->);
    [|exact Hdeb|].
  { apply filter_In. auto. }
  exists before, path', err', after. cbn [IsNotExist negb].
  assert (Hmem : In (path', repo.RegularFile (Err err')) (pool_archives poolDir fs)).
  { unfold pool_archives. rewrite Hsplit. apply in_app_iff. right. now left. }
  unfold pool_archives in Hmem.
  apply filter_In in Hmem as [Hmem Harch]. apply filter_In in Hmem as [Hmem Hund].
  unfold is_archive in Harch. cbn [fst snd repo.IsDir negb andb] in Harch, Hund.
  repeat split; assumption || reflexivity.
Qed.

Lemma Prune_stops_at_unreadable_archive_witness :
  exists before path' err' after,
    pool_archives "repo/pool/main" damaged_pool
    = (before ++ (path', repo.RegularFile (Err err')) :: after)%list
    /\ Forall (fun e => exists pkg, e.2 = repo.RegularFile (Ok pkg)) before
    /\ In (path', repo.RegularFile (Err err')) damaged_pool
    /\ repo.under "repo/pool/main" path' = true
    /\ strings.HasSuffix path' ".deb" = true
    /\ repo.Prune entries_order "repo" damaged_pool (repo.mkPruneOptions 1 false)
       = (damaged_pool, Err (wrapError ("parse " ++ path') err')).
Proof.
  apply (Prune_stops_at_unreadable_archive entries_order "repo" damaged_pool
           (repo.mkPruneOptions 1 false) "repo/pool/main/p/pkg/pkg_1.1_amd64.deb"
           (wrapError "read ar" (errorString "unexpected EOF"))).
  - vm_compute. discriminate.
  - cbn. tauto.
  - reflexivity.
  - reflexivity.
Defined.




(** ** [scanPool]: what the index lists *)

Section ScanFacts.

Variable filepath_Rel : string -> string -> result string.
Variables Root arch : string.

Lemma scan_fn_record packages path info :
  repo.scan_fn filepath_Rel Root arch packages path info
  = match info with
    | repo.RegularFile parsed =>
        if strings.HasSuffix path ".deb" then
          match parsed with
          | Ok pkg =>
              if String.eqb pkg.(deb.Architecture) arch
                 || String.eqb pkg.(deb.Architecture) "all"
              then match filepath_Rel Root path with
                   | Ok relPath => ((packages ++ [deb.set_Filename relPath pkg])%list, None)
                   | Err err => (packages, Some err)
                   end
              else (packages, None)
          | Err err => (packages, Some (wrapError ("parse " ++ path) err))
          end
        else (packages, None)
    | repo.Dir => (packages, None)
    end.
Proof.
  unfold repo.scan_fn. destruct info as [|[pkg|err]]; cbn [repo.IsDir];
    try reflexivity; destruct (strings.HasSuffix path ".deb"); cbn [negb];
    try reflexivity.
  destruct (String.eqb (deb.Architecture pkg) arch),
    (String.eqb (deb.Architecture pkg) "all"); reflexivity.
Qed.

(** The walk of [scanPool], when it ends without an error, has added the
    record of each entry it visited, in the order of the walk. *)
Lemma walk_scan_Ok visits : forall packages packages',
  repo.walk_visit (repo.scan_fn filepath_Rel Root arch) visits packages
  = (packages', None) ->
  packages' = (packages ++ flat_map (index_record filepath_Rel Root arch) visits)%list.
Proof.
  induction visits as [|[path info] visits IH]; intros packages packages' H;
    cbn [repo.walk_visit] in H.
  - injection H as <-. cbn [flat_map]. now rewrite app_nil_r.
  - rewrite scan_fn_record in H. cbn [flat_map].
    unfold index_record at 1, is_archive. cbn [fst snd].
    destruct info as [|parsed]; cbn [repo.IsDir negb andb].
    + now apply IH in H.
    + destruct (strings.HasSuffix path ".deb"); [|now apply IH in H].
      destruct parsed as [pkg|err]; [|discriminate H].
      destruct (_ || _); [|now apply IH in H].
      destruct (filepath_Rel Root path) as [relPath|err]; [|discriminate H].
      apply IH in H. now rewrite <- app_assoc in H.
Qed.

Lemma walk_scan_error visits : forall packages packages' e,
  Rel_errors filepath_Rel ->
  repo.walk_visit (repo.scan_fn filepath_Rel Root arch) visits packages
  = (packages', Some e) ->
  IsNotExist e = false.
Proof.
  induction visits as [|[path info] visits IH]; intros packages packages' e Hrel H;
    cbn [repo.walk_visit] in H; [discriminate|].
  rewrite scan_fn_record in H.
  destruct info as [|parsed]; [now apply IH in H|].
  destruct (strings.HasSuffix path ".deb"); [|now apply IH in H].
  destruct parsed as [pkg|err]; [|now injection H as <- <-].
  destruct (_ || _); [|now apply IH in H].
  destruct (filepath_Rel Root path) as [relPath|err] eqn:Er; [now apply IH in H|].
  injection H as <- <-. exact (Hrel _ _ _ Er).
Qed.

Lemma walk_scan_Err visits path err : forall packages,
  In (path, repo.RegularFile (Err err)) visits ->
  strings.HasSuffix path ".deb" = true ->
  exists packages' e,
    repo.walk_visit (repo.scan_fn filepath_Rel Root arch) visits packages
    = (packages', Some e).
Proof.
  induction visits as [|[p info] visits IH]; intros packages Hin Hs; [contradiction|].
  cbn [repo.walk_visit].
  destruct (repo.scan_fn filepath_Rel Root arch packages p info)
    as [packages1 [e|]] eqn:E1; [eauto|].
  destruct Hin as [Heq|Hin]; [|now apply IH].
  injection Heq as -> ->. rewrite scan_fn_record, Hs in E1. discriminate E1.
Qed.

End ScanFacts.

(** X14: when the pool directory exists and [scanPool] returns a list
    for the architecture [arch], the list holds, once each and in some
    order, the records of the archives below the pool directory that
    have the architecture [arch] or [all], each with [Filename] set to
    its path relative to the root: no such archive is left out of the
    index. [sort.Slice] is taken by its contract, and the errors of
    [filepath.Rel] are not of the kind [os.IsNotExist]. *)
Theorem scanPool_lists_every_archive :
  forall sort_Slice filepath_Rel,
    repo.sort_contract sort_Slice -> Rel_errors filepath_Rel ->
    forall Root fs poolDir arch packages,
      repo.Lstat fs poolDir <> None ->
      repo.scanPool sort_Slice filepath_Rel Root fs poolDir arch = Ok packages ->
      Permutation packages
        (flat_map (index_record filepath_Rel Root arch)
                  (List.filter (fun e => repo.under poolDir e.1) fs)).
Proof.
  intros sort_Slice filepath_Rel Hsort Hrel Root fs poolDir arch packages Hpool H.
  unfold repo.scanPool, repo.Walk in H.
  destruct (repo.Lstat fs poolDir) as [info|]; [|congruence].
  destruct (repo.walk_visit _ _ []) as [walked [e|]] eqn:Ew.
  - rewrite (walk_scan_error _ _ _ _ _ _ _ Hrel Ew) in H. discriminate H.
  - injection H as <-. apply walk_scan_Ok in Ew. cbn [app] in Ew. subst walked.
    apply (Hsort repo.less _ less_transitive_ordering).
Qed.

Lemma rel_below_errors : Rel_errors rel_below.
Proof.
  intros base targ e. unfold rel_below.
  destruct (String.eqb targ base); [discriminate|].
  destruct (_ && _); [discriminate|]. now intros [= <-].
Qed.

Lemma scanPool_lists_every_archive_witness :
  Permutation
    [deb.set_Filename "pool/main/z/app/app_0.1_all.deb"
       (deb.set_Architecture "all"
          (deb.set_Version "0.1" (deb.set_Name "app" deb.emptyPackage)));
     deb.set_Filename "pool/main/p/pkg/pkg_2.0_arm64.deb"
       (deb.set_Architecture "arm64"
          (deb.set_Version "2.0" (deb.set_Name "pkg" deb.emptyPackage)))]
    (flat_map (index_record rel_below "repo" "arm64")
              (List.filter (fun e => repo.under "repo/pool/main" e.1) index_pool)).
Proof.
  apply (scanPool_lists_every_archive repo.insertionSort rel_below
           insertionSort_contract rel_below_errors "repo" index_pool
           "repo/pool/main" "arm64").
  - vm_compute. discriminate.
  - vm_compute. reflexivity.
Defined.

(** X15: when an archive below the pool directory cannot be parsed,
    [scanPool] returns an error, for any architecture: one damaged
    archive stops the indexing of all of them. *)
Theorem scanPool_stops_at_unreadable_archive :
  forall sort_Slice filepath_Rel,
    Rel_errors filepath_Rel ->
    forall Root fs poolDir arch path err,
      repo.Lstat fs poolDir <> None ->
      In (path, repo.RegularFile (Err err)) fs ->
      repo.under poolDir path = true ->
      strings.HasSuffix path ".deb" = true ->
      exists e, repo.scanPool sort_Slice filepath_Rel Root fs poolDir arch = Err e.
Proof.
  intros sort_Slice filepath_Rel Hrel Root fs poolDir arch path err Hpool Hin Hu Hs.
  unfold repo.scanPool, repo.Walk.
  destruct (repo.Lstat fs poolDir) as [info|]; [|congruence].
  destruct (walk_scan_Err filepath_Rel Root arch
              (List.filter (fun e => repo.under poolDir e.1) fs) path err [])
    as (walked & e & Ew); [|exact Hs|].
  { apply filter_In. auto. }
  rewrite Ew, (walk_scan_error _ _ _ _ _ _ _ Hrel Ew). cbn [negb]. eauto.
Qed.

Lemma scanPool_stops_at_unreadable_archive_witness :
  exists e, repo.scanPool repo.insertionSort rel_below "repo" damaged_pool
              "repo/pool/main" "arm64" = Err e.
Proof.
  apply (scanPool_stops_at_unreadable_archive repo.insertionSort rel_below
           rel_below_errors "repo" damaged_pool "repo/pool/main" "arm64"
           "repo/pool/main/p/pkg/pkg_1.1_amd64.deb"
           (wrapError "read ar" (errorString "unexpected EOF"))).
  - vm_compute. discriminate.
  - cbn. tauto.
  - reflexivity.
  - reflexivity.
Defined.



(** ** [cleanEmptyDirs]: one pass over the directories *)

Lemma HasPrefix_longer (s t : string) :
  (len s < len t)%nat -> strings.HasPrefix s t = false.
Proof.
  intros H. unfold strings.HasPrefix.
  destruct (Nat.leb_spec (len t) (len s)); [lia | reflexivity].
Qed.

Lemma entry_of_self (d : string) : repo.entry_of d d = false.
Proof.
  unfold repo.entry_of. rewrite HasPrefix_longer; [reflexivity|].
  rewrite len_append. change (len "/") with 1%nat. lia.
Qed.

Lemma length_filter_forallb {A : Type} (g : A -> bool) (l : list A) :
  (length (List.filter g l) =? 0)%nat = forallb (fun x => negb (g x)) l.
Proof.
  induction l as [|x l IH]; [reflexivity|]. cbn [List.filter forallb].
  destruct (g x); [reflexivity | exact IH].
Qed.

Lemma forallb_filter_nil {A : Type} (g : A -> bool) (l : list A) :
  forallb (fun x => negb (g x)) l = true -> List.filter g l = [].
Proof.
  induction l as [|x l IH]; [reflexivity|]. cbn [List.filter forallb].
  destruct (g x); [discriminate | exact IH].
Qed.

Lemma forallb_incl {A : Type} (f : A -> bool) (l l' : list A) :
  (forall x, In x l' -> In x l) -> forallb f l = true -> forallb f l' = true.
Proof.
  intros Hsub H. apply forallb_forall. intros x Hx.
  rewrite forallb_forall in H. auto.
Qed.

Lemma NoDup_fst_filter_app {A B : Type} (f : A * B -> bool) (pre suf : list (A * B)) :
  NoDup (map fst (pre ++ suf)) -> NoDup (map fst (List.filter f pre ++ suf)).
Proof.
  induction pre as [|e pre IH]; [trivial|]. cbn [app map]. intros Hnd.
  apply NoDup_cons in Hnd as [Hnot Hnd]. cbn [List.filter].
  destruct (f e); [|now apply IH].
  cbn [app map]. apply NoDup_cons. split; [|now apply IH].
  intros Hin. apply Hnot. apply list_elem_of_In. apply list_elem_of_In in Hin.
  rewrite map_app, in_app_iff in *. destruct Hin as [Hin|Hin]; [left|now right].
  apply in_map_iff in Hin as (x & Ex & Hx). apply filter_In in Hx as [Hx _].
  apply in_map_iff. eauto.
Qed.

(** With every path named once, removing the entries at the path of [e]
    removes [e] and nothing else. *)
Lemma filter_out_entry (kept suf : repo.FS) (e : string * repo.node) :
  NoDup (map fst (kept ++ e :: suf)) ->
  List.filter (fun x => negb (String.eqb x.1 e.1)) (kept ++ e :: suf) = (kept ++ suf)%list.
Proof.
  intros Hnd.
  assert (Hother : forall l : repo.FS, (forall x, In x l -> x.1 <> e.1) ->
            List.filter (fun x => negb (String.eqb x.1 e.1)) l = l).
  { induction l as [|x l IH]; intros Hl; [reflexivity|]. cbn [List.filter].
    destruct (String.eqb_spec x.1 e.1) as [E|_].
    - exfalso. apply (Hl x); [now left | exact E].
    - cbn [negb]. rewrite IH; [reflexivity|]. intros y Hy. apply Hl. now right. }
  rewrite map_app in Hnd. cbn [map] in Hnd.
  apply NoDup_app in Hnd as (_ & Hdisj & Hnd2).
  apply NoDup_cons in Hnd2 as [Hnot _].
  rewrite List.filter_app. cbn [List.filter]. rewrite String.eqb_refl. cbn [negb].
  rewrite !Hother; [reflexivity| |].
  - intros x Hx E. apply Hnot. apply list_elem_of_In. rewrite <- E. now apply in_map.
  - intros x Hx E. apply (Hdisj x.1).
    + apply list_elem_of_In. now apply in_map.
    + rewrite E. now left.
Qed.

(** The walk of [cleanEmptyDirs], from the entry where the tree [fs0]
    splits into [pre] and [suf]: the directories of [pre] that were empty
    in [fs0] are gone, and those of [suf] go the same way. *)
Lemma clean_walk_exact (root : string) (fs0 : repo.FS) :
  NoDup (map fst fs0) ->
  forall suf pre seen,
    fs0 = (pre ++ suf)%list ->
    (forall p, In p (map fst pre) -> In p seen) ->
    parents_first_from seen suf = true ->
    repo.walk_visit (repo.clean_fn root)
      (List.filter (fun e => repo.under root e.1) suf)
      (List.filter (fun e => negb (empty_dir root fs0 e)) pre ++ suf)%list
    = (List.filter (fun e => negb (empty_dir root fs0 e)) fs0, None).
Proof.
  intros Hnd. set (keep := fun e => negb (empty_dir root fs0 e)).
  induction suf as [|e suf IH]; intros pre seen Hfs Hseen Hpf.
  - cbn [List.filter repo.walk_visit]. rewrite Hfs, !app_nil_r. reflexivity.
  - cbn [parents_first_from] in Hpf. apply andb_true_iff in Hpf as [Hbefore Hpf].
    assert (Hnext : forall fs1,
      fs1 = (List.filter keep (pre ++ [e]) ++ suf)%list ->
      repo.walk_visit (repo.clean_fn root)
        (List.filter (fun e => repo.under root e.1) suf) fs1
      = (List.filter keep fs0, None)).
    { intros fs1 ->. apply (IH (pre ++ [e])%list (e.1 :: seen)).
      - rewrite Hfs, <- app_assoc. reflexivity.
      - intros p Hp. rewrite map_app, in_app_iff in Hp. cbn [map In] in *.
        destruct Hp as [Hp|[Hp|[]]]; auto.
      - exact Hpf. }
    assert (Hkeep : keep e = true ->
              (List.filter keep pre ++ e :: suf)%list
              = (List.filter keep (pre ++ [e]) ++ suf)%list).
    { intros Hk. rewrite List.filter_app. cbn [List.filter]. rewrite Hk.
      now rewrite <- app_assoc. }
    cbn [List.filter].
    destruct (repo.under root e.1) eqn:Eu.
    2:{ apply Hnext, Hkeep. unfold keep, empty_dir. rewrite Eu.
        now rewrite andb_false_r. }
    cbn [repo.walk_visit].
    destruct e as [path info]. cbn [fst snd] in *.
    set (cur := (List.filter keep pre ++ (path, info) :: suf)%list).
    assert (Hcur : NoDup (map fst cur)).
    { unfold cur. apply NoDup_fst_filter_app. now rewrite <- Hfs. }
    unfold repo.clean_fn.
    destruct info as [|parsed]; cbn [repo.IsDir negb].
    2:{ apply Hnext, Hkeep. reflexivity. }
    assert (Hl : repo.Lstat cur path = Some repo.Dir).
    { apply Lstat_In; [exact Hcur|]. unfold cur. apply in_app_iff. right. now left. }
    unfold repo.ReadDir. rewrite Hl.
    (* the entries of the directory, now and at the start *)
    assert (Hpre : forallb (fun p => negb (repo.entry_of path p)) (map fst pre) = true).
    { apply (forallb_incl _ seen); assumption. }
    assert (Hnow : forallb (fun p => negb (repo.entry_of path p)) (map fst cur)
                   = forallb (fun p => negb (repo.entry_of path p)) (map fst suf)).
    { unfold cur. rewrite map_app, forallb_app. cbn [map forallb fst].
      rewrite entry_of_self. cbn [negb andb].
      rewrite (forallb_incl _ (map fst pre) (map fst (List.filter keep pre)));
        [reflexivity| |exact Hpre].
      intros x Hx. apply in_map_iff in Hx as (y & <- & Hy).
      apply filter_In in Hy as [Hy _]. now apply in_map. }
    assert (Hthen : forallb (fun p => negb (repo.entry_of path p)) (map fst fs0)
                    = forallb (fun p => negb (repo.entry_of path p)) (map fst suf)).
    { rewrite Hfs, map_app, forallb_app. cbn [map forallb fst].
      now rewrite Hpre, entry_of_self. }
    rewrite length_filter_forallb, Hnow.
    assert (Hempty : empty_dir root fs0 (path, repo.Dir)
                     = forallb (fun p => negb (repo.entry_of path p)) (map fst suf)
                       && negb (String.eqb path root)).
    { unfold empty_dir. cbn [fst snd repo.IsDir]. rewrite Eu, Hthen.
      cbn [andb]. rewrite andb_true_r. apply andb_comm. }
    destruct (forallb _ (map fst suf) && negb (String.eqb path root)) eqn:Etest.
    + (* the directory is empty: it is removed *)
      unfold repo.Remove. rewrite Hl. cbn [repo.IsDir andb]. rewrite Hnow.
      apply andb_true_iff in Etest as [-> _]. cbn [negb].
      assert (Hk : keep (path, repo.Dir) = false)
        by (unfold keep; now rewrite Hempty).
      apply Hnext. unfold cur.
      rewrite (filter_out_entry _ _ (path, repo.Dir)) by exact Hcur.
      rewrite List.filter_app. cbn [List.filter]. rewrite Hk.
      now rewrite app_nil_r.
    + apply Hnext, Hkeep. unfold keep. now rewrite Hempty.
Qed.

(** X17: when its root exists, [cleanEmptyDirs] returns no error and
    removes exactly the directories strictly below the root that have no
    entry when it starts: a directory whose entries are all removed by
    this pass is left behind, empty. The tree names each path once and
    lists a directory before its entries. *)
Theorem cleanEmptyDirs_one_pass (fs : repo.FS) (root : string) :
  NoDup (map fst fs) -> parents_first fs = true ->
  repo.Lstat fs root <> None ->
  repo.cleanEmptyDirs fs root
  = (List.filter (fun e => negb (empty_dir root fs e)) fs, None).
Proof.
  intros Hnd Hpf Hroot. unfold repo.cleanEmptyDirs, repo.Walk.
  destruct (repo.Lstat fs root); [|congruence].
  apply (clean_walk_exact root fs Hnd fs [] []); [reflexivity| |exact Hpf].
  intros p [].
Qed.

Lemma cleanEmptyDirs_one_pass_witness :
  repo.cleanEmptyDirs hollow_pool "repo/pool/main"
  = ([("repo", repo.Dir);
      ("repo/pool", repo.Dir);
      ("repo/pool/main", repo.Dir);
      ("repo/pool/main/README", repo.RegularFile (Err (errorString "read ar")));
      ("repo/pool/main/p", repo.Dir)], None).
Proof.
  rewrite (cleanEmptyDirs_one_pass hollow_pool "repo/pool/main").
  - reflexivity.
  - apply (bool_decide_unpack _). vm_compute. reflexivity.
  - reflexivity.
  - vm_compute. discriminate.
Defined.

(** ** [parseControl]: lines the scanner drops, and fields it does not know *)

Lemma Scan_loop_any_line (fuel : nat) (line rest : string) :
  scanner_line line = true ->
  bufio.Scan_loop (S fuel) (line ++ String "010" rest)
  = bufio.dropCR line :: bufio.Scan_loop fuel rest.
Proof.
  unfold scanner_line. intros H. apply andb_true_iff in H as [Hnl Hlen].
  apply Z.ltb_lt in Hlen.
  destruct line as [|c line]; [reflexivity|].
  apply Scan_loop_line; [discriminate | exact Hnl | exact Hlen].
Qed.

Lemma Scan_loop_text (lines : list string) (rest : string) (fuel : nat) :
  Forall (fun l => scanner_line l = true) lines ->
  bufio.Scan_loop (length lines + fuel) (text_of_lines lines ++ rest)
  = (map bufio.dropCR lines ++ bufio.Scan_loop fuel rest)%list.
Proof.
  induction 1 as [|l lines Hl _ IH]; [reflexivity|].
  cbn [length Nat.add text_of_lines map app]. rewrite append_assoc.
  change (String "010" (text_of_lines lines) ++ rest)
    with (String "010" (text_of_lines lines ++ rest)).
  rewrite Scan_loop_any_line by exact Hl. now rewrite IH.
Qed.

Lemma Scan_loop_too_long (fuel : nat) (data : string) :
  too_long data = true -> bufio.Scan_loop fuel data = [].
Proof.
  unfold too_long. intros H. destruct fuel as [|fuel]; [reflexivity|].
  cbn [bufio.Scan_loop]. destruct (is_empty data); [reflexivity|].
  destruct (strings.IndexByte data "010") as [i|]; apply Z.leb_le in H.
  - destruct (Z.ltb_spec (Z.of_nat i) bufio.MaxScanTokenSize); [lia | reflexivity].
  - destruct (Z.ltb_spec (Z.of_nat (len data)) bufio.MaxScanTokenSize);
      [lia | reflexivity].
Qed.

(** The lines the scanner gives for a text of lines, and for such a text
    followed by a line that does not fit its buffer. *)
Lemma ScanLines_lines (lines : list string) (tail : string) :
  Forall (fun l => scanner_line l = true) lines ->
  tail = "" \/ too_long tail = true ->
  bufio.ScanLines (text_of_lines lines ++ tail) = map bufio.dropCR lines.
Proof.
  intros H Htail. unfold bufio.ScanLines.
  pose proof (length_le_len_text lines) as Hl.
  rewrite len_append.
  replace (len (text_of_lines lines) + len tail)%nat
    with (length lines + (len (text_of_lines lines) - length lines + len tail))%nat
    by lia.
  rewrite Scan_loop_text by exact H.
  destruct Htail as [->|Hlong].
  - destruct (_ + _)%nat; cbn; apply app_nil_r.
  - rewrite Scan_loop_too_long by exact Hlong. apply app_nil_r.
Qed.

Lemma ScanLines_any_text (lines : list string) :
  Forall (fun l => scanner_line l = true) lines ->
  bufio.ScanLines (text_of_lines lines) = map bufio.dropCR lines.
Proof.
  intros H. pose proof (ScanLines_lines lines "" H (or_introl eq_refl)) as E.
  now rewrite append_nil_r in E.
Qed.

Lemma dropCR_plain (l : string) : plain_line l = true -> bufio.dropCR l = l.
Proof.
  unfold plain_line, bufio.dropCR. intros H. apply andb_true_iff in H as [_ H].
  apply negb_true_iff in H. now rewrite H.
Qed.

Lemma map_dropCR_plain (lines : list string) :
  Forall (fun l => plain_line l = true) lines -> map bufio.dropCR lines = lines.
Proof.
  induction 1 as [|l lines Hl _ IH]; [reflexivity|].
  cbn [map]. now rewrite dropCR_plain, IH.
Qed.

Lemma plain_scanner_lines (lines : list string) :
  Forall (fun l => plain_line l = true) lines ->
  Forall (fun l => scanner_line l = true) lines.
Proof.
  intros Hall. eapply Forall_impl; [exact Hall|]. intros l H.
  unfold plain_line in H. now apply andb_true_iff in H as [H _].
Qed.

(** X18: a line of 64 KiB or more ends the parsing without an error:
    [parseControl] reads the lines in front of it and drops that line
    and all that follows, since the error of the scanner is not looked
    at. The lines in front hold no newline and fit the buffer. *)
Theorem parseControl_long_line (lines : list string) (tail : string) :
  Forall (fun l => scanner_line l = true) lines ->
  too_long tail = true ->
  deb.parseControl (text_of_lines lines ++ tail)
  = deb.parseControl (text_of_lines lines).
Proof.
  intros Hlines Htail. unfold deb.parseControl.
  rewrite (ScanLines_lines lines tail Hlines (or_intror Htail)).
  now rewrite (ScanLines_any_text lines Hlines).
Qed.

Lemma parseControl_long_line_witness :
  deb.parseControl
    (text_of_lines ["Package: hello"; "Version: 2.10-3"; "Architecture: amd64"]
     ++ "Description: " ++ repeat_byte "x" (Z.to_nat 65536)
     ++ String "010" ("Maintainer: nobody" ++ String "010" ""))
  = deb.parseControl
      (text_of_lines ["Package: hello"; "Version: 2.10-3"; "Architecture: amd64"]).
Proof.
  apply (parseControl_long_line
           ["Package: hello"; "Version: 2.10-3"; "Architecture: amd64"]).
  - repeat constructor.
  - vm_compute. reflexivity.
Defined.

Lemma dropCR_with_CR (l : string) : bufio.dropCR (with_CR l) = l.
Proof.
  unfold bufio.dropCR, with_CR.
  rewrite HasSuffix_append by (cbn; lia).
  change (strings.HasSuffix (String "013" "") (String "013" "")) with true.
  cbv iota. rewrite len_append. change (len (String "013" "")) with 1%nat.
  replace (len l + 1 - 1)%nat with (len l) by lia. apply slice_to_append.
Qed.

(** X19: [parseControl] reads a control text whose lines end in a
    carriage return and a newline as it reads the text with newlines
    alone. The lines hold no newline, do not end in a carriage return
    themselves, and fit the buffer of the scanner with the carriage
    return. *)
Theorem parseControl_CRLF (lines : list string) :
  Forall (fun l => plain_line l = true /\ scanner_line (with_CR l) = true) lines ->
  deb.parseControl (text_of_lines (map with_CR lines))
  = deb.parseControl (text_of_lines lines).
Proof.
  intros H. unfold deb.parseControl.
  assert (Hcr : Forall (fun l => scanner_line l = true) (map with_CR lines)).
  { apply Forall_forall. intros l Hl. apply list_elem_of_In, in_map_iff in Hl
      as (l0 & <- & Hl0). rewrite Forall_forall in H.
    now apply (H l0), list_elem_of_In. }
  assert (Hlf : Forall (fun l => plain_line l = true) lines).
  { eapply Forall_impl; [exact H|]. now intros l [Hl _]. }
  rewrite (ScanLines_any_text _ Hcr).
  rewrite (ScanLines_any_text _ (plain_scanner_lines _ Hlf)).
  rewrite map_map, (map_dropCR_plain _ Hlf).
  rewrite (map_ext _ (fun l => l) dropCR_with_CR), map_id. reflexivity.
Qed.

Lemma parseControl_CRLF_witness :
  deb.parseControl
    (text_of_lines (map with_CR ["Package: hello"; "Version: 2.10-3";
                                 "Architecture: amd64"; "Description: a greeting";
                                 " that goes on"]))
  = deb.parseControl
      (text_of_lines ["Package: hello"; "Version: 2.10-3";
                      "Architecture: amd64"; "Description: a greeting";
                      " that goes on"]).
Proof.
  apply parseControl_CRLF. repeat constructor.
Defined.

Lemma saveField_unknown (pkg : deb.Package) (n v : string) :
  known_field n = false -> deb.saveField (deb.mkState pkg n v) = pkg.
Proof.
  unfold known_field, known_fields. cbn [existsb]. intros H.
  repeat (apply orb_false_iff in H as [?E H]).
  unfold deb.saveField. cbn [deb.st_pkg deb.currentField deb.currentValue].
  destruct (is_empty n); [reflexivity|].
  repeat match goal with
         | E : String.eqb n _ = false |- _ => rewrite E; clear E
         end.
  reflexivity.
Qed.

Lemma scan_line_header (st : deb.scan_state) (n x : string) :
  header_name n = true ->
  exists v, deb.scan_line st (n ++ ":" ++ x) = deb.mkState (deb.saveField st) n v.
Proof.
  unfold header_name. intros H. apply andb_true_iff in H as [H Hc].
  apply andb_true_iff in H as [Hne Hn].
  apply negb_true_iff in Hne, Hc.
  unfold deb.scan_line.
  assert (Hcont : deb.is_continuation (n ++ ":" ++ x) = false).
  { destruct n; [discriminate Hne | exact Hc]. }
  rewrite Hcont. change (":" ++ x) with (String ":" x).
  rewrite (IndexByte_append n x ":" Hn).
  destruct (len n) as [|k] eqn:Ek.
  { apply len_zero in Ek. subst n. discriminate Hne. }
  rewrite <- Ek, slice_to_append. eauto.
Qed.

Lemma foldl_continuations (conts : list string) : forall pkg f v,
  Forall (fun l => deb.is_continuation l = true) conts ->
  exists v', foldl deb.scan_line (deb.mkState pkg f v) conts = deb.mkState pkg f v'.
Proof.
  induction conts as [|l conts IH]; intros pkg f v H; [eauto|].
  apply Forall_cons in H as [Hl H]. cbn [foldl]. unfold deb.scan_line at 2.
  rewrite Hl. cbn [deb.st_pkg deb.currentField deb.currentValue].
  now apply IH.
Qed.

(** A line that starts a field makes the same state of what states hold
    the same record once their field is saved. *)
Lemma scan_line_starts (st st' : deb.scan_state) (l : string) :
  starts_field l = true -> deb.saveField st = deb.saveField st' ->
  deb.scan_line st l = deb.scan_line st' l.
Proof.
  unfold starts_field, deb.scan_line. intros H E.
  apply andb_true_iff in H as [Hc Hi]. apply negb_true_iff in Hc. rewrite Hc.
  destruct (strings.IndexByte l ":") as [[|idx]|]; try discriminate.
  now rewrite E.
Qed.

(** X20: a field [parseControl] has no case for is passed over, with
    its continuation lines, wherever it stands: the text without these
    lines gives the same result. The field is followed by a line that
    starts a field, or by nothing; the lines hold no newline, do not end
    in a carriage return and fit the buffer of the scanner. *)
Theorem parseControl_unknown_field (pre : list string) (n x : string)
    (conts post : list string) :
  Forall (fun l => plain_line l = true) (pre ++ (n ++ ":" ++ x) :: conts ++ post) ->
  header_name n = true -> known_field n = false ->
  Forall (fun l => deb.is_continuation l = true) conts ->
  match post with
  | [] => True
  | l :: _ => starts_field l = true
  end ->
  deb.parseControl (text_of_lines (pre ++ (n ++ ":" ++ x) :: conts ++ post))
  = deb.parseControl (text_of_lines (pre ++ post)).
Proof.
  intros Hall Hn Hk Hconts Hpost.
  assert (Hless : Forall (fun l => plain_line l = true) (pre ++ post)).
  { apply Forall_app in Hall as [Hpre Hrest]. apply Forall_cons in Hrest as [_ Hrest].
    apply Forall_app in Hrest as [_ Hrest]. now apply Forall_app_2. }
  unfold deb.parseControl.
  rewrite (ScanLines_any_text _ (plain_scanner_lines _ Hall)), (map_dropCR_plain _ Hall).
  rewrite (ScanLines_any_text _ (plain_scanner_lines _ Hless)), (map_dropCR_plain _ Hless).
  rewrite !foldl_app. cbn [foldl]. rewrite foldl_app.
  set (st1 := foldl deb.scan_line (deb.mkState deb.emptyPackage "" "") pre).
  destruct (scan_line_header st1 n x Hn) as [v ->].
  destruct (foldl_continuations conts (deb.saveField st1) n v Hconts) as [v' ->].
  assert (Hsame : deb.saveField (deb.mkState (deb.saveField st1) n v')
                  = deb.saveField st1) by now apply saveField_unknown.
  destruct post as [|l post]; cbn [foldl].
  - now rewrite Hsame.
  - now rewrite (scan_line_starts _ st1 l Hpost Hsame).
Qed.

Lemma parseControl_unknown_field_witness :
  deb.parseControl
    (text_of_lines ["Package: hello"; "Version: 2.10-3";
                    "Original-Maintainer: somebody"; " with an address";
                    "Architecture: amd64"])
  = deb.parseControl
      (text_of_lines ["Package: hello"; "Version: 2.10-3"; "Architecture: amd64"]).
Proof.
  apply (parseControl_unknown_field ["Package: hello"; "Version: 2.10-3"]
           "Original-Maintainer" " somebody" [" with an address"]
           ["Architecture: amd64"]).
  - repeat constructor.
  - reflexivity.
  - reflexivity.
  - repeat constructor.
  - reflexivity.
Defined.

(** ** [formatSize]: rounding at the unit boundaries *)

Lemma round_half_even_near (n d : Z) :
  0 < d -> 2 * Z.abs (n - fmt.round_half_even n d * d) <= d.
Proof.
  intros Hd. unfold fmt.round_half_even.
  pose proof (Z.div_mod n d ltac:(lia)) as Hdm.
  pose proof (Z.mod_pos_bound n d Hd) as Hr.
  destruct (Z.ltb_spec (2 * (n mod d)) d); [nia|].
  destruct (Z.ltb_spec d (2 * (n mod d))); [nia|].
  destruct (Z.even (n / d)); nia.
Qed.

Lemma round_half_even_mono_bounds (n d lo hi : Z) :
  0 < d -> lo * d <= n <= hi * d -> lo <= fmt.round_half_even n d <= hi.
Proof.
  intros Hd Hn. pose proof (round_half_even_near n d Hd) as Hnear.
  set (t := fmt.round_half_even n d) in *. nia.
Qed.

Lemma float64_of_int_exact (n : Z) : 0 < n < 2 ^ 53 -> fmt.float64_of_int n = n.
Proof.
  intros Hn. unfold fmt.float64_of_int.
  assert (Z.log2 n < 53) by (apply Z.log2_lt_pow2; lia).
  destruct (Z.leb_spec (Z.log2 n - 52) 0); [reflexivity | lia].
Qed.

Lemma formatSize_KB (size : Z) :
  1024 <= size < 1048576 ->
  repo.formatSize size = fmt.Sprintf_1f size 1024 ++ " KB".
Proof.
  intros H. unfold repo.formatSize. cbv zeta.
  change (1024 * (1024 * 1024)) with 1073741824. change (1024 * 1024) with 1048576.
  destruct (Z.leb_spec 1073741824 size); [lia|].
  destruct (Z.leb_spec 1048576 size); [lia|].
  destruct (Z.leb_spec 1024 size); [|lia].
  rewrite float64_of_int_exact; [reflexivity|].
  change (2 ^ 53) with 9007199254740992. lia.
Qed.

Lemma formatSize_MB (size : Z) :
  1048576 <= size < 1073741824 ->
  repo.formatSize size = fmt.Sprintf_1f size 1048576 ++ " MB".
Proof.
  intros H. unfold repo.formatSize. cbv zeta.
  change (1024 * (1024 * 1024)) with 1073741824. change (1024 * 1024) with 1048576.
  destruct (Z.leb_spec 1073741824 size); [lia|].
  destruct (Z.leb_spec 1048576 size); [|lia].
  rewrite float64_of_int_exact; [reflexivity|].
  change (2 ^ 53) with 9007199254740992. lia.
Qed.

Lemma round_half_even_top (n d : Z) :
  0 < d -> 20479 * d <= 20 * n -> n < 1024 * d ->
  fmt.round_half_even (n * 10) d = 10240.
Proof.
  intros Hd Hlo Hhi.
  pose proof (round_half_even_near (n * 10) d Hd) as Hnear.
  set (t := fmt.round_half_even (n * 10) d) in *.
  assert (10239 < t \/ t <= 10239) as [Hgt|Hle] by lia.
  - assert (t <= 10240) by nia. lia.
  - (* [t <= 10239] needs a tie at 10239.5, which goes to the even 10240 *)
    assert (Ht : t = 10239) by nia.
    assert (Htie : 2 * (n * 10) = 20479 * d) by nia.
    exfalso. subst t. unfold fmt.round_half_even in Ht.
    pose proof (Z.div_mod (n * 10) d ltac:(lia)) as Hdm.
    pose proof (Z.mod_pos_bound (n * 10) d Hd) as Hr.
    destruct (Z.ltb_spec (2 * (n * 10 mod d)) d); [nia|].
    destruct (Z.ltb_spec d (2 * (n * 10 mod d))); [nia|].
    destruct (Z.even (n * 10 / d)) eqn:Ev; [|nia].
    rewrite Ht in Ev. discriminate Ev.
Qed.

(** X21: between 1 KiB and 1 GiB [formatSize] prints the size in the
    unit it has reached, as a number with one decimal that differs from
    the exact quotient by 0.05 at most and lies between 1.0 and 1024.0;
    the unit is chosen before the rounding, so the sizes of the last 51
    bytes below 1 MiB are printed as ["1024.0 KB"], and those of the last
    52428 bytes below 1 GiB as ["1024.0 MB"]. *)
Theorem formatSize_rounds_after_unit :
  (forall size,
      1024 <= size < 1073741824 ->
      let unit := if size <? 1048576 then 1024 else 1048576 in
      exists tenths,
        repo.formatSize size
        = strconv.FormatInt (tenths / 10) ++ "." ++ strconv.FormatInt (tenths mod 10)
          ++ (if size <? 1048576 then " KB" else " MB")
        /\ 2 * Z.abs (size * 10 - tenths * unit) <= unit
        /\ 10 <= tenths <= 10240)
  /\ (forall size, 1048525 <= size < 1048576 -> repo.formatSize size = "1024.0 KB")
  /\ (forall size, 1073689396 <= size < 1073741824 ->
                   repo.formatSize size = "1024.0 MB").
Proof.
  split; [|split].
  - intros size Hsize. cbv zeta.
    destruct (Z.ltb_spec size 1048576).
    + rewrite formatSize_KB by lia. unfold fmt.Sprintf_1f. cbv zeta.
      exists (fmt.round_half_even (size * 10) 1024).
      rewrite append_assoc. split; [reflexivity|].
      split; [apply round_half_even_near; lia|].
      apply round_half_even_mono_bounds; lia.
    + rewrite formatSize_MB by lia. unfold fmt.Sprintf_1f. cbv zeta.
      exists (fmt.round_half_even (size * 10) 1048576).
      rewrite append_assoc. split; [reflexivity|].
      split; [apply round_half_even_near; lia|].
      apply round_half_even_mono_bounds; lia.
  - intros size Hsize. rewrite formatSize_KB by lia. unfold fmt.Sprintf_1f.
    cbv zeta. rewrite round_half_even_top by lia. reflexivity.
  - intros size Hsize. rewrite formatSize_MB by lia. unfold fmt.Sprintf_1f.
    cbv zeta. rewrite round_half_even_top by lia. reflexivity.
Qed.

Lemma formatSize_rounds_after_unit_witness :
  repo.formatSize 1048575 = "1024.0 KB" /\ repo.formatSize 1073741823 = "1024.0 MB".
Proof.
  split.
  - apply (proj1 (proj2 formatSize_rounds_after_unit)). lia.
  - apply (proj2 (proj2 formatSize_rounds_after_unit)). lia.
Defined.

(** ** [parseControl]: the order of the fields *)

(** Two fields of different names are stored in either order with the
    same result. *)
Lemma assign_field_comm (p : deb.Package) (n1 v1 n2 v2 : string) :
  n1 <> n2 ->
  assign_field (assign_field p (n1, v1)) (n2, v2)
  = assign_field (assign_field p (n2, v2)) (n1, v1).
Proof.
  intros Hne. unfold assign_field, deb.saveField.
  cbn [fst snd deb.st_pkg deb.currentField deb.currentValue].
  destruct (is_empty n1); [reflexivity|].
  destruct (is_empty n2); [reflexivity|].
  set (r1 := strconv.ParseInt (strings.TrimSpace v1)).
  set (r2 := strconv.ParseInt (strings.TrimSpace v2)).
  repeat match goal with
         | |- context [String.eqb n1 ?s] =>
             destruct (String.eqb_spec n1 s) as [->|?]
         end;
    repeat match goal with
           | |- context [String.eqb n2 ?s] =>
               destruct (String.eqb_spec n2 s) as [->|?]
           end;
    try congruence; try reflexivity;
    destruct r1 as [i1 [e1|]]; try reflexivity;
    destruct r2 as [i2 [e2|]]; reflexivity.
Qed.

Lemma foldl_assign_Permutation (fields fields' : list (string * string)) :
  Permutation fields fields' -> NoDup (map fst fields) ->
  forall p, foldl assign_field p fields = foldl assign_field p fields'.
Proof.
  induction 1 as [|x l l' Hperm IH|[n1 v1] [n2 v2] l|l1 l2 l3 H12 IH12 H23 IH23];
    intros Hnd p.
  - reflexivity.
  - cbn [map] in Hnd. apply NoDup_cons in Hnd as [_ Hnd]. cbn [foldl]. now apply IH.
  - cbn [map fst] in Hnd. apply NoDup_cons in Hnd as [Hnot _].
    cbn [foldl]. rewrite assign_field_comm; [reflexivity|].
    intros ->. apply Hnot. now left.
  - rewrite IH12 by exact Hnd. apply IH23.
    now rewrite <- (Permutation_map fst H12).
Qed.

(** X22: [parseControl] does not depend on the order of the fields: two
    control stanzas with the same fields in different orders give the
    same result. Each field name stands once; names and values are as
    [ControlString] writes them (a name of at most 14 bytes, a value
    without white space at its ends, further lines as continuation
    lines). *)
Theorem parseControl_field_order (fields fields' : list (string * string)) :
  Permutation fields fields' ->
  NoDup (map fst fields) ->
  Forall (fun f => clean_field f = true /\ written f = true) fields ->
  deb.parseControl (stanza fields) = deb.parseControl (stanza fields').
Proof.
  intros Hperm Hnd Hall.
  assert (Hall' : Forall (fun f => clean_field f = true /\ written f = true) fields')
    by now rewrite <- Hperm.
  unfold deb.parseControl.
  rewrite !ScanLines_stanza, !foldl_scan_line by assumption.
  now rewrite (foldl_assign_Permutation _ _ Hperm Hnd).
Qed.

Lemma parseControl_field_order_witness :
  deb.parseControl (stanza [("Version", "2.10-3"); ("Package", "hello");
                            ("Architecture", "amd64")])
  = deb.parseControl (stanza [("Package", "hello"); ("Version", "2.10-3");
                              ("Architecture", "amd64")]).
Proof.
  apply parseControl_field_order.
  - apply perm_swap.
  - apply (bool_decide_unpack _). vm_compute. reflexivity.
  - repeat (constructor; [split; vm_compute; reflexivity|]). constructor.
Defined.

(** ** [parseControl]: a control text without a [Package] line *)

Lemma IndexByte_split (s : string) (c : ascii) (i : nat) :
  strings.IndexByte s c = Some i ->
  s = slice_to i s ++ String c (slice_from (S i) s).
Proof.
  revert i. induction s as [|x s IH]; intros i H; [discriminate H|].
  cbn [strings.IndexByte] in H.
  destruct (Ascii.eqb_spec x c) as [->|Hne].
  - injection H as <-. reflexivity.
  - destruct (strings.IndexByte s c) as [j|]; [|discriminate H].
    injection H as <-. change (slice_to (S j) (String x s)) with (String x (slice_to j s)).
    change (slice_from (S (S j)) (String x s)) with (slice_from (S j) s).
    cbn [String.append]. f_equal. exact (IH j eq_refl).
Qed.

(** Saving a field other than [Package] leaves the name as it is. *)
Lemma saveField_Name (st : deb.scan_state) :
  st.(deb.currentField) <> "Package" ->
  (deb.saveField st).(deb.Name) = st.(deb.st_pkg).(deb.Name).
Proof.
  intros Hf. unfold deb.saveField.
  destruct (is_empty _); [reflexivity|].
  destruct (String.eqb_spec (deb.currentField st) "Package") as [E|_]; [congruence|].
  repeat (destruct (String.eqb (deb.currentField st) _); [reflexivity|]).
  destruct (String.eqb (deb.currentField st) _); [|reflexivity].
  destruct (strconv.ParseInt _) as [size [err|]]; reflexivity.
Qed.

Lemma scan_line_no_Package (st : deb.scan_state) (line : string) :
  strings.HasPrefix line "Package:" = false ->
  st.(deb.st_pkg).(deb.Name) = "" /\ st.(deb.currentField) <> "Package" ->
  (deb.scan_line st line).(deb.st_pkg).(deb.Name) = ""
  /\ (deb.scan_line st line).(deb.currentField) <> "Package".
Proof.
  intros Hline [Hname Hfield]. unfold deb.scan_line.
  destruct (deb.is_continuation line); [now split|].
  pose proof (saveField_Name st Hfield) as Hsave. rewrite Hname in Hsave.
  destruct (strings.IndexByte line ":") as [[|idx]|] eqn:Ei;
    cbn [deb.st_pkg deb.currentField]; try (now split).
  split; [exact Hsave|]. intros E.
  apply IndexByte_split in Ei. rewrite E in Ei.
  rewrite Ei in Hline. discriminate Hline.
Qed.

(** X23: when no line of a control text starts with ["Package:"],
    [parseControl] returns the error ["missing Package field"], whatever
    else the text holds: the name of the field is compared byte by byte,
    so ["package:"] or a name with a space in front does not count, and
    the missing name is reported before a missing version or
    architecture. *)
Theorem parseControl_missing_Package (data : string) :
  Forall (fun line => strings.HasPrefix line "Package:" = false) (bufio.ScanLines data) ->
  deb.parseControl data = Err (errorString "missing Package field").
Proof.
  intros H. unfold deb.parseControl.
  set (st0 := deb.mkState deb.emptyPackage "" "").
  assert (Hinv : forall lines st,
            Forall (fun line => strings.HasPrefix line "Package:" = false) lines ->
            st.(deb.st_pkg).(deb.Name) = "" /\ st.(deb.currentField) <> "Package" ->
            (foldl deb.scan_line st lines).(deb.st_pkg).(deb.Name) = ""
            /\ (foldl deb.scan_line st lines).(deb.currentField) <> "Package").
  { induction lines as [|l lines IH]; intros st Hl Hst; [exact Hst|].
    apply Forall_cons in Hl as [Hl Hls]. cbn [foldl].
    apply IH; [exact Hls | now apply scan_line_no_Package]. }
  destruct (Hinv (bufio.ScanLines data) st0 H) as [Hname Hfield];
    [split; [reflexivity | discriminate]|].
  rewrite (saveField_Name _ Hfield), Hname. reflexivity.
Qed.

Lemma parseControl_missing_Package_witness :
  deb.parseControl
    (text_of_lines ["package: hello"; " Package: hello"; "Version: 2.10-3";
                    "Architecture: amd64"])
  = Err (errorString "missing Package field").
Proof.
  apply parseControl_missing_Package. vm_compute. repeat constructor.
Defined.

(** ** [Prune]: what it deletes has been superseded *)

Lemma NoDup_concat_elem {A : Type} (ls : list (list A)) (l : list A) :
  NoDup (concat ls) -> In l ls -> NoDup l.
Proof.
  induction ls as [|l0 ls IH]; [contradiction|]. cbn [concat]. intros Hnd Hin.
  apply NoDup_app in Hnd as (H0 & _ & Hrest).
  destruct Hin as [->|Hin]; [exact H0 | now apply IH].
Qed.

(** The lists of the result name no path twice, when the tree does
    not. *)
Lemma Prune_lists_NoDup range_order Root fs opts fs' res :
  iteration_order range_order ->
  NoDup (map fst fs) ->
  repo.Lstat fs (filepath.Join [Root; "pool"; "main"]) <> None ->
  repo.Prune range_order Root fs opts = (fs', Ok res) ->
  NoDup (res.(repo.Kept) ++ res.(repo.Deleted)).
Proof.
  intros Hord Hnd Hpool H.
  destruct (Prune_Ok_inv _ _ _ _ _ _ Hord Hpool H)
    as (packages & fs1 & Hwalk & Hk & Hd & _).
  rewrite Hk, Hd, kept_deleted_Permutation.
  apply walk_prune_Ok in Hwalk as (Hperm & _ & _).
  unfold all_files in Hperm at 2. rewrite map_to_list_empty in Hperm.
  cbn [map concat app] in Hperm.
  assert (Hgs : Permutation (map repo.Path (concat (map snd (range_order packages))))
                            (map repo.Path (all_files packages))).
  { unfold all_files.
    apply Permutation_map, Permutation_concat, Permutation_map, Hord. }
  rewrite Hgs, Hperm. now apply NoDup_fst_filter, NoDup_fst_filter.
Qed.

(** X24: when [Prune] returns a result, every path of [Deleted] is an
    archive of the pool that parses, and [Kept] lists as many as
    [KeepVersions] (5 when that is below 1) other archives of the same
    key (name, underscore, architecture) whose versions are not older
    under [Compare]: only an archive that many kept ones supersede is
    deleted. The pool directory exists and the tree names each path
    once. *)
Theorem Prune_deletes_only_superseded range_order :
  iteration_order range_order ->
  forall Root fs opts fs' res,
    NoDup (map fst fs) ->
    repo.Lstat fs (filepath.Join [Root; "pool"; "main"]) <> None ->
    repo.Prune range_order Root fs opts = (fs', Ok res) ->
    forall path,
      In path res.(repo.Deleted) ->
      exists pkg newer,
        In (path, repo.RegularFile (Ok pkg)) fs
        /\ length newer = keep_count opts
        /\ NoDup newer
        /\ ~ In path newer
        /\ forall p, In p newer ->
             In p res.(repo.Kept)
             /\ exists pkg', In (p, repo.RegularFile (Ok pkg')) fs
                             /\ group_key pkg' = group_key pkg
                             /\ 0 <= deb.Compare pkg'.(deb.Version) pkg.(deb.Version).
Proof.
  intros Hord Root fs opts fs' res Hnd Hpool H path Hpath.
  pose proof (Prune_lists_NoDup _ _ _ _ _ _ Hord Hnd Hpool H) as Hlists.
  destruct (Prune_Ok_inv _ _ _ _ _ _ Hord Hpool H)
    as (packages & fs1 & Hwalk & Hk & Hd & _).
  set (poolDir := filepath.Join [Root; "pool"; "main"]) in *.
  set (visits := List.filter (fun e => repo.under poolDir e.1) fs) in *.
  assert (Hfrom : from_archives fs packages).
  { apply (walk_prune_from fs visits ∅ packages None); [| |exact Hwalk].
    - intros e He. now apply filter_In in He.
    - intros k g pf Hkg. rewrite lookup_empty in Hkg. discriminate. }
  set (k := keep_count opts) in *.
  (* the group the path was deleted from *)
  rewrite Hd in Hpath. apply in_concat in Hpath as (ds & Hds & Hpath).
  apply in_map_iff in Hds as (g & <- & Hg).
  apply in_map_iff in Hpath as (pf & <- & Hpf).
  apply in_map_iff in Hg as ([key g'] & Eg & Hkg). cbn [snd] in Eg. subst g'.
  assert (Hlook : packages !! key = Some g).
  { apply elem_of_map_to_list. rewrite <- (Hord packages). now apply list_elem_of_In. }
  destruct (sortPackageFiles_sorts g) as [Hperm Hsorted].
  set (sorted := repo.sortPackageFiles g) in *.
  assert (Hmem : forall x, In x sorted -> In x g).
  { intros x Hx. apply list_elem_of_In. rewrite <- Hperm. now apply list_elem_of_In. }
  assert (Hpf_sorted : In pf sorted).
  { rewrite <- (take_drop k sorted). apply in_app_iff. now right. }
  destruct (Hfrom _ _ _ Hlook (Hmem _ Hpf_sorted)) as (pkg & Hin & Hkey & Hver).
  exists pkg, (map repo.Path (take k sorted)).
  assert (Hkept : In (map repo.Path (take k sorted))
                     (map (fun g => map repo.Path (take k (repo.sortPackageFiles g)))
                          (map snd (range_order packages)))).
  { apply in_map_iff. exists g. split; [reflexivity|].
    apply in_map_iff. exists (key, g). auto. }
  split; [exact Hin|]. split; [|split; [|split]].
  - rewrite length_map, length_take.
    assert (length (drop k sorted) <> 0)%nat by (destruct (drop k sorted); [contradiction | discriminate]).
    rewrite length_drop in *. lia.
  - apply NoDup_app in Hlists as (Hnk & _ & _). rewrite Hk in Hnk.
    exact (NoDup_concat_elem _ _ Hnk Hkept).
  - intros Hin'. apply NoDup_app in Hlists as (_ & Hdisj & _).
    apply (Hdisj (repo.Path pf)); apply list_elem_of_In.
    + rewrite Hk. apply in_concat. eauto.
    + rewrite Hd. apply in_concat. eexists. split.
      * apply in_map_iff. exists g. split; [reflexivity|].
        apply in_map_iff. exists (key, g). auto.
      * now apply in_map.
  - intros p Hp. split; [rewrite Hk; apply in_concat; eauto|].
    apply in_map_iff in Hp as (h & <- & Hh).
    assert (Hh_sorted : In h sorted).
    { rewrite <- (take_drop k sorted). apply in_app_iff. now left. }
    destruct (Hfrom _ _ _ Hlook (Hmem _ Hh_sorted)) as (pkg' & Hin' & Hkey' & Hver').
    exists pkg'. split; [exact Hin'|]. split; [congruence|].
    rewrite Hver, Hver'.
    rewrite <- (take_drop k sorted) in Hsorted.
    apply (StronglySorted_app_1_elem_of _ _ _ h pf Hsorted); now apply list_elem_of_In.
Qed.

Lemma Prune_deletes_only_superseded_witness :
  exists pkg newer,
    In ("repo/pool/main/p/pkg/pkg_1.0_amd64.deb", repo.RegularFile (Ok pkg)) prune_pool
    /\ length newer = 2%nat
    /\ NoDup newer
    /\ ~ In "repo/pool/main/p/pkg/pkg_1.0_amd64.deb" newer
    /\ forall p, In p newer ->
         In p ["repo/pool/main/p/pkg/pkg_2.0_amd64.deb";
               "repo/pool/main/p/pkg/pkg_1.5_amd64.deb"]
         /\ exists pkg', In (p, repo.RegularFile (Ok pkg')) prune_pool
                         /\ group_key pkg' = group_key pkg
                         /\ 0 <= deb.Compare pkg'.(deb.Version) pkg.(deb.Version).
Proof.
  refine (Prune_deletes_only_superseded entries_order iteration_order_entries
            "repo" prune_pool (repo.mkPruneOptions 2 true) prune_pool
            (repo.mkPruneResult ["repo/pool/main/p/pkg/pkg_1.0_amd64.deb"]
               ["repo/pool/main/p/pkg/pkg_2.0_amd64.deb";
                "repo/pool/main/p/pkg/pkg_1.5_amd64.deb"])
            _ _ _ "repo/pool/main/p/pkg/pkg_1.0_amd64.deb" _).
  - apply (bool_decide_unpack _). vm_compute. reflexivity.
  - vm_compute. discriminate.
  - vm_compute. reflexivity.
  - now left.
Defined.

(** ** A second run of [Prune] *)

Lemma walk_prune_group visits : forall m m',
  repo.walk_visit repo.prune_fn visits m = (m', None) ->
  forall key,
    default [] (m' !! key)
    = (default [] (m !! key) ++ flat_map (group_entry key) visits)%list.
Proof.
  induction visits as [|[path info] visits IH]; intros m m' H key;
    cbn [repo.walk_visit] in H.
  - injection H as <-. cbn [flat_map]. now rewrite app_nil_r.
  - cbn [flat_map]. destruct (is_archive (path, info)) eqn:Ea.
    + unfold is_archive in Ea. cbn [fst snd] in Ea.
      apply andb_true_iff in Ea as [Ed Es].
      destruct info as [|parsed]; [discriminate Ed|].
      rewrite (prune_fn_archive _ _ _ Es) in H.
      destruct parsed as [pkg|e]; [|discriminate H].
      rewrite (IH _ _ H key). unfold group_entry at 2. cbn [fst snd].
      rewrite Es. cbn [andb].
      destruct (String.eqb_spec (group_key pkg) key) as [<-|Hne].
      * rewrite lookup_insert_eq. cbn [default from_option id].
        now rewrite <- app_assoc.
      * rewrite lookup_insert_ne by exact Hne. reflexivity.
    + rewrite (prune_fn_other _ _ _ Ea) in H.
      rewrite (IH _ _ H key). f_equal.
      unfold is_archive in Ea. unfold group_entry. cbn [fst snd] in *.
      destruct info as [|[pkg|e]]; try reflexivity.
      cbn [repo.IsDir negb andb] in Ea. now rewrite Ea.
Qed.

Lemma filter_filter_andb {A : Type} (f g : A -> bool) (l : list A) :
  List.filter g (List.filter f l) = List.filter (fun x => f x && g x) l.
Proof.
  induction l as [|x l IH]; [reflexivity|]. cbn [List.filter].
  destruct (f x); cbn [List.filter andb]; [|exact IH].
  destruct (g x); [now rewrite IH | exact IH].
Qed.

Lemma filter_filter_comm {A : Type} (f g : A -> bool) (l : list A) :
  List.filter g (List.filter f l) = List.filter f (List.filter g l).
Proof.
  rewrite !filter_filter_andb. apply filter_ext. intros x. apply andb_comm.
Qed.

Lemma length_filter_Permutation {A : Type} (f : A -> bool) (l l' : list A) :
  Permutation l l' -> length (List.filter f l) = length (List.filter f l').
Proof.
  induction 1 as [|x l l' _ IH|x y l|l l' l'' _ IH1 _ IH2]; cbn [List.filter].
  - reflexivity.
  - destruct (f x); cbn [length]; now rewrite IH.
  - destruct (f x), (f y); reflexivity.
  - now rewrite IH1.
Qed.

(** The tree after a run of [Prune] that is no dry run: the regular files
    left are those whose path is not listed in [Deleted]. *)
Lemma Prune_tree_after range_order Root fs opts fs' res :
  iteration_order range_order ->
  NoDup (map fst fs) ->
  repo.Lstat fs (filepath.Join [Root; "pool"; "main"]) <> None ->
  opts.(repo.DryRun) = false ->
  repo.Prune range_order Root fs opts = (fs', Ok res) ->
  exists keep,
    fs' = List.filter keep fs
    /\ forall path parsed,
         In (path, repo.RegularFile parsed) fs ->
         (keep (path, repo.RegularFile parsed) = true
          <-> ~ In path res.(repo.Deleted)).
Proof.
  intros Hord Hnd Hpool Hdry H.
  destruct (Prune_Ok_inv _ _ _ _ _ _ Hord Hpool H)
    as (packages & fs1 & _ & _ & _ & Hfs).
  rewrite Hdry in Hfs. destruct Hfs as (Hdel & Hrem & Hclean).
  apply cleanEmptyDirs_removes in Hclean; [|exact (removes_NoDup _ _ _ Hrem Hnd)].
  assert (Hfiles : forall path parsed,
             In (path, repo.RegularFile parsed) fs' <->
             In (path, repo.RegularFile parsed) fs /\ ~ In path res.(repo.Deleted)).
  { intros path parsed. rewrite <- (Hdel (path, repo.RegularFile parsed)). split.
    - now apply removes_In with (1 := Hclean).
    - intros Hin. apply (removes_kept _ _ _ _ Hclean Hin).
      intros (Hdir & _). discriminate Hdir. }
  destruct Hrem as (keep1 & -> & _). destruct Hclean as (keep2 & -> & _).
  exists (fun e => keep1 e && keep2 e). split; [apply filter_filter_andb|].
  intros path parsed Hin. rewrite filter_filter_andb in Hfiles.
  specialize (Hfiles path parsed). rewrite filter_In in Hfiles. tauto.
Qed.

(** The groups of a walk of the tree left by a run, from those of the walk
    before it. *)
Lemma group_entry_after keep paths key (l : repo.FS) :
  (forall path parsed,
     In (path, repo.RegularFile parsed) l ->
     (keep (path, repo.RegularFile parsed) = true <-> ~ In path paths)) ->
  flat_map (group_entry key) (List.filter keep l)
  = List.filter (not_listed paths) (flat_map (group_entry key) l).
Proof.
  induction l as [|[path info] l IH]; intros Hk; [reflexivity|].
  cbn [List.filter flat_map]. rewrite List.filter_app, <- IH
    by (intros p parsed Hin; apply Hk; now right).
  assert (E : (if keep (path, info) then group_entry key (path, info) else [])
              = List.filter (not_listed paths) (group_entry key (path, info))).
  { unfold group_entry. cbn [fst snd].
    destruct info as [|[pkg|e]]; try (now destruct (keep _)).
    destruct (strings.HasSuffix path ".deb" && String.eqb (group_key pkg) key);
      [|now destruct (keep _)].
    cbn [List.filter]. unfold not_listed. cbn [repo.Path].
    specialize (Hk path (Ok pkg) (or_introl eq_refl)).
    destruct (existsb (String.eqb path) paths) eqn:Ex; cbn [negb].
    - apply existsb_exists in Ex as (x & Hx & Ex).
      apply String.eqb_eq in Ex. subst x.
      destruct (keep _); [|reflexivity]. exfalso. now apply (proj1 Hk).
    - destruct (keep _); [reflexivity|].
      assert (Hnot : ~ In path paths).
      { intros Hin. assert (existsb (String.eqb path) paths = true) as Hex.
        { apply existsb_exists. exists path. split; [exact Hin | apply String.eqb_refl]. }
        rewrite Hex in Ex. discriminate Ex. }
      apply Hk in Hnot. discriminate Hnot. }
  destruct (keep (path, info)) eqn:Ekeep.
  - cbn [flat_map]. now rewrite <- E.
  - now rewrite <- E.
Qed.

(** A group all of whose files beyond the first [k] of its descending
    order are listed has at most [k] files that are not. *)
Lemma length_not_listed (k : nat) paths (g : list repo.packageFile) :
  (forall pf, In pf (drop k (repo.sortPackageFiles g)) -> In pf.(repo.Path) paths) ->
  (length (List.filter (not_listed paths) g) <= k)%nat.
Proof.
  intros Hdrop.
  rewrite <- (length_filter_Permutation _ _ _ (proj1 (sortPackageFiles_sorts g))).
  rewrite <- (take_drop k (repo.sortPackageFiles g)), List.filter_app, length_app.
  assert (E : List.filter (not_listed paths) (drop k (repo.sortPackageFiles g)) = []).
  { apply forallb_filter_nil. apply forallb_forall. intros pf Hpf.
    unfold not_listed. rewrite negb_involutive. apply existsb_exists.
    exists pf.(repo.Path). split; [now apply Hdrop | apply String.eqb_refl]. }
  rewrite E. cbn [length].
  pose proof (filter_length_le (not_listed paths) (take k (repo.sortPackageFiles g))).
  rewrite length_take in H. lia.
Qed.

(** X25: a run of [Prune] on the tree that a run which was no dry run and
    returned a result has left, with the same [KeepVersions], finds
    nothing to delete: when it returns a result, its [Deleted] is empty.
    The pool directory exists before and after the first run and the tree
    names each path once. *)
Theorem Prune_second_run range_order :
  iteration_order range_order ->
  forall Root fs opts fs' res opts2 fs'' res2,
    NoDup (map fst fs) ->
    repo.Lstat fs (filepath.Join [Root; "pool"; "main"]) <> None ->
    opts.(repo.DryRun) = false ->
    repo.Prune range_order Root fs opts = (fs', Ok res) ->
    keep_count opts2 = keep_count opts ->
    repo.Lstat fs' (filepath.Join [Root; "pool"; "main"]) <> None ->
    repo.Prune range_order Root fs' opts2 = (fs'', Ok res2) ->
    res2.(repo.Deleted) = [].
Proof.
  intros Hord Root fs opts fs' res opts2 fs'' res2 Hnd Hpool Hdry H Hkeep Hpool2 H2.
  destruct (Prune_tree_after _ _ _ _ _ _ Hord Hnd Hpool Hdry H) as (keep & Efs & Hkeepc).
  destruct (Prune_Ok_inv _ _ _ _ _ _ Hord Hpool H)
    as (packages & fs1 & Hwalk & _ & Hd & _).
  destruct (Prune_Ok_inv _ _ _ _ _ _ Hord Hpool2 H2)
    as (packages2 & fs2 & Hwalk2 & _ & Hd2 & _).
  rewrite Hkeep in Hd2.
  set (poolDir := filepath.Join [Root; "pool"; "main"]) in *.
  set (k := keep_count opts) in *.
  rewrite Hd2. clear Hd2.
  assert (Hall : forall g2, In g2 (map snd (range_order packages2)) ->
                 drop k (repo.sortPackageFiles g2) = []).
  { intros g2 Hg2. apply in_map_iff in Hg2 as ([key g] & Eg & Hkg).
    cbn [snd] in Eg. subst g.
    assert (Hlook2 : packages2 !! key = Some g2).
    { apply elem_of_map_to_list. rewrite <- (Hord packages2). now apply list_elem_of_In. }
    pose proof (walk_prune_group _ _ _ Hwalk2 key) as E2.
    pose proof (walk_prune_group _ _ _ Hwalk key) as E1.
    rewrite Hlook2, lookup_empty in E2. rewrite lookup_empty in E1.
    cbn [default app] in E1, E2.
    rewrite Efs, filter_filter_comm in E2.
    rewrite (group_entry_after keep res.(repo.Deleted)) in E2.
    2:{ intros path parsed Hin. apply Hkeepc. now apply filter_In in Hin. }
    rewrite <- E1 in E2. change (id g2) with g2 in E2.
    apply drop_ge.
    rewrite (Permutation_length (proj1 (sortPackageFiles_sorts g2))), E2.
    destruct (packages !! key) as [g1|] eqn:Hlook1; cbn [default]; [|cbn; lia].
    apply length_not_listed. intros pf Hpf. rewrite Hd. apply in_concat.
    exists (map repo.Path (drop k (repo.sortPackageFiles g1))). split.
    - apply in_map_iff. exists g1. split; [reflexivity|].
      apply in_map_iff. exists (key, g1). split; [reflexivity|].
      apply list_elem_of_In. rewrite (Hord packages).
      now apply elem_of_map_to_list.
    - now apply in_map. }
  induction (map snd (range_order packages2)) as [|g gs IH]; [reflexivity|].
  cbn [map concat]. rewrite (Hall g) by now left. cbn [map app].
  apply IH. intros g2 Hg2. apply Hall. now right.
Qed.

Lemma Prune_second_run_witness :
  (repo.Prune entries_order "repo"
     (repo.Prune entries_order "repo" prune_pool (repo.mkPruneOptions 1 false)).1
     (repo.mkPruneOptions 1 true)).2
  = Ok (repo.mkPruneResult [] ["repo/pool/main/p/pkg/pkg_2.0_amd64.deb"])
  /\ repo.Deleted (repo.mkPruneResult [] ["repo/pool/main/p/pkg/pkg_2.0_amd64.deb"])
     = [].
Proof.
  split; [vm_compute; reflexivity|].
  apply (Prune_second_run entries_order iteration_order_entries
           "repo" prune_pool (repo.mkPruneOptions 1 false)
           (repo.Prune entries_order "repo" prune_pool (repo.mkPruneOptions 1 false)).1
           (repo.mkPruneResult ["repo/pool/main/p/pkg/pkg_1.5_amd64.deb";
                                "repo/pool/main/p/pkg/pkg_1.0_amd64.deb"]
                               ["repo/pool/main/p/pkg/pkg_2.0_amd64.deb"])
           (repo.mkPruneOptions 1 true)
           (repo.Prune entries_order "repo" prune_pool (repo.mkPruneOptions 1 false)).1).
  - apply (bool_decide_unpack _). vm_compute. reflexivity.
  - vm_compute. discriminate.
  - reflexivity.
  - vm_compute. reflexivity.
  - reflexivity.
  - vm_compute. discriminate.
  - vm_compute. reflexivity.
Defined.
